(** * gowarcraft3, package w3g: the block decompressor (file/w3g/decompress.go)

    A shallow embedding of [Decompressor] and its methods [nextBlock],
    [closeBlock], [Read] and [ForEach], followed by the properties of the
    streaming-read contract.

    Conventions.
    - Go's [uint32], [uint16] and [int64] values are integers in [Z]; every
      conversion and every wrapping operation of the source is written out
      with [uint32] and [uint16].
    - The byte source [d.r] is the list of bytes it has not delivered yet; it
      reports [io.EOF] once that list is empty.
    - [io.LimitedReader], [io.TeeReader] and [hash/crc32] are embedded as the
      Go library defines them.
    - [compress/zlib] is not part of the package: the engine is a parameter
      ([Engine]) that sees the bytes the limited reader can still supply and
      says how many of them it took. *)

From Stdlib Require Import ZArith List Lia Bool PeanoNat.
From Stdlib Require Strings.Byte.
Import ListNotations.
Local Open Scope Z_scope.

Set Implicit Arguments.

(** ** Machine integers and bytes *)

Definition byte := Byte.byte.

Definition byte_val (b : byte) : Z := Z.of_N (Byte.to_N b).

Definition uint16 (x : Z) : Z := x mod 2 ^ 16.
Definition uint32 (x : Z) : Z := x mod 2 ^ 32.

(** [uint16(c ^ c>>16)]: Go's [>>] binds tighter than [^]. *)
Definition fold16 (c : Z) : Z := uint16 (Z.lxor c (Z.shiftr c 16)).

Definition low16 (c : Z) : Z := Z.land c (Z.ones 16).
Definition high16 (c : Z) : Z := Z.land (Z.shiftr c 16) (Z.ones 16).

(** ** Errors *)

(** The [error] values the decompressor compares against or creates;
    [ErrOther] stands for every other error of the engine ([zlib.ErrHeader],
    [flate.CorruptInputError], ...). *)
Inductive error : Type :=
| EOF
| ErrUnexpectedEOF
| ErrInvalidChecksum
| ErrOther (code : nat).

Definition error_eqb (a b : error) : bool :=
  match a, b with
  | EOF, EOF => true
  | ErrUnexpectedEOF, ErrUnexpectedEOF => true
  | ErrInvalidChecksum, ErrInvalidChecksum => true
  | ErrOther x, ErrOther y => Nat.eqb x y
  | _, _ => false
  end.

(** ** hash/crc32 with the IEEE polynomial *)

Module CRC32.

Definition poly : Z := 0xedb88320.

Definition shift1 (c : Z) : Z :=
  if Z.testbit c 0 then Z.lxor (Z.shiftr c 1) poly else Z.shiftr c 1.

(** One entry of [crc32.IEEETable]. *)
Definition table (i : Z) : Z :=
  shift1 (shift1 (shift1 (shift1 (shift1 (shift1 (shift1 (shift1 i))))))).

Definition step (c : Z) (b : byte) : Z :=
  Z.lxor (table (Z.land (Z.lxor c (byte_val b)) 255)) (Z.shiftr c 8).

(** [crc32.Update(crc, crc32.IEEETable, p)] *)
Definition update (crc : Z) (p : list byte) : Z :=
  Z.lxor (fold_left step p (Z.lxor crc 0xffffffff)) 0xffffffff.

(** [crc32.ChecksumIEEE(p)] *)
Definition ChecksumIEEE (p : list byte) : Z := update 0 p.

End CRC32.

(** ** The decompression engine *)

(** What the decompressor asks of [compress/zlib].  Each operation is given
    the window of compressed bytes the tee can still supply (at most
    [lim.N] bytes of the source) and answers with the number of bytes it
    took from it.
    - [zReset w]: [zlib.NewReader(d.tee)] or [Reset(d.tee, nil)].
    - [zReadFull z w n]: [io.ReadFull(d.z, p)] with [len(p) = n].
    - [zDiscard z w]: [io.Copy(ioutil.Discard, d.z)], the number of bytes
      discarded; the source drops the error of this call. *)
Record Engine : Type := {
  zst : Type;
  zReset : list byte -> nat * option error * zst;
  zReadFull : zst -> list byte -> nat -> list byte * nat * option error * zst;
  zDiscard : zst -> list byte -> Z * nat * zst
}.

(** The documented contract of [io.ReadFull]: never more than asked, and
    [err == nil] exactly when the buffer was filled. *)
Definition ReadFull_contract (E : Engine) : Prop :=
  forall z w n out c e z',
    zReadFull E z w n = (out, c, e, z') ->
    (length out <= n)%nat /\ (e = None <-> length out = n).

(** ** The decompressor *)

Module W3G.

Section Decompress.

Variable E : Engine.

(** [protocol.Buffer.ReadUInt16] and [ReadUInt32] belong to package
    [protocol]; here they are parameters that decode the two or four bytes
    the cursor stands on.  Their results have Go type [uint16] and
    [uint32], which the embedding writes as a wrap. *)
Variable ReadUInt16 : list byte -> Z.
Variable ReadUInt32 : list byte -> Z.

(** [Decompressor]: the exported counters, the byte source, the engine
    handle ([None] is Go's nil interface), the remaining budget [lim.N] of
    the limited reader, the running value of the crc32 digest fed by the
    tee, the declared checksum of the open block and the header buffer.
    [GameVersion] is the field of the embedded [RecordDecoder]. *)
Record Decompressor : Type := mkDecompressor {
  GameVersion : Z;
  SizeRead : Z;
  SizeTotal : Z;
  SizeBlock : Z;
  NumBlocks : Z;
  r : list byte;
  z : option (zst E);
  limN : Z;
  crc : Z;
  crcData : Z;
  buf : list byte
}.

Definition set_SizeRead (v : Z) (d : Decompressor) : Decompressor :=
  mkDecompressor (GameVersion d) v (SizeTotal d) (SizeBlock d) (NumBlocks d)
                 (r d) (z d) (limN d) (crc d) (crcData d) (buf d).
Definition set_SizeTotal (v : Z) (d : Decompressor) : Decompressor :=
  mkDecompressor (GameVersion d) (SizeRead d) v (SizeBlock d) (NumBlocks d)
                 (r d) (z d) (limN d) (crc d) (crcData d) (buf d).
Definition set_SizeBlock (v : Z) (d : Decompressor) : Decompressor :=
  mkDecompressor (GameVersion d) (SizeRead d) (SizeTotal d) v (NumBlocks d)
                 (r d) (z d) (limN d) (crc d) (crcData d) (buf d).
Definition set_NumBlocks (v : Z) (d : Decompressor) : Decompressor :=
  mkDecompressor (GameVersion d) (SizeRead d) (SizeTotal d) (SizeBlock d) v
                 (r d) (z d) (limN d) (crc d) (crcData d) (buf d).
Definition set_r (v : list byte) (d : Decompressor) : Decompressor :=
  mkDecompressor (GameVersion d) (SizeRead d) (SizeTotal d) (SizeBlock d)
                 (NumBlocks d) v (z d) (limN d) (crc d) (crcData d) (buf d).
Definition set_z (v : option (zst E)) (d : Decompressor) : Decompressor :=
  mkDecompressor (GameVersion d) (SizeRead d) (SizeTotal d) (SizeBlock d)
                 (NumBlocks d) (r d) v (limN d) (crc d) (crcData d) (buf d).
Definition set_limN (v : Z) (d : Decompressor) : Decompressor :=
  mkDecompressor (GameVersion d) (SizeRead d) (SizeTotal d) (SizeBlock d)
                 (NumBlocks d) (r d) (z d) v (crc d) (crcData d) (buf d).
Definition set_crc (v : Z) (d : Decompressor) : Decompressor :=
  mkDecompressor (GameVersion d) (SizeRead d) (SizeTotal d) (SizeBlock d)
                 (NumBlocks d) (r d) (z d) (limN d) v (crcData d) (buf d).
Definition set_crcData (v : Z) (d : Decompressor) : Decompressor :=
  mkDecompressor (GameVersion d) (SizeRead d) (SizeTotal d) (SizeBlock d)
                 (NumBlocks d) (r d) (z d) (limN d) (crc d) v (buf d).
Definition set_buf (v : list byte) (d : Decompressor) : Decompressor :=
  mkDecompressor (GameVersion d) (SizeRead d) (SizeTotal d) (SizeBlock d)
                 (NumBlocks d) (r d) (z d) (limN d) (crc d) (crcData d) v.

(** [NewDecompressor(r, e, f, numBlocks, sizeTotal)]: every other field
    has Go's zero value; a fresh IEEE digest holds 0. *)
Definition NewDecompressor (src : list byte) (gameVersion : Z)
           (numBlocks sizeTotal : Z) : Decompressor :=
  mkDecompressor gameVersion 0 sizeTotal 0 numBlocks src None 0 0 0
                 (repeat Byte.x00 12).

(** *** The compressed byte path: limited reader, tee and digest *)

(** The bytes [d.tee] can still deliver: [io.LimitedReader] stops after
    [lim.N] bytes ([N <= 0] is end of file), the source when it is empty. *)
Definition window (d : Decompressor) : list byte :=
  firstn (Z.to_nat (limN d)) (r d).

(** The engine took [c] bytes through the tee: they leave the source, are
    written to the digest and are charged to [lim.N].  No reader can take
    more than the window holds. *)
Definition consume (c : nat) (d : Decompressor) : Decompressor :=
  let k := Nat.min c (length (window d)) in
  set_crc (CRC32.update (crc d) (firstn k (r d)))
    (set_limN (limN d - Z.of_nat k)
      (set_r (skipn k (r d)) d)).

(** *** toByteReader *)

(** [toByteReader.ReadByte]: one [Read] into the one-byte buffer [r.b]
    through the tee.  The limited reader answers [io.EOF] with
    [lim.N <= 0], the source when it is empty; otherwise one byte leaves the
    source, is charged to [lim.N] and is written to the digest.  [r.b[0]]
    is returned in either case: [b] is what the buffer held before. *)
Definition ReadByte (b : byte) (d : Decompressor)
  : byte * option error * (byte * Decompressor) :=
  if limN d <=? 0 then (b, Some EOF, (b, d))
  else
    match r d with
    | [] => (b, Some EOF, (b, d))
    | x :: r' =>
      (x, None,
       (x, set_crc (CRC32.update (crc d) [x])
             (set_limN (limN d - 1) (set_r r' d))))
    end.

(** A reader that calls [ReadByte] up to [k] times and stops at the first
    error: the bytes it got, the error, and the state it leaves. *)
Fixpoint ReadBytes (k : nat) (b : byte) (d : Decompressor)
  : list byte * option error * (byte * Decompressor) :=
  match k with
  | O => ([], None, (b, d))
  | S k' =>
    match ReadByte b d with
    | (x, None, (b', d')) =>
      let '(out, e, st) := ReadBytes k' b' d' in (x :: out, e, st)
    | (_, Some e, st) => ([], Some e, st)
    end
  end.

(** *** closeBlock *)

Definition closeBlock (d : Decompressor) : option error :=
  if (0 <? SizeBlock d) || (0 <? limN d) then Some ErrUnexpectedEOF
  else
    let sum := crc d in
    if negb (crcData d =? fold16 sum) then Some ErrInvalidChecksum
    else None.

(** *** nextBlock *)

(** [lenHead]: [len(d.buf)], less 4 for the old game versions. *)
Definition lenHead (gameVersion : Z) : nat :=
  if (0 <? gameVersion) && (gameVersion <? 10032) then (12 - 4)%nat
  else 12%nat.

(** The test of the second [if], which picks the width of the two length
    fields. *)
Definition wide (gameVersion : Z) : bool :=
  (gameVersion =? 0) || (10032 <=? gameVersion).

(** The four fields read through [protocol.Buffer] from [d.buf[:lenHead]],
    in reading order: [lenDeflate], [SizeBlock], [crcHead], [crcData]. *)
Definition parseHeader (gameVersion : Z) (hdr : list byte)
  : Z * Z * Z * Z :=
  if wide gameVersion then
    (uint32 (ReadUInt32 (firstn 4 hdr)),
     uint32 (ReadUInt32 (firstn 4 (skipn 4 hdr))),
     uint16 (ReadUInt16 (firstn 2 (skipn 8 hdr))),
     uint16 (ReadUInt16 (firstn 2 (skipn 10 hdr))))
  else
    (uint32 (uint16 (ReadUInt16 (firstn 2 hdr))),
     uint32 (uint16 (ReadUInt16 (firstn 2 (skipn 2 hdr)))),
     uint16 (ReadUInt16 (firstn 2 (skipn 4 hdr))),
     uint16 (ReadUInt16 (firstn 2 (skipn 6 hdr)))).

(** [d.buf[lenHead-4 .. lenHead-1] = 0, 0, 0, 0] *)
Definition zeroChecksums (lh : nat) (b : list byte) : list byte :=
  firstn (lh - 4) b ++ repeat Byte.x00 4 ++ skipn lh b.

(** [io.ReadFull(d.r, d.buf[:lenHead])] and [d.SizeRead += uint32(n)]. *)
Definition readHeader (lh : nat) (d : Decompressor)
  : nat * option error * Decompressor :=
  let got := firstn lh (r d) in
  let n := length got in
  let err := if (n =? lh)%nat then None
             else if (n =? 0)%nat then Some EOF
             else Some ErrUnexpectedEOF in
  (n, err,
   set_SizeRead (uint32 (SizeRead d + uint32 (Z.of_nat n)))
     (set_buf (got ++ skipn n (buf d))
       (set_r (skipn lh (r d)) d))).

(** Lines 111-125: arm the limited reader, reset the digest, (re)start the
    engine on the tee and account for what the engine read at once. *)
Definition startEngine (lenDeflate : Z) (d : Decompressor)
  : option error * Decompressor :=
  let d1 := set_crc 0 (set_limN lenDeflate d) in
  let '(c, err, zs) := zReset E (window d1) in
  let d2 := consume c d1 in
  let z' := match z d, err with
            | None, Some _ => None
            | _, _ => Some zs
            end in
  let d3 := set_z z' d2 in
  (err,
   set_SizeRead
     (uint32 (SizeRead d3 + uint32 (lenDeflate - uint32 (limN d3)))) d3).

Definition nextBlock (d : Decompressor) : option error * Decompressor :=
  if NumBlocks d =? 0 then (Some EOF, d)
  else
    match closeBlock d with
    | Some e => (Some e, d)
    | None =>
      let d1 := set_NumBlocks (uint32 (NumBlocks d - 1)) d in
      let lh := lenHead (GameVersion d1) in
      let '(_, err, d2) := readHeader lh d1 in
      match err with
      | Some e => (Some e, d2)
      | None =>
        let '(lenDeflate, sizeBlock, crcHead, crcD) :=
          parseHeader (GameVersion d2) (firstn lh (buf d2)) in
        let d3 := set_crcData crcD (set_SizeBlock sizeBlock d2) in
        let d4 := set_buf (zeroChecksums lh (buf d3)) d3 in
        let c := CRC32.ChecksumIEEE (firstn lh (buf d4)) in
        if negb (crcHead =? fold16 c) then (Some ErrInvalidChecksum, d4)
        else startEngine lenDeflate d4
      end
    end.

(** *** Read *)

(** What a call of [Read] does: it returns [n] and [err], with the bytes
    written to [b[:n]] and the receiver as the call left it; or it
    dereferences the nil engine handle; [OutOfFuel] is the embedding's own
    outcome for a loop cut short (see [Read_total]). *)
Inductive result : Type :=
| Ret (out : list byte) (err : option error) (d : Decompressor)
| Panic
| OutOfFuel.

(** Lines 161-166: one [io.ReadFull(d.z, b[n:])] for [want] bytes, and the
    three counters. *)
Definition fill (zs : zst E) (want : nat) (d : Decompressor)
  : list byte * option error * Decompressor :=
  let rN := limN d in
  let '(out, c, err, zs') := zReadFull E zs (window d) want in
  let d1 := set_z (Some zs') (consume c d) in
  let nn := Z.of_nat (length out) in
  let d2 := set_SizeRead (uint32 (SizeRead d1 + uint32 (rN - limN d1))) d1 in
  let d3 := set_SizeTotal (uint32 (SizeTotal d2 - uint32 nn)) d2 in
  let d4 := set_SizeBlock (uint32 (SizeBlock d3 - uint32 nn)) d3 in
  (out, err, d4).

(** Lines 171-172: [io.Copy(ioutil.Discard, d.z)], its error dropped, and
    [d.SizeBlock -= uint32(nn)]. *)
Definition drain (d : Decompressor) : Decompressor :=
  match z d with
  | None => d
  | Some zs =>
    let '(cnt, c, zs') := zDiscard E zs (window d) in
    let d1 := set_z (Some zs') (consume c d) in
    set_SizeBlock (uint32 (SizeBlock d1 - uint32 cnt)) d1
  end.

(** The [for n != l] loop; [acc] is [b[:n]]. *)
Fixpoint Read_loop (fuel : nat) (l : nat) (acc : list byte)
         (d : Decompressor) : result :=
  if (length acc =? l)%nat then Ret acc None d
  else
    match fuel with
    | O => OutOfFuel
    | S fuel' =>
      match (if SizeBlock d =? 0 then nextBlock d else (None, d)) with
      | (Some e, d1) => Ret acc (Some e) d1
      | (None, d1) =>
        match z d1 with
        | None => Panic
        | Some zs =>
          let '(out, err, d2) := fill zs (l - length acc) d1 in
          let acc' := acc ++ out in
          match err with
          | None =>
            let d3 := if (SizeTotal d2 =? 0) && (0 <? SizeBlock d2)
                      then drain d2 else d2 in
            if 0 <? SizeBlock d3 then Read_loop fuel' l acc' d3
            else
              match closeBlock d3 with
              | Some e => Ret acc' (Some e) d3
              | None => Read_loop fuel' l acc' d3
              end
          | Some ErrUnexpectedEOF =>
            match closeBlock d2 with
            | Some e => Ret acc' (Some e) d2
            | None => Read_loop fuel' l acc' d2
            end
          | Some e => Ret acc' (Some e) d2
          end
        end
      end
    end.

(** Every turn of the loop but the last closes a block and opens the next,
    so the number of blocks left bounds the number of turns. *)
Definition Read_fuel (d : Decompressor) : nat :=
  S (S (Z.to_nat (NumBlocks d))).

(** [len(b)] after the clamp [if uint32(l) > d.SizeTotal { b = b[:d.SizeTotal] }]. *)
Definition clamp (d : Decompressor) (lenb : nat) : nat :=
  if SizeTotal d <? uint32 (Z.of_nat lenb) then Z.to_nat (SizeTotal d)
  else lenb.

(** [d.Read(b)] with [len(b) = lenb]. *)
Definition Read (d : Decompressor) (lenb : nat) : result :=
  if SizeTotal d =? 0 then Ret [] (Some EOF) d
  else Read_loop (Read_fuel d) (clamp d lenb) [] d.

End Decompress.

Arguments Panic {E}.
Arguments OutOfFuel {E}.

(** ** ForEach *)

Section ForEachDef.

(** [Record] values, and the state [St] the record decoder works on: the
    buffered reader [d.bufr] together with the decompressor behind it.
    [RecordDecoder.Read(d.bufr)] is a parameter: it yields a record or an
    error. *)
Variable Rec : Type.
Variable St : Type.
Variable decode : St -> (Rec + error) * St.

(** The callback is a closure; [A] is what it closes over. *)
Variable A : Type.
Variable f : A -> Rec -> option error * A.

(** What a call of [ForEach] does: it returns [err]; or the loop is cut
    short by the embedding's fuel. *)
Inductive outcome : Type :=
| Done (err : option error) (s : St) (a : A)
| Running.

(** The [for { ... }] loop. *)
Fixpoint ForEach (fuel : nat) (s : St) (a : A) : outcome :=
  match fuel with
  | O => Running
  | S fuel' =>
    match decode s with
    | (inl rec, s1) =>
      match f a rec with
      | (Some e, a1) => Done (Some e) s1 a1
      | (None, a1) => ForEach fuel' s1 a1
      end
    | (inr EOF, s1) => Done None s1 a
    | (inr e, s1) => Done (Some e) s1 a
    end
  end.

(** The decoder, started in [s], yields [recs] and then [io.EOF]. *)
Inductive decodes : St -> list Rec -> St -> Prop :=
| decodes_eof : forall s s',
    decode s = (inr EOF, s') -> decodes s [] s'
| decodes_rec : forall s rec s1 recs s',
    decode s = (inl rec, s1) -> decodes s1 recs s' ->
    decodes s (rec :: recs) s'.

(** The decoder, started in [s], yields [recs] and stands in [s']. *)
Inductive yields : St -> list Rec -> St -> Prop :=
| yields_nil : forall s, yields s [] s
| yields_cons : forall s rec s1 recs s',
    decode s = (inl rec, s1) -> yields s1 recs s' ->
    yields s (rec :: recs) s'.

(** The callback with a journal of the records it was called on. *)
Definition journal (al : A * list Rec) (rec : Rec)
  : option error * (A * list Rec) :=
  let '(e, a') := f (fst al) rec in (e, (a', snd al ++ [rec])).

(** Calling [f] on each record of [recs] in turn, all calls returning nil. *)
Fixpoint accepts (a : A) (recs : list Rec) : option A :=
  match recs with
  | [] => Some a
  | rec :: recs' =>
    match f a rec with
    | (None, a1) => accepts a1 recs'
    | (Some _, _) => None
    end
  end.

End ForEachDef.

Arguments Running {St A}.

(** ** Sessions *)

Section Sessions.

Variable E : Engine.
Variable ReadUInt16 : list byte -> Z.
Variable ReadUInt32 : list byte -> Z.

(** The fields hold values of their Go types, and [lim.N] is not
    negative, as [io.LimitedReader] keeps it. *)
Definition typed (d : Decompressor E) : Prop :=
  0 <= GameVersion d < 2 ^ 32 /\
  0 <= SizeRead d < 2 ^ 32 /\ 0 <= SizeTotal d < 2 ^ 32 /\
  0 <= SizeBlock d < 2 ^ 32 /\ 0 <= NumBlocks d < 2 ^ 32 /\
  0 <= limN d /\ 0 <= crcData d < 2 ^ 16.

(** From [d] to [d'] the engine took [k] bytes through the tee: they left
    the source, were charged to [lim.N] and went into the digest. *)
Definition took (k : nat) (d d' : Decompressor E) : Prop :=
  (k <= length (r d))%nat /\ r d' = skipn k (r d) /\
  limN d' = limN d - Z.of_nat k /\
  crc d' = CRC32.update (crc d) (firstn k (r d)).

(** A caller that calls [Read] once for every buffer length of [ls],
    whatever the calls return: the results in order, and the receiver at
    the end (none after a panic). *)
Fixpoint ReadSeq (d : Decompressor E) (ls : list nat)
  : list (list byte * option error) * option (Decompressor E) :=
  match ls with
  | [] => ([], Some d)
  | l :: ls' =>
    match Read ReadUInt16 ReadUInt32 d l with
    | Ret out e d' =>
      let '(log, fin) := ReadSeq d' ls' in ((out, e) :: log, fin)
    | _ => ([], None)
    end
  end.

(** A caller that reads until a call returns an error, with the buffer
lengths [ls] in turn: the bytes it received and the error that stopped it
([None] when [ls] ran out first); no answer after a panic. *)
Fixpoint ReadAll (d : Decompressor E) (ls : list nat)
  : option (list byte * option error) :=
  match ls with
  | [] => Some ([], None)
  | l :: ls' =>
    match Read ReadUInt16 ReadUInt32 d l with
    | Ret out None d' =>
      match ReadAll d' ls' with
      | Some (rest, e) => Some (out ++ rest, e)
      | None => None
      end
    | Ret out (Some e) _ => Some (out, Some e)
    | _ => None
    end
  end.

(** An error of the engine's own making. *)
Definition engine_error (e : error) : Prop := exists code, e = ErrOther code.

(** The errors [io.ReadFull] on the engine comes back with: [io.EOF], when
the engine stood at the clean end of its stream and gave nothing;
[io.ErrUnexpectedEOF]; and errors of the engine's own making, which are
never the decompressor's [ErrInvalidChecksum]. *)
Definition own_errors : Prop :=
  forall zs w n out c e zs',
    zReadFull E zs w n = (out, c, Some e, zs') ->
    e = EOF \/ e = ErrUnexpectedEOF \/ engine_error e.

(** The source ends inside a block: either a block is open, with bytes
still to deliver, and the source holds less than the rest of its compressed
budget; or the previous block is closed, a block is left, and the source
holds a part of its header only. *)
Definition cut_short (d : Decompressor E) : Prop :=
  (0 < SizeBlock d /\ z d <> None /\ Z.of_nat (length (r d)) < limN d) \/
  (SizeBlock d = 0 /\ closeBlock d = None /\ NumBlocks d <> 0 /\
   (0 < length (r d) < lenHead (GameVersion d))%nat).


(** *** Streams of blocks *)

(** A block is its header and its payload.  [declC] and [declD] are the
compressed and the decompressed length its header declares. *)
Definition block : Type := (list byte * list byte)%type.

Definition declC (gv : Z) (hdr : list byte) : Z :=
  fst (fst (fst (parseHeader ReadUInt16 ReadUInt32 gv hdr))).

Definition declD (gv : Z) (hdr : list byte) : Z :=
  snd (fst (fst (parseHeader ReadUInt16 ReadUInt32 gv hdr))).

(** The header has the length of the layout and declares the length of the
payload that follows it. *)
Definition wf_block (gv : Z) (b : block) : Prop :=
  length (fst b) = lenHead gv /\
  declC gv (fst b) = Z.of_nat (length (snd b)).

Definition stream_of (bs : list block) : list byte :=
  concat (map (fun b => fst b ++ snd b) bs).

(** The decompressed bytes the blocks declare in all. *)
Definition sumD (gv : Z) (bs : list block) : Z :=
  fold_right (fun b s => declD gv (fst b) + s) 0 bs.

(** For every block, its header length and its declared compressed
length. *)
Definition sumC (gv : Z) (bs : list block) : Z :=
  fold_right
    (fun b s => Z.of_nat (lenHead gv) + declC gv (fst b) + s) 0 bs.

(** For every block, its declared compressed length and [framing] bytes. *)
Definition sumC_framing (gv : Z) (framing : Z) (bs : list block) : Z :=
  fold_right (fun b s => declC gv (fst b) + framing + s) 0 bs.

(** *** Blocks whose stream does not end early *)

(** [asked zs w sb zs' w' sb']: with the engine in [zs], the window [w]
before it and [SizeBlock] at [sb], [Read] can come to ask the engine for
bytes of the same block with the engine in [zs'], the window [w'] before
it and [SizeBlock] at [sb']: every read in between filled a buffer that was
not empty and left [SizeBlock] other than 0. *)
Inductive asked
  : zst E -> list byte -> Z -> zst E -> list byte -> Z -> Prop :=
| asked_now : forall zs w sb, asked zs w sb zs w sb
| asked_later : forall zs w sb n out c zs1 zs' w' sb',
    n <> O -> zReadFull E zs w n = (out, c, None, zs1) ->
    uint32 (sb - uint32 (Z.of_nat (length out))) <> 0 ->
    asked zs1 (skipn c w) (uint32 (sb - uint32 (Z.of_nat (length out))))
          zs' w' sb' ->
    asked zs w sb zs' w' sb'.

(** From here on the engine does not answer [io.EOF] when [Read] asks it
for bytes of the block: its stream does not come to a clean end while
bytes of the block are expected. *)
Definition no_clean_end (zs : zst E) (w : list byte) (sb : Z) : Prop :=
  forall zs' w' sb' n out c zs'',
    asked zs w sb zs' w' sb' -> n <> O ->
    zReadFull E zs' w' n <> (out, c, Some EOF, zs'').

(** The same of a block with header [hdr], of whose payload the source
holds [avail], from the moment the engine is started on it. *)
Definition unending (gv : Z) (hdr avail : list byte) : Prop :=
  forall c zs,
    zReset E avail = (c, None, zs) ->
    no_clean_end zs (skipn c avail) (declD gv hdr).

(** A whole block that is well formed and whose stream does not end
early. *)
Definition whole (gv : Z) (b : block) : Prop :=
  wf_block gv b /\ unending gv (fst b) (snd b).

(** The same of the block that is open in [d]; and the receiver as [Read]
may find it at a turn of its loop: with bytes owed and a block open, the
stream of that block does not end early. *)
Definition quiet (d : Decompressor E) : Prop :=
  exists zs, z d = Some zs /\ no_clean_end zs (window d) (SizeBlock d).

Definition calm (d : Decompressor E) : Prop :=
  SizeTotal d <> 0 -> SizeBlock d <> 0 -> quiet d.

(** Every call of a session returned a nil error. *)
Definition all_nil (log : list (list byte * option error)) : Prop :=
  Forall (fun oe => snd oe = None) log.

(** The receiver in a session over [src], with the blocks [rest] not
opened yet: the source holds what is left of the open block's budget and
then [rest]; and, unless everything owed was delivered with blocks to
spare, the decompressed sizes add up and [SizeRead] counts the bytes
that left the source. *)
Definition in_session (gv : Z) (src : list byte) (d : Decompressor E)
           (rest : list block) : Prop :=
  GameVersion d = gv /\
  (exists cur, r d = cur ++ stream_of rest /\
               limN d = Z.of_nat (length cur)) /\
  ((SizeTotal d = 0 /\ rest <> []) \/
   ((SizeTotal d - SizeBlock d - sumD gv rest) mod 2 ^ 32 = 0 /\
    SizeRead d =
      uint32 (Z.of_nat (length src) - Z.of_nat (length (r d))))).


(** Starting the engine never answers with [io.EOF]: [zlib.NewReader]
and [Reset] turn the end of the input into [io.ErrUnexpectedEOF]. *)
Definition reset_not_EOF : Prop :=
  forall w c e zs, zReset E w = (c, Some e, zs) -> e <> EOF.

(** The blocks [rest] and then [tail], a block cut short, are still in the
source behind what is left of the open block's budget, and the container
counts at least one block more than [rest]. *)
Definition before_cut (gv : Z) (tail : list byte) (rest : list block)
           (d : Decompressor E) : Prop :=
  GameVersion d = gv /\
  (exists cur, r d = cur ++ stream_of rest ++ tail /\
               limN d = Z.of_nat (length cur)) /\
  Z.of_nat (length rest) < NumBlocks d.

(** The block that is cut short is open: the source holds less than the
rest of its budget. *)
Definition in_cut (d : Decompressor E) : Prop :=
  Z.of_nat (length (r d)) < limN d.


(** Where a session over a stream that ends with the cut block [tail] can
stand when a turn of the loop begins: ahead of the cut block, with whole
blocks before it; or inside it, with bytes of it to deliver. *)
Definition ahead_of_cut (gv : Z) (tail : list byte) (d : Decompressor E)
  : Prop :=
  (exists rest, Forall (whole gv) rest /\ before_cut gv tail rest d) \/
  (in_cut d /\ 0 < SizeBlock d).

(** The same within a turn, when a block has just been opened. *)
Definition amid_cut (gv : Z) (tail : list byte) (d : Decompressor E)
  : Prop :=
  (exists rest, Forall (whole gv) rest /\ before_cut gv tail rest d) \/
  in_cut d.


(** *** Sessions as seen by the caller *)

(** The bytes a session delivered, over all its calls. *)
Definition delivered (log : list (list byte * option error)) : list byte :=
  concat (map fst log).

(** From [d] to [d'], [SizeRead] advanced by the number of bytes that left
the source, modulo [2^32]. *)
Definition counted (d d' : Decompressor E) : Prop :=
  (length (r d') <= length (r d))%nat /\
  uint32 (SizeRead d') =
  uint32 (SizeRead d + (Z.of_nat (length (r d)) - Z.of_nat (length (r d')))).


(** From [d] to [d']: the version tag is the same, blocks were only counted
    off, and the source only moved forward. *)
Definition later (d d' : Decompressor E) : Prop :=
  GameVersion d' = GameVersion d /\
  0 <= NumBlocks d' <= NumBlocks d /\
  exists k : nat, r d' = skipn k (r d).

End Sessions.

(** ** The receiver after a header *)

Section Header.

Variable E : Engine.
Variable ReadUInt16 : list byte -> Z.
Variable ReadUInt32 : list byte -> Z.

(** The header bytes with the two checksum fields zeroed: what
    [crc32.ChecksumIEEE(d.buf[:lenHead])] is taken over. *)
Definition zeroed (hdr : list byte) : list byte :=
  firstn (length hdr - 4) hdr ++ repeat Byte.x00 4.

(** The receiver when [nextBlock] has read the header [hdr] from a source
    [hdr ++ rest] and stored its fields, before the checksum comparison. *)
Definition afterHeader (d : Decompressor E) (hdr rest : list byte)
  : Decompressor E :=
  let '(_, sizeBlock, _, crcD) :=
    parseHeader ReadUInt16 ReadUInt32 (GameVersion d) hdr in
  mkDecompressor E (GameVersion d)
    (uint32 (SizeRead d + uint32 (Z.of_nat (length hdr))))
    (SizeTotal d) sizeBlock (uint32 (NumBlocks d - 1)) rest (z d)
    (limN d) (crc d) crcD
    (zeroChecksums (length hdr) (hdr ++ skipn (length hdr) (buf d))).

End Header.


(** ** Blocks whose checksums hold *)

Section Integrity.

Variable E : Engine.
Variable ReadUInt16 : list byte -> Z.
Variable ReadUInt32 : list byte -> Z.

(** The two checksum fields of a header, [crcHead] and [crcData]. *)
Definition declHead (gv : Z) (hdr : list byte) : Z :=
  snd (fst (parseHeader ReadUInt16 ReadUInt32 gv hdr)).

Definition declData (gv : Z) (hdr : list byte) : Z :=
  snd (parseHeader ReadUInt16 ReadUInt32 gv hdr).

(** The header checksum is the folded CRC-32 of the header with its
    checksum fields zeroed. *)
Definition header_sealed (gv : Z) (hdr : list byte) : Prop :=
  declHead gv hdr = fold16 (CRC32.ChecksumIEEE (zeroed hdr)).

(** Both checksums of a block hold: that of its header, and that of its
    payload, the folded CRC-32 of the compressed bytes. *)
Definition sealed (gv : Z) (b : block) : Prop :=
  header_sealed gv (fst b) /\
  declData gv (fst b) = fold16 (CRC32.ChecksumIEEE (snd b)).

(** A block of [bs] was opened: the blocks [done] before it were closed
    with both checksums found right, and of the block [b], whose header
    checksum was found right, [k] bytes of payload went through the
    digest. *)
Definition in_block (gv : Z) (bs : list block) (d : Decompressor E) : Prop :=
  exists (done : list block) (b : block) (rest : list block) (k : nat),
    bs = done ++ b :: rest /\ Forall (sealed gv) done /\
    header_sealed gv (fst b) /\ crcData d = declData gv (fst b) /\
    (k <= length (snd b))%nat /\
    r d = skipn k (snd b) ++ stream_of rest /\
    limN d = Z.of_nat (length (snd b)) - Z.of_nat k /\
    crc d = CRC32.update 0 (firstn k (snd b)).

(** Where a session over the blocks [bs] stands: no block was opened yet,
    or one was. *)
Definition verifying (gv : Z) (bs : list block) (d : Decompressor E)
  : Prop :=
  GameVersion d = gv /\
  ((SizeBlock d = 0 /\ r d = stream_of bs) \/ in_block gv bs d).

End Integrity.


(** ** One turn of the loop of Read *)

Section Turn.

Variable E : Engine.
Variable ReadUInt16 : list byte -> Z.
Variable ReadUInt32 : list byte -> Z.

(** The body of [for n != l]: the call returns ([inl]) or the loop goes
    round again with more of [b] filled ([inr]). *)
Definition Read_turn (l : nat) (acc : list byte) (d : Decompressor E)
  : result E + list byte * Decompressor E :=
  match (if SizeBlock d =? 0 then nextBlock ReadUInt16 ReadUInt32 d
         else (None, d)) with
  | (Some e, d1) => inl (Ret acc (Some e) d1)
  | (None, d1) =>
    match z d1 with
    | None => inl Panic
    | Some zs =>
      let '(out, err, d2) := fill zs (l - length acc) d1 in
      let acc' := acc ++ out in
      match err with
      | None =>
        let d3 := if (SizeTotal d2 =? 0) && (0 <? SizeBlock d2)
                  then drain d2 else d2 in
        if 0 <? SizeBlock d3 then inr (acc', d3)
        else
          match closeBlock d3 with
          | Some e => inl (Ret acc' (Some e) d3)
          | None => inr (acc', d3)
          end
      | Some ErrUnexpectedEOF =>
        match closeBlock d2 with
        | Some e => inl (Ret acc' (Some e) d2)
        | None => inr (acc', d2)
        end
      | Some e => inl (Ret acc' (Some e) d2)
      end
    end
  end.

End Turn.


(** ** Instances used to run the decompressor *)

(** Little-endian decoding, the byte order of the replay format, as an
    instance of [ReadUInt16] and [ReadUInt32]. *)
Definition le (bs : list byte) : Z :=
  fold_right (fun b acc => byte_val b + 256 * acc) 0 bs.

Definition byte_of (v : Z) : byte :=
  match Byte.of_N (Z.to_N (v mod 256)) with
  | Some b => b
  | None => Byte.x00
  end.

Definition put16 (v : Z) : list byte := [byte_of v; byte_of (v / 256)].
Definition put32 (v : Z) : list byte :=
  [byte_of v; byte_of (v / 256); byte_of (v / 65536); byte_of (v / 16777216)].

(** A small engine with the shape of the streams found in replays: two
    framing bytes, the first of them [0x78], then the data as it is, with no
    end marker, so that the data ends where the limited reader stops. *)
Module Literal.

Definition header_error : error := ErrOther 1.

(** The engine is live, or stuck at the end of its input, or stuck at a
bad first byte. *)
Inductive state : Type := Live | Cut | BadHeader.

Definition stuck (st : state) : option error :=
  match st with
  | Live => None
  | Cut => Some ErrUnexpectedEOF
  | BadHeader => Some header_error
  end.

Definition reset (w : list byte) : nat * option error * state :=
  match w with
  | a :: _ :: _ =>
    if Byte.eqb a Byte.x78 then (2%nat, None, Live)
    else (2%nat, Some header_error, BadHeader)
  | _ => (length w, Some ErrUnexpectedEOF, Cut)
  end.

Definition readFull (st : state) (w : list byte) (n : nat)
  : list byte * nat * option error * state :=
  match n, stuck st with
  | O, _ => ([], O, None, st)
  | _, Some e => ([], O, Some e, st)
  | _, None =>
    let out := firstn n w in
    if (length out =? n)%nat then (out, n, None, Live)
    else (out, length out, Some ErrUnexpectedEOF, Cut)
  end.

Definition discard (st : state) (w : list byte) : Z * nat * state :=
  match stuck st with
  | Some _ => (0, O, st)
  | None => (Z.of_nat (length w), length w, Cut)
  end.

Definition engine : Engine :=
  {| zst := state;
     zReset := reset;
     zReadFull := readFull;
     zDiscard := discard |}.

(** The framing and the data of one block. *)
Definition deflate (data : list byte) : list byte :=
  [Byte.x78; Byte.x9c] ++ data.

End Literal.

(** An engine for streams that carry their own end: the framing byte [0x78],
    a byte that counts the data bytes, and the data.  Past the last data
    byte the stream is at its clean end: a read there gives nothing and
    answers [io.EOF], as [io.ReadFull] does on a [compress/zlib] reader
    that has passed the end of its stream; a read that asks for more than
    is left gives what is left with [io.ErrUnexpectedEOF]; and so does a
    read that finds the input cut short. *)
Module Counted.

(** The engine has [m] data bytes to go, or is stuck at the end of its
    input, or at a bad first byte. *)
Inductive state : Type := Live (m : nat) | Cut | BadHeader.

Definition reset (w : list byte) : nat * option error * state :=
  match w with
  | a :: b :: _ =>
    if Byte.eqb a Byte.x78 then (2%nat, None, Live (Z.to_nat (byte_val b)))
    else (2%nat, Some Literal.header_error, BadHeader)
  | _ => (length w, Some ErrUnexpectedEOF, Cut)
  end.

Definition readFull (st : state) (w : list byte) (n : nat)
  : list byte * nat * option error * state :=
  match n, st with
  | O, _ => ([], O, None, st)
  | _, Cut => ([], O, Some ErrUnexpectedEOF, st)
  | _, BadHeader => ([], O, Some Literal.header_error, st)
  | _, Live O => ([], O, Some EOF, st)
  | _, Live m =>
    let out := firstn (Nat.min n m) w in
    if (length out <? Nat.min n m)%nat
    then (out, length out, Some ErrUnexpectedEOF, Cut)
    else if (n <=? m)%nat then (out, n, None, Live (m - n))
    else (out, m, Some ErrUnexpectedEOF, Live O)
  end.

Definition discard (st : state) (w : list byte) : Z * nat * state :=
  match st with
  | Live m =>
    let out := firstn m w in
    (Z.of_nat (length out), length out,
     if (length out <? m)%nat then Cut else Live O)
  | _ => (0, O, st)
  end.

Definition engine : Engine :=
  {| zst := state;
     zReset := reset;
     zReadFull := readFull;
     zDiscard := discard |}.

(** The framing and the data of one block. *)
Definition deflate (data : list byte) : list byte :=
  [Byte.x78; byte_of (Z.of_nat (length data))] ++ data.

End Counted.

(** A block as it stands in a replay: header, then payload.  [declared] is
    the decompressed size the header announces. *)
Definition mkHeader (gameVersion : Z) (payload : list byte) (declared : Z)
  : list byte :=
  let lens :=
    if wide gameVersion
    then put32 (Z.of_nat (length payload)) ++ put32 declared
    else put16 (Z.of_nat (length payload)) ++ put16 declared in
  let crcHead :=
    fold16 (CRC32.ChecksumIEEE (lens ++ repeat Byte.x00 4)) in
  let crcData := fold16 (CRC32.ChecksumIEEE payload) in
  lens ++ put16 crcHead ++ put16 crcData.

Definition mkBlock (gameVersion : Z) (payload : list byte) (declared : Z)
  : list byte :=
  mkHeader gameVersion payload declared ++ payload.

(** The decompressor over the literal engine and little-endian fields. *)
Definition LDecompressor : Type := Decompressor Literal.engine.
Definition LRead : LDecompressor -> nat -> result Literal.engine :=
  Read le le.
Definition LnextBlock : LDecompressor -> option error * LDecompressor :=
  nextBlock le le.

Definition bytes (l : list Z) : list byte := map byte_of l.

(** An engine in the middle of a run of zero bytes that never ends, as a
deflate stream can encode one: after the two framing bytes every read
fills the whole buffer and takes at most one more byte of input. *)
Module Zeros.

Definition reset (w : list byte) : nat * option error * unit :=
  match w with
  | _ :: _ :: _ => (2%nat, None, tt)
  | _ => (length w, Some ErrUnexpectedEOF, tt)
  end.

Definition readFull (st : unit) (w : list byte) (n : nat)
  : list byte * nat * option error * unit :=
  (repeat Byte.x00 n, Nat.min 1 (length w), None, st).

Definition discard (st : unit) (w : list byte) : Z * nat * unit :=
  (0, O, st).

Definition engine : Engine :=
  {| zst := unit;
     zReset := reset;
     zReadFull := readFull;
     zDiscard := discard |}.

(** One block of 16 compressed bytes that declares 8192 bytes, in a
container that announces 2 bytes. *)
Definition stream : list byte :=
  mkBlock 0 (Literal.deflate (repeat Byte.x00 14)) 8192.

Definition start : Decompressor engine :=
  NewDecompressor engine stream 0 1 2.

(** The receiver after a first call with a buffer of one byte. *)
Definition opened : Decompressor engine :=
  match Read le le start 1 with
  | Ret _ _ d => d
  | _ => start
  end.

End Zeros.


(** A replay body of two blocks that hold 6 and 8 bytes, in a container
    that announces 10 bytes in all. *)
Module Replay.

Definition data1 : list byte := bytes [1; 2; 3; 4; 5; 6].
Definition data2 : list byte := bytes [7; 8; 9; 10; 11; 12; 13; 14].

Definition block1 : list byte := mkBlock 0 (Literal.deflate data1) 6.
Definition block2 : list byte := mkBlock 0 (Literal.deflate data2) 8.

Definition stream : list byte := block1 ++ block2.

Definition start : LDecompressor :=
  NewDecompressor Literal.engine stream 0 2 10.

(** The same two blocks with the old 8-byte headers. *)
Definition old_stream : list byte :=
  mkBlock 10031 (Literal.deflate data1) 6
  ++ mkBlock 10031 (Literal.deflate data2) 8.

Definition old_start : LDecompressor :=
  NewDecompressor Literal.engine old_stream 10031 2 10.

(** The receiver of a container that announces 5 bytes and no block. *)
Definition no_blocks : LDecompressor :=
  NewDecompressor Literal.engine [] 0 0 5.

(** [stream] with one bit of the first header flipped. *)
Definition bad_header : list byte :=
  match stream with
  | b :: rest => byte_of (Z.lxor (byte_val b) 1) :: rest
  | [] => []
  end.

(** The two blocks, header and payload apart. *)
Definition blocks : list block :=
  [(mkHeader 0 (Literal.deflate data1) 6, Literal.deflate data1);
   (mkHeader 0 (Literal.deflate data2) 8, Literal.deflate data2)].

(** The same stream in a container that announces all 14 bytes. *)
Definition full_start : LDecompressor :=
  NewDecompressor Literal.engine (stream_of blocks) 0 2 14.


(** [stream] cut after 40 of its 42 bytes, inside the payload of the
second block. *)
Definition cut40 : LDecompressor :=
  NewDecompressor Literal.engine (firstn 40 stream) 0 2 10.


(** Records for [ForEach]: a decoder over a list of numbers that ends with
    [io.EOF], and a callback that adds them up and refuses 0. *)
Definition decode (s : list nat) : (nat + error) * list nat :=
  match s with
  | [] => (inr EOF, [])
  | x :: s' => (inl x, s')
  end.

Definition refused : error := ErrOther 7.

Definition add (a : nat) (x : nat) : option error * nat :=
  match x with
  | O => (Some refused, a)
  | _ => (None, (a + x)%nat)
  end.

(** [stream] cut after 25 bytes, five bytes into the header of the second
block, and its receiver after a first call with a buffer of 6 bytes. *)
Definition cut25 : LDecompressor :=
  match LRead (NewDecompressor Literal.engine (firstn 25 stream) 0 2 10) 6
  with
  | Ret _ _ d => d
  | _ => start
  end.

(** The receiver of [bad_header] after a first call. *)
Definition failed_start : LDecompressor :=
  match LRead (NewDecompressor Literal.engine bad_header 0 2 10) 10 with
  | Ret _ _ d => d
  | _ => start
  end.

(** [stream] with one bit flipped in the last payload byte of the first
block, and its receiver after a first call with a buffer of 6 bytes. *)
Definition bad_payload : list byte :=
  firstn 19 stream
  ++ match skipn 19 stream with
     | b :: rest => byte_of (Z.lxor (byte_val b) 1) :: rest
     | [] => []
     end.

Definition after_bad_payload : LDecompressor :=
  match LRead (NewDecompressor Literal.engine bad_payload 0 2 10) 6 with
  | Ret _ _ d => d
  | _ => start
  end.

(** The two blocks of the replay for the engine [Counted], header and
payload apart, and the stream of the first block followed by the first 20
bytes of the second, two bytes short of its end. *)
Definition counted_blocks : list block :=
  [(mkHeader 0 (Counted.deflate data1) 6, Counted.deflate data1);
   (mkHeader 0 (Counted.deflate data2) 8, Counted.deflate data2)].

Definition counted_cut (n : nat) : list byte :=
  mkBlock 0 (Counted.deflate data1) 6
  ++ firstn n (mkBlock 0 (Counted.deflate data2) 8).

(** The receiver over the first 17 bytes of the first of these blocks,
after a first call with a buffer of 3 bytes. *)
Definition counted_cut17 : Decompressor Counted.engine :=
  match Read le le
          (NewDecompressor Counted.engine
             (firstn 17 (mkBlock 0 (Counted.deflate data1) 6)) 0 2 10) 3
  with
  | Ret _ _ d => d
  | _ => NewDecompressor Counted.engine [] 0 0 0
  end.

(** A first block whose stream holds 6 bytes and ends, under a header that
declares 8, followed by the first 20 bytes of the second block, in a
container that announces 14 bytes. *)
Definition early_end : Decompressor Counted.engine :=
  NewDecompressor Counted.engine
    (mkBlock 0 (Counted.deflate data1) 8
     ++ firstn 20 (mkBlock 0 (Counted.deflate data2) 8)) 0 2 14.

(** A decoder of records of two numbers each, of which it yields the
second: a lone number at the end is a record cut short. *)
Definition decode_pairs (s : list nat) : (nat + error) * list nat :=
  match s with
  | [] => (inr EOF, [])
  | [_] => (inr ErrUnexpectedEOF, [])
  | _ :: x :: s' => (inl x, s')
  end.

(** A replay whose first block holds 6 bytes and declares 4, and its
receiver after a first call with a buffer of one byte. *)
Definition understated : LDecompressor :=
  match LRead (NewDecompressor Literal.engine
                 (mkBlock 0 (Literal.deflate data1) 4 ++ block2) 0 2 10) 1
  with
  | Ret _ _ d => d
  | _ => start
  end.

End Replay.


End W3G.

Import W3G.

(** * Properties *)

Unset Implicit Arguments.

(** ** Checksums *)

(** The check value of CRC-32/IEEE: the checksum of the ASCII digits
"123456789". *)
Example crc32_check_value :
  CRC32.ChecksumIEEE (bytes [49; 50; 51; 52; 53; 54; 55; 56; 57])
  = 0xcbf43926.
Proof. vm_compute. reflexivity. Qed.


Lemma fold16_halves (c : Z) : fold16 c = Z.lxor (low16 c) (high16 c).
Proof.
  unfold fold16, uint16, low16, high16.
  rewrite <- Z.land_ones by lia.
  apply Z.bits_inj'. intros n Hn.
  rewrite Z.lxor_spec, !Z.land_spec, Z.lxor_spec.
  destruct (Z.testbit (Z.ones 16) n); now rewrite ?andb_true_r, ?andb_false_r.
Qed.

Lemma update_nil (c : Z) : CRC32.update c [] = c.
Proof.
  unfold CRC32.update. simpl fold_left.
  now rewrite Z.lxor_assoc, Z.lxor_nilpotent, Z.lxor_0_r.
Qed.

Lemma update_app (c : Z) (p q : list byte) :
  CRC32.update (CRC32.update c p) q = CRC32.update c (p ++ q).
Proof.
  unfold CRC32.update. rewrite fold_left_app.
  now rewrite (Z.lxor_assoc _ 0xffffffff), Z.lxor_nilpotent, Z.lxor_0_r.
Qed.

Lemma firstn_add (A : Type) (a b : nat) (l : list A) :
  firstn (a + b) l = firstn a l ++ firstn b (skipn a l).
Proof.
  revert l. induction a as [|a IH]; intros l; [reflexivity|].
  destruct l as [|x l]; simpl.
  - now rewrite firstn_nil.
  - now rewrite IH.
Qed.

Lemma uint32_range (x : Z) : 0 <= uint32 x < 2 ^ 32.
Proof. unfold uint32. apply Z.mod_pos_bound. lia. Qed.

Lemma uint16_range (x : Z) : 0 <= uint16 x < 2 ^ 16.
Proof. unfold uint16. apply Z.mod_pos_bound. lia. Qed.

Lemma uint32_add_l (a b : Z) : uint32 (uint32 a + b) = uint32 (a + b).
Proof. unfold uint32. apply Zplus_mod_idemp_l. Qed.

Lemma uint32_add_r (a b : Z) : uint32 (a + uint32 b) = uint32 (a + b).
Proof. unfold uint32. apply Zplus_mod_idemp_r. Qed.

Lemma uint32_sub_l (a b : Z) : uint32 (uint32 a - b) = uint32 (a - b).
Proof. unfold uint32. apply Zminus_mod_idemp_l. Qed.

Lemma uint32_sub_r (a b : Z) : uint32 (a - uint32 b) = uint32 (a - b).
Proof. unfold uint32. apply Zminus_mod_idemp_r. Qed.

(** A value of type [uint32] that is 0 modulo [2^32] is 0. *)
Lemma mod32_zero (x : Z) : 0 <= x < 2 ^ 32 -> (- x) mod 2 ^ 32 = 0 -> x = 0.
Proof.
  intros Hx H. apply Z.mod_divide in H; [|lia].
  destruct H as [q Hq]. nia.
Qed.

Lemma uint32_small (x : Z) : 0 <= x < 2 ^ 32 -> uint32 x = x.
Proof. intros H. unfold uint32. now apply Z.mod_small. Qed.

(** Reading a field of an updated receiver. *)
Ltac fields :=
  cbn [GameVersion SizeRead SizeTotal SizeBlock NumBlocks r z limN crc
       crcData buf set_SizeRead set_SizeTotal set_SizeBlock set_NumBlocks
       set_r set_z set_limN set_crc set_crcData set_buf fst snd] in *.

(** Splitting conjunctions and nothing else. *)
Ltac splits := repeat match goal with |- _ /\ _ => split end.

(** Range goals of [typed]. *)
Ltac ranges :=
  unfold typed; fields;
  repeat match goal with |- _ /\ _ => split end;
  try lia; try apply uint32_range; try apply uint16_range.

Section Properties.

Variable E : Engine.
Variable ReadUInt16 : list byte -> Z.
Variable ReadUInt32 : list byte -> Z.

Local Abbreviation Dec := (Decompressor E).
Local Abbreviation nextBlock := (@nextBlock E ReadUInt16 ReadUInt32).
Local Abbreviation Read_loop := (@Read_loop E ReadUInt16 ReadUInt32).
Local Abbreviation Read := (@Read E ReadUInt16 ReadUInt32).
Local Abbreviation ReadSeq := (@ReadSeq E ReadUInt16 ReadUInt32).

(** ** closeBlock *)

Lemma closeBlock_cases (d : Dec) :
  closeBlock d =
  if (0 <? SizeBlock d) || (0 <? limN d) then Some ErrUnexpectedEOF
  else if crcData d =? fold16 (crc d) then None
       else Some ErrInvalidChecksum.
Proof.
  unfold closeBlock.
  destruct ((0 <? SizeBlock d) || (0 <? limN d)); [reflexivity|].
  now destruct (crcData d =? fold16 (crc d)).
Qed.

Lemma closeBlock_None (d : Dec) :
  closeBlock d = None ->
  SizeBlock d <= 0 /\ limN d <= 0 /\ crcData d = fold16 (crc d).
Proof.
  rewrite closeBlock_cases.
  destruct (0 <? SizeBlock d) eqn:Hb; [discriminate|].
  destruct (0 <? limN d) eqn:Hl; [discriminate|]. simpl.
  destruct (crcData d =? fold16 (crc d)) eqn:Hc; [|discriminate].
  intros _. apply Z.ltb_ge in Hb, Hl. apply Z.eqb_eq in Hc. auto.
Qed.

(** C6.  On a receiver whose fields hold values of their types,
    [closeBlock] returns [io.ErrUnexpectedEOF] if and only if [SizeBlock]
    or the budget [lim.N] is not zero; when both are zero it folds the
    digest to [low16 xor high16] and returns [ErrInvalidChecksum] exactly
    when the folded value differs from [crcData], and nil otherwise. *)
Theorem closeBlock_spec (d : Dec) :
  typed d ->
  (closeBlock d = Some ErrUnexpectedEOF <->
   SizeBlock d <> 0 \/ limN d <> 0) /\
  (SizeBlock d = 0 -> limN d = 0 ->
   (closeBlock d = Some ErrInvalidChecksum <->
    Z.lxor (low16 (crc d)) (high16 (crc d)) <> crcData d) /\
   (closeBlock d = None <->
    Z.lxor (low16 (crc d)) (high16 (crc d)) = crcData d)).
Proof.
  intros (_ & _ & _ & Hb & _ & Hl & _).
  rewrite closeBlock_cases, <- fold16_halves.
  split.
  - destruct (0 <? SizeBlock d) eqn:Eb; simpl.
    + apply Z.ltb_lt in Eb. split; [intros _; left; lia | reflexivity].
    + apply Z.ltb_ge in Eb.
      destruct (0 <? limN d) eqn:El.
      * apply Z.ltb_lt in El. split; [intros _; right; lia | reflexivity].
      * apply Z.ltb_ge in El.
        split.
        -- destruct (crcData d =? fold16 (crc d)); discriminate.
        -- intros [H | H]; lia.
  - intros Eb El. rewrite Eb, El. simpl.
    destruct (crcData d =? fold16 (crc d)) eqn:Ec.
    + apply Z.eqb_eq in Ec. split; split; try congruence; auto.
    + apply Z.eqb_neq in Ec. split; split; try congruence; auto.
Qed.

(** ** Read at the end of the stream *)

Lemma Read_at_end (d : Dec) (lenb : nat) :
  SizeTotal d = 0 -> Read d lenb = Ret [] (Some EOF) d.
Proof. intros H. unfold W3G.Read. now rewrite H. Qed.

(** C9.  A call of [Read] with [SizeTotal == 0] returns [0, io.EOF] and
    leaves the receiver as it was; so does every later call, whatever
    buffers the caller brings. *)
Theorem Read_terminal (d : Dec) (lenb : nat) (ls : list nat) :
  SizeTotal d = 0 ->
  Read d lenb = Ret [] (Some EOF) d /\
  ReadSeq d ls = (map (fun _ => ([], Some EOF)) ls, Some d).
Proof.
  intros H. split; [now apply Read_at_end|].
  induction ls as [|l ls IH]; simpl; [reflexivity|].
  rewrite Read_at_end by exact H. now rewrite IH.
Qed.

(** ** nextBlock with no block left *)

Lemma nextBlock_no_blocks (d : Dec) :
  NumBlocks d = 0 -> nextBlock d = (Some EOF, d).
Proof. intros H. unfold W3G.nextBlock. now rewrite H. Qed.

Lemma clamp_pos (d : Dec) (lenb : nat) :
  0 < SizeTotal d -> lenb <> O -> clamp d lenb <> O.
Proof.
  intros Ht Hl. unfold clamp.
  destruct (SizeTotal d <? uint32 (Z.of_nat lenb)); [lia | exact Hl].
Qed.

(** C1, as the code has it.  With bytes still owed, no block open and no
    block left, [nextBlock] returns [io.EOF], the value [Read] also uses
    for the end of the stream, and [Read] passes it on with no byte
    delivered and the receiver as it was. *)
Theorem Read_no_blocks (d : Dec) (lenb : nat) :
  0 < SizeTotal d -> SizeBlock d = 0 -> NumBlocks d = 0 -> lenb <> O ->
  nextBlock d = (Some EOF, d) /\ Read d lenb = Ret [] (Some EOF) d.
Proof.
  intros Ht Hb Hn Hl. split; [now apply nextBlock_no_blocks|].
  unfold W3G.Read.
  destruct (SizeTotal d =? 0) eqn:E0; [apply Z.eqb_eq in E0; lia|].
  pose proof (clamp_pos d lenb Ht Hl) as Hc.
  unfold Read_fuel. simpl.
  destruct (clamp d lenb) as [|k]; [congruence|]. simpl.
  rewrite Hb. simpl. now rewrite nextBlock_no_blocks.
Qed.

(** ** nextBlock on a complete header *)

Local Abbreviation parseHeader := (@parseHeader ReadUInt16 ReadUInt32).
Local Abbreviation afterHeader := (@afterHeader E ReadUInt16 ReadUInt32).

Lemma lenHead_cases (gv : Z) :
  (0 < gv < 10032 /\ lenHead gv = 8%nat /\ wide gv = false) \/
  ((gv <= 0 \/ 10032 <= gv) /\ lenHead gv = 12%nat /\
   (0 <= gv -> wide gv = true)).
Proof.
  unfold lenHead, wide.
  destruct (Z.ltb_spec 0 gv); destruct (Z.ltb_spec gv 10032);
    destruct (Z.eqb_spec gv 0); destruct (Z.leb_spec 10032 gv);
    simpl; try lia;
    solve [ left; repeat split; (lia || reflexivity)
          | right; repeat split; (lia || reflexivity) ].
Qed.

Lemma lenHead_ge4 (gv : Z) : (4 <= lenHead gv)%nat.
Proof.
  destruct (lenHead_cases gv) as [(_ & H & _) | (_ & H & _)]; rewrite H; lia.
Qed.

Lemma firstn_zeroChecksums (hdr tl : list byte) :
  (4 <= length hdr)%nat ->
  firstn (length hdr) (zeroChecksums (length hdr) (hdr ++ tl)) = zeroed hdr.
Proof.
  intros H. unfold zeroChecksums, zeroed.
  assert (Ha : firstn (length hdr - 4) (hdr ++ tl)
               = firstn (length hdr - 4) hdr).
  { rewrite firstn_app.
    replace (length hdr - 4 - length hdr)%nat with O by lia.
    simpl. apply app_nil_r. }
  rewrite Ha, app_assoc.
  assert (Hl : length (firstn (length hdr - 4) hdr ++ repeat Byte.x00 4)
               = length hdr).
  { rewrite length_app, length_firstn, repeat_length. lia. }
  rewrite <- Hl at 1.
  rewrite firstn_app, firstn_all, Nat.sub_diag. simpl.
  apply app_nil_r.
Qed.

Lemma nextBlock_header (d : Dec) (hdr rest : list byte) :
  NumBlocks d <> 0 -> closeBlock d = None ->
  r d = hdr ++ rest -> length hdr = lenHead (GameVersion d) ->
  nextBlock d =
  let '(lenDeflate, _, crcHead, _) := parseHeader (GameVersion d) hdr in
  if crcHead =? fold16 (CRC32.ChecksumIEEE (zeroed hdr))
  then startEngine lenDeflate (afterHeader d hdr rest)
  else (Some ErrInvalidChecksum, afterHeader d hdr rest).
Proof.
  intros Hn Hc Hr Hl.
  pose proof (lenHead_ge4 (GameVersion d)) as H4.
  unfold W3G.nextBlock, W3G.afterHeader.
  destruct (NumBlocks d =? 0) eqn:En; [apply Z.eqb_eq in En; lia|].
  rewrite Hc. unfold readHeader. cbn [GameVersion set_NumBlocks r buf].
  rewrite Hr, <- Hl.
  rewrite firstn_app, firstn_all, Nat.sub_diag. cbn [firstn].
  rewrite app_nil_r, Nat.eqb_refl.
  rewrite skipn_app, skipn_all, Nat.sub_diag. cbn [skipn app].
  cbn [GameVersion set_SizeRead set_buf set_r buf].
  rewrite firstn_app, firstn_all, Nat.sub_diag. cbn [firstn].
  rewrite app_nil_r.
  change (GameVersion (set_NumBlocks (uint32 (NumBlocks d - 1)) d))
    with (GameVersion d).
  destruct (parseHeader (GameVersion d) hdr)
    as [[[lenDeflate sizeBlock] crcHead] crcD].
  cbn [buf set_buf set_crcData set_SizeBlock set_SizeRead set_r].
  rewrite firstn_zeroChecksums by lia.
  destruct (crcHead =? fold16 (CRC32.ChecksumIEEE (zeroed hdr)));
    reflexivity.
Qed.


(** ** The compressed byte path *)

Lemma window_length (d : Dec) :
  length (window d) = Nat.min (Z.to_nat (limN d)) (length (r d)).
Proof. unfold window. apply length_firstn. Qed.

(** What [consume] changes, with [k] the bytes actually taken. *)
Lemma consume_effect (c : nat) (d : Dec) :
  exists k : nat,
    (k <= c)%nat /\ (k <= length (r d))%nat /\
    (0 <= limN d -> Z.of_nat k <= limN d) /\
    consume c d =
    set_crc (CRC32.update (crc d) (firstn k (r d)))
      (set_limN (limN d - Z.of_nat k) (set_r (skipn k (r d)) d)).
Proof.
  exists (Nat.min c (length (window d))).
  rewrite window_length. repeat split; try lia.
  unfold consume. now rewrite window_length.
Qed.

Lemma startEngine_effect (lenDeflate : Z) (d : Dec) :
  0 <= lenDeflate ->
  let d' := snd (startEngine lenDeflate d) in
  exists k : nat,
    Z.of_nat k <= lenDeflate /\ (k <= length (r d))%nat /\
    limN d' = lenDeflate - Z.of_nat k /\ r d' = skipn k (r d) /\
    crc d' = CRC32.update 0 (firstn k (r d)) /\
    SizeRead d' =
      uint32 (SizeRead d + uint32 (lenDeflate - uint32 (limN d'))) /\
    GameVersion d' = GameVersion d /\ SizeTotal d' = SizeTotal d /\
    SizeBlock d' = SizeBlock d /\ NumBlocks d' = NumBlocks d /\
    crcData d' = crcData d.
Proof.
  intros Hl. unfold startEngine.
  destruct (zReset E (window (set_crc 0 (set_limN lenDeflate d))))
    as [[c err] zs].
  destruct (consume_effect c (set_crc 0 (set_limN lenDeflate d)))
    as (k & _ & Hk & Hlim & ->).
  exists k. simpl in *. repeat split; try reflexivity; auto.
Qed.


(** ** The header checksum *)

Lemma afterHeader_fields (d : Dec) (hdr rest : list byte)
      (lenDeflate sizeBlock crcHead crcD : Z) :
  parseHeader (GameVersion d) hdr = (lenDeflate, sizeBlock, crcHead, crcD) ->
  let dH := afterHeader d hdr rest in
  r dH = rest /\ z dH = z d /\ SizeBlock dH = sizeBlock /\
  crcData dH = crcD /\ SizeTotal dH = SizeTotal d /\
  NumBlocks dH = uint32 (NumBlocks d - 1) /\
  GameVersion dH = GameVersion d /\
  SizeRead dH = uint32 (SizeRead d + uint32 (Z.of_nat (length hdr))).
Proof.
  intros Hp. unfold W3G.afterHeader. rewrite Hp. simpl.
  repeat split.
Qed.

(** C4.  For a header [hdr] read by [nextBlock], the checksum is the IEEE
    crc32 of the header bytes with the last four (the two 16-bit checksum
    fields) set to zero, folded to [low16 xor high16].  When the declared
    header checksum differs from it, [nextBlock] returns
    [ErrInvalidChecksum] with the engine not started and no byte of the
    payload taken, and [Read] returns that error with only the bytes it
    had delivered before this block; when it agrees, [nextBlock] goes on
    to start the engine. *)
Theorem header_checksum (d : Dec) (hdr rest : list byte)
        (lenDeflate sizeBlock crcHead crcD : Z) :
  NumBlocks d <> 0 -> closeBlock d = None ->
  r d = hdr ++ rest -> length hdr = lenHead (GameVersion d) ->
  parseHeader (GameVersion d) hdr = (lenDeflate, sizeBlock, crcHead, crcD) ->
  let c := CRC32.ChecksumIEEE
             (firstn (length hdr - 4) hdr ++ repeat Byte.x00 4) in
  let dH := afterHeader d hdr rest in
  (crcHead <> Z.lxor (low16 c) (high16 c) ->
   nextBlock d = (Some ErrInvalidChecksum, dH) /\
   r dH = rest /\ z dH = z d /\
   forall (fuel l : nat) (acc : list byte),
     SizeBlock d = 0 -> length acc <> l ->
     Read_loop (S fuel) l acc d = Ret acc (Some ErrInvalidChecksum) dH) /\
  (crcHead = Z.lxor (low16 c) (high16 c) ->
   nextBlock d = startEngine lenDeflate dH).
Proof.
  intros Hn Hc Hr Hl Hp c dH.
  pose proof (nextBlock_header d hdr rest Hn Hc Hr Hl) as Hnb.
  rewrite Hp in Hnb. fold (zeroed hdr) in c.
  rewrite <- fold16_halves.
  destruct (afterHeader_fields d hdr rest _ _ _ _ Hp) as (Hr' & Hz' & _).
  split.
  - intros Hne. apply Z.eqb_neq in Hne.
    fold c in Hnb. rewrite Hne in Hnb.
    repeat split; auto.
    intros fuel l acc Hb Hacc. simpl.
    apply Nat.eqb_neq in Hacc. rewrite Hacc, Hb. simpl.
    now rewrite Hnb.
  - intros Heq. apply Z.eqb_eq in Heq.
    fold c in Hnb. now rewrite Heq in Hnb.
Qed.

(** ** The header layout *)

(** C5.  From a source that holds a whole header, [nextBlock] reads 8
    bytes for a game version that is not zero and below 10032, with
    16-bit compressed and decompressed lengths, and 12 bytes for version
    zero or from 10032 on, with 32-bit lengths; either way the last four
    bytes are the 16-bit header checksum and the 16-bit payload checksum.
    The decompressed length becomes [SizeBlock], the payload checksum
    [crcData], and the compressed length the budget of the limited reader,
    from which the engine takes its first [k] bytes. *)
Theorem header_layout (d : Dec) (hdr rest : list byte) :
  typed d -> NumBlocks d <> 0 -> closeBlock d = None ->
  r d = hdr ++ rest -> length hdr = lenHead (GameVersion d) ->
  let gv := GameVersion d in
  let sub := fun (off len : nat) => firstn len (skipn off hdr) in
  (0 < gv < 10032 ->
   length hdr = 8%nat /\
   parseHeader gv hdr =
   (uint32 (uint16 (ReadUInt16 (sub 0 2))),
    uint32 (uint16 (ReadUInt16 (sub 2 2))),
    uint16 (ReadUInt16 (sub 4 2)), uint16 (ReadUInt16 (sub 6 2)))%nat) /\
  (gv = 0 \/ 10032 <= gv ->
   length hdr = 12%nat /\
   parseHeader gv hdr =
   (uint32 (ReadUInt32 (sub 0 4)), uint32 (ReadUInt32 (sub 4 4)),
    uint16 (ReadUInt16 (sub 8 2)), uint16 (ReadUInt16 (sub 10 2)))%nat) /\
  (forall lenDeflate sizeBlock crcHead crcD,
     parseHeader gv hdr = (lenDeflate, sizeBlock, crcHead, crcD) ->
     let d' := snd (nextBlock d) in
     SizeBlock d' = sizeBlock /\ crcData d' = crcD /\
     (crcHead <> fold16 (CRC32.ChecksumIEEE (zeroed hdr)) ->
      fst (nextBlock d) = Some ErrInvalidChecksum /\ r d' = rest) /\
     (crcHead = fold16 (CRC32.ChecksumIEEE (zeroed hdr)) ->
      exists k : nat,
        Z.of_nat k <= lenDeflate /\
        limN d' = lenDeflate - Z.of_nat k /\ r d' = skipn k rest)).
Proof.
  intros Ht Hn Hc Hr Hl gv sub.
  destruct Ht as (Hgv & _).
  pose proof (nextBlock_header d hdr rest Hn Hc Hr Hl) as Hnb.
  fold gv in Hnb, Hl.
  destruct (lenHead_cases gv) as [(Hlt & Hlh & Hw) | (Hge & Hlh & Hw)].
  - split; [|split].
    + intros _. split; [congruence|].
      unfold W3G.parseHeader. rewrite Hw. reflexivity.
    + intros [H0 | H1]; lia.
    + intros lenDeflate sizeBlock crcHead crcD Hp d'.
      subst d'. rewrite Hnb, Hp.
      destruct (afterHeader_fields d hdr rest _ _ _ _ Hp)
        as (Hr' & _ & Hsb & Hcd & _).
      assert (Hld : 0 <= lenDeflate).
      { unfold W3G.parseHeader in Hp. rewrite Hw in Hp.
        inversion Hp. apply uint32_range. }
      destruct (startEngine_effect _ (afterHeader d hdr rest) Hld)
        as (k & Hk & _ & Hlim & Hrk & _ & _ & _ & _ & Hsb' & _ & Hcd').
      destruct (crcHead =? fold16 (CRC32.ChecksumIEEE (zeroed hdr))) eqn:Ec.
      * apply Z.eqb_eq in Ec. repeat split; try congruence.
        intros _. exists k. repeat split; congruence.
      * apply Z.eqb_neq in Ec. simpl. repeat split; try congruence.
  - specialize (Hw (proj1 Hgv)).
    split; [|split].
    + intros H. fold gv in Hgv. lia.
    + intros _. split; [congruence|].
      unfold W3G.parseHeader. rewrite Hw. reflexivity.
    + intros lenDeflate sizeBlock crcHead crcD Hp d'.
      subst d'. rewrite Hnb, Hp.
      destruct (afterHeader_fields d hdr rest _ _ _ _ Hp)
        as (Hr' & _ & Hsb & Hcd & _).
      assert (Hld : 0 <= lenDeflate).
      { unfold W3G.parseHeader in Hp. rewrite Hw in Hp.
        inversion Hp. apply uint32_range. }
      destruct (startEngine_effect _ (afterHeader d hdr rest) Hld)
        as (k & Hk & _ & Hlim & Hrk & _ & _ & _ & _ & Hsb' & _ & Hcd').
      destruct (crcHead =? fold16 (CRC32.ChecksumIEEE (zeroed hdr))) eqn:Ec.
      * apply Z.eqb_eq in Ec. repeat split; try congruence.
        intros _. exists k. repeat split; congruence.
      * apply Z.eqb_neq in Ec. simpl. repeat split; try congruence.
Qed.


(** ** What nextBlock keeps *)

Lemma parseHeader_range (gv : Z) (hdr : list byte) (a b c e : Z) :
  parseHeader gv hdr = (a, b, c, e) ->
  0 <= a < 2 ^ 32 /\ 0 <= b < 2 ^ 32 /\ 0 <= c < 2 ^ 16 /\ 0 <= e < 2 ^ 16.
Proof.
  unfold W3G.parseHeader.
  destruct (wide gv); intros H; inversion H; subst;
    repeat split; try apply uint32_range; try apply uint16_range.
Qed.

Lemma startEngine_typed (lenDeflate : Z) (d : Dec) :
  0 <= lenDeflate -> typed d -> typed (snd (startEngine lenDeflate d)).
Proof.
  intros Hl (Hgv & Hsr & Hst & Hsb & Hnb & Hlim & Hcd).
  destruct (startEngine_effect lenDeflate d Hl)
    as (k & Hk & _ & H1 & _ & _ & H2 & H3 & H4 & H5 & H6 & H7).
  unfold typed.
  rewrite H1, H2, H3, H4, H5, H6, H7.
  repeat split; try lia; apply uint32_range.
Qed.

(** Either [nextBlock] fails at once and leaves the receiver alone, or it
    counts one block off; it never touches [SizeTotal] or [GameVersion],
    and it keeps every field within its type. *)
Lemma nextBlock_inv (d : Dec) :
  let '(e, d1) := nextBlock d in
  (typed d -> typed d1) /\
  SizeTotal d1 = SizeTotal d /\ GameVersion d1 = GameVersion d /\
  ((d1 = d /\ e <> None) \/
   (NumBlocks d <> 0 /\ closeBlock d = None /\
    NumBlocks d1 = uint32 (NumBlocks d - 1))).
Proof.
  unfold W3G.nextBlock.
  destruct (NumBlocks d =? 0) eqn:En.
  { split; [auto|split; [auto|split; [auto|]]].
    left. split; [reflexivity | discriminate]. }
  apply Z.eqb_neq in En.
  destruct (closeBlock d) as [e|] eqn:Ec.
  { split; [auto|split; [auto|split; [auto|]]].
    left. split; [reflexivity | discriminate]. }
  unfold readHeader.
  set (lh := lenHead (GameVersion (set_NumBlocks (uint32 (NumBlocks d - 1)) d))).
  set (got := firstn lh (r (set_NumBlocks (uint32 (NumBlocks d - 1)) d))).
  destruct (length got =? lh)%nat.
  2:{ destruct (length got =? 0)%nat;
        (split; [|split; [auto|split; [auto|right; auto]]]);
        intros (Hgv & Hsr & Hst & Hsb & Hnb & Hlim & Hcd); ranges. }
  match goal with
  | |- context [W3G.parseHeader _ _ ?g ?h] =>
    destruct (W3G.parseHeader ReadUInt16 ReadUInt32 g h)
      as [[[lenDeflate sizeBlock] crcHead] crcD] eqn:Hp
  end.
  destruct (parseHeader_range _ _ _ _ _ _ Hp) as (Ha & Hb & _ & He).
  match goal with
  | |- context [if negb ?b then _ else _] => destruct b
  end; simpl negb; cbv iota.
  - match goal with
    | |- context [startEngine ?l ?x] =>
      pose proof (startEngine_typed l x (proj1 Ha)) as Hty;
      destruct (startEngine_effect l x (proj1 Ha))
        as (k & _ & _ & _ & _ & _ & _ & H3 & H4 & _ & H6 & _);
      destruct (startEngine l x) as [e d1]
    end.
    fields.
    split; [|split; [auto|split; [auto|right; auto]]].
    intros (Hgv & Hsr & Hst & Hsb & Hnb & Hlim & Hcd).
    apply Hty. ranges.
  - split; [|split; [auto|split; [auto|right; auto]]].
    intros (Hgv & Hsr & Hst & Hsb & Hnb & Hlim & Hcd). ranges.
Qed.

(** ** The loop of Read, turn by turn *)

Local Abbreviation Read_turn := (@Read_turn E ReadUInt16 ReadUInt32).

Lemma Read_loop_unfold (fuel l : nat) (acc : list byte) (d : Dec) :
  Read_loop (S fuel) l acc d =
  if (length acc =? l)%nat then Ret acc None d
  else match Read_turn l acc d with
       | inl res => res
       | inr (acc', d') => Read_loop fuel l acc' d'
       end.
Proof.
  cbn [W3G.Read_loop]. unfold W3G.Read_turn.
  destruct (length acc =? l)%nat; [reflexivity|].
  destruct (if SizeBlock d =? 0 then nextBlock d else (None, d))
    as [[e|] d1]; [reflexivity|].
  destruct (z d1) as [zs|]; [|reflexivity].
  destruct (fill zs (l - length acc) d1) as [[out err] d2].
  destruct err as [[| | |c]|]; try reflexivity.
  - destruct (closeBlock d2); reflexivity.
  - destruct (0 <? SizeBlock _); [reflexivity|].
    destruct (closeBlock _); reflexivity.
Qed.

Lemma Read_loop_done (fuel l : nat) (acc : list byte) (d : Dec) :
  length acc = l -> Read_loop fuel l acc d = Ret acc None d.
Proof.
  intros H. apply Nat.eqb_eq in H.
  destruct fuel; cbn [W3G.Read_loop]; now rewrite H.
Qed.

(** What [fill] changes. *)
Lemma fill_effect (zs : zst E) (want : nat) (d : Dec)
      (out : list byte) (err : option error) (d2 : Dec) :
  fill zs want d = (out, err, d2) ->
  exists (k c : nat) (zs' : zst E),
    zReadFull E zs (window d) want = (out, c, err, zs') /\
    (k <= length (r d))%nat /\ (0 <= limN d -> Z.of_nat k <= limN d) /\
    r d2 = skipn k (r d) /\ limN d2 = limN d - Z.of_nat k /\
    crc d2 = CRC32.update (crc d) (firstn k (r d)) /\
    z d2 = Some zs' /\
    SizeRead d2 = uint32 (SizeRead d + uint32 (limN d - limN d2)) /\
    SizeTotal d2 =
      uint32 (SizeTotal d - uint32 (Z.of_nat (length out))) /\
    SizeBlock d2 =
      uint32 (SizeBlock d - uint32 (Z.of_nat (length out))) /\
    NumBlocks d2 = NumBlocks d /\ GameVersion d2 = GameVersion d /\
    crcData d2 = crcData d.
Proof.
  unfold fill.
  destruct (zReadFull E zs (window d) want) as [[[o c] e] zs'] eqn:Hz.
  destruct (consume_effect c d) as (k & _ & Hk & Hlim & ->).
  intros H. inversion H; subst; clear H.
  exists k, c, zs'. fields. repeat split; auto.
Qed.

(** What [drain] changes. *)
Lemma drain_effect (d : Dec) :
  exists k : nat,
    (k <= length (r d))%nat /\ (0 <= limN d -> Z.of_nat k <= limN d) /\
    r (drain d) = skipn k (r d) /\ limN (drain d) = limN d - Z.of_nat k /\
    crc (drain d) = CRC32.update (crc d) (firstn k (r d)) /\
    SizeRead (drain d) = SizeRead d /\ SizeTotal (drain d) = SizeTotal d /\
    NumBlocks (drain d) = NumBlocks d /\
    GameVersion (drain d) = GameVersion d /\
    crcData (drain d) = crcData d /\
    (SizeBlock (drain d) = SizeBlock d \/
     exists x, SizeBlock (drain d) = uint32 x).
Proof.
  unfold drain. destruct (z d) as [zs|].
  - destruct (zDiscard E zs (window d)) as [[cnt c] zs'].
    destruct (consume_effect c d) as (k & _ & Hk & Hlim & ->).
    exists k. fields. repeat split; auto. right. eauto.
  - exists O. rewrite Z.sub_0_r. simpl.
    repeat split; auto; try lia.
    symmetry. apply update_nil.
Qed.


Lemma open_inv (d : Dec) (e0 : option error) (d1 : Dec) :
  (if SizeBlock d =? 0 then nextBlock d else (None, d)) = (e0, d1) ->
  (typed d -> typed d1) /\
  SizeTotal d1 = SizeTotal d /\ GameVersion d1 = GameVersion d /\
  (e0 = None ->
   (SizeBlock d <> 0 /\ d1 = d) \/
   (SizeBlock d = 0 /\ NumBlocks d <> 0 /\ closeBlock d = None /\
    NumBlocks d1 = uint32 (NumBlocks d - 1))).
Proof.
  destruct (SizeBlock d =? 0) eqn:Eb.
  - apply Z.eqb_eq in Eb. intros H.
    pose proof (nextBlock_inv d) as Hi. rewrite H in Hi.
    destruct Hi as (Ht & Hs & Hg & Hc).
    splits; auto.
    intros ->. right. destruct Hc as [(_ & Hc) | Hc]; [congruence|].
    tauto.
  - apply Z.eqb_neq in Eb. intros H. inversion H; subst.
    splits; auto.
Qed.

Lemma fill_typed (zs : zst E) (want : nat) (d : Dec)
      (out : list byte) (err : option error) (d2 : Dec) :
  fill zs want d = (out, err, d2) -> typed d -> typed d2.
Proof.
  intros H (Hgv & Hsr & Hst & Hsb & Hnb & Hlim & Hcd).
  destruct (fill_effect _ _ _ _ _ _ H)
    as (k & c & zs' & _ & _ & Hk & _ & H1 & _ & _ & H2 & H3 & H4 & H5 & H6 & H7).
  specialize (Hk Hlim).
  unfold typed. rewrite H1, H3, H4, H5, H6, H7.
  rewrite H1 in H2. rewrite H2.
  splits; try lia; apply uint32_range.
Qed.

Lemma drain_typed (d : Dec) : typed d -> typed (drain d).
Proof.
  intros (Hgv & Hsr & Hst & Hsb & Hnb & Hlim & Hcd).
  destruct (drain_effect d)
    as (k & _ & Hk & _ & H1 & _ & H2 & H3 & H4 & H5 & H6 & H7).
  specialize (Hk Hlim).
  unfold typed. rewrite H1, H2, H3, H4, H5, H6.
  destruct H7 as [-> | (x & ->)];
    splits; try lia; apply uint32_range.
Qed.

Lemma closeBlock_None_typed (d : Dec) :
  typed d -> closeBlock d = None -> SizeBlock d = 0 /\ limN d = 0.
Proof.
  intros (_ & _ & _ & Hsb & _ & Hlim & _) H.
  apply closeBlock_None in H. lia.
Qed.

Lemma closeBlock_Some (d : Dec) (e : error) :
  closeBlock d = Some e -> e = ErrUnexpectedEOF \/ e = ErrInvalidChecksum.
Proof.
  rewrite closeBlock_cases.
  destruct ((0 <? SizeBlock d) || (0 <? limN d)).
  - intros H; inversion H; auto.
  - destruct (crcData d =? fold16 (crc d)); intros H; inversion H; auto.
Qed.

(** One turn: a returned error is not nil; the receiver stays within its
    types; [b] only grows, and not beyond [l]; and when the loop goes
    round again with [b] not full, a block has just been closed, and one
    block was counted off if the turn opened one. *)
Lemma Read_turn_spec (l : nat) (acc : list byte) (d : Dec) :
  ReadFull_contract E -> typed d -> (length acc < l)%nat ->
  match Read_turn l acc d with
  | inl (Ret out e d') =>
    e <> None /\ typed d' /\
    (exists out1, out = acc ++ out1) /\ (length out <= l)%nat
  | inl Panic => True
  | inl OutOfFuel => False
  | inr (acc', d') =>
    typed d' /\ (exists out1, acc' = acc ++ out1) /\
    (length acc' <= l)%nat /\
    (length acc' = l \/
     (SizeBlock d' = 0 /\
      (Z.to_nat (NumBlocks d') + (if (SizeBlock d =? 0)%Z then 1%nat else O)
       = Z.to_nat (NumBlocks d))%nat))
  end.
Proof.
  intros HC Ht Hacc. unfold W3G.Read_turn.
  destruct (if SizeBlock d =? 0 then nextBlock d else (None, d))
    as [e0 d1] eqn:Hopen.
  destruct (open_inv _ _ _ Hopen) as (Ht1 & Hst1 & _ & Hcase).
  specialize (Ht1 Ht).
  destruct e0 as [e|].
  { splits; auto; try discriminate; try lia.
    exists []. now rewrite app_nil_r. }
  specialize (Hcase eq_refl).
  assert (Hnum : (Z.to_nat (NumBlocks d1)
                  + (if (SizeBlock d =? 0)%Z then 1%nat else O)
                  = Z.to_nat (NumBlocks d))%nat).
  { destruct Hcase as [(Hb & ->) | (Hb & Hn & _ & Hn1)].
    - apply Z.eqb_neq in Hb. rewrite Hb. lia.
    - rewrite Hb. simpl. rewrite Hn1.
      destruct Ht as (_ & _ & _ & _ & Hnb & _).
      rewrite uint32_small by lia. lia. }
  destruct (z d1) as [zs|]; [|exact I].
  destruct (fill zs (l - length acc) d1) as [[out err] d2] eqn:Hfill.
  pose proof (fill_typed _ _ _ _ _ _ Hfill Ht1) as Ht2.
  destruct (fill_effect _ _ _ _ _ _ Hfill)
    as (k & c & zs' & Hrf & _ & _ & _ & _ & _ & _ & _ & _ & _ & Hn2 & _).
  destruct (HC _ _ _ _ _ _ _ Hrf) as (Hlen & Hnil).
  assert (Hle : (length (acc ++ out) <= l)%nat)
    by (rewrite length_app; lia).
  destruct err as [e|].
  - assert (Hret : e <> ErrUnexpectedEOF ->
                   (Some e : option error) <> None /\ typed d2 /\
                   (exists out1, acc ++ out = acc ++ out1) /\
                   (length (acc ++ out) <= l)%nat).
    { intros _. splits; eauto. discriminate. }
    destruct e; try (apply Hret; discriminate).
    destruct (closeBlock d2) as [e|] eqn:Hc.
    + splits; eauto. discriminate.
    + destruct (closeBlock_None_typed _ Ht2 Hc) as (Hb2 & _).
      splits; eauto. right. split; [exact Hb2|].
      now rewrite Hn2.
  - assert (Hfull : length (acc ++ out) = l).
    { rewrite length_app. destruct Hnil as [Hnil _].
      rewrite (Hnil eq_refl). lia. }
    set (d3 := if (SizeTotal d2 =? 0) && (0 <? SizeBlock d2)
               then drain d2 else d2).
    assert (Ht3 : typed d3).
    { subst d3. destruct ((SizeTotal d2 =? 0) && (0 <? SizeBlock d2));
        [now apply drain_typed | exact Ht2]. }
    destruct (0 <? SizeBlock d3).
    + splits; eauto.
    + destruct (closeBlock d3) as [e|] eqn:Hc.
      * splits; eauto. discriminate.
      * splits; eauto.
Qed.


(** ** Read returns *)

Lemma Read_loop_spec (fuel l : nat) :
  ReadFull_contract E ->
  forall (acc : list byte) (d : Dec),
    typed d -> (length acc <= l)%nat ->
    (length acc = l \/
     (Z.to_nat (NumBlocks d)
      + (if (SizeBlock d =? 0)%Z then 1 else 2) <= fuel)%nat) ->
    match Read_loop fuel l acc d with
    | Ret out e d' =>
      typed d' /\ (exists out1, out = acc ++ out1) /\
      (length out <= l)%nat /\ (e = None -> length out = l)
    | Panic => True
    | OutOfFuel => False
    end.
Proof.
  intros HC. induction fuel as [|fuel IH]; intros acc d Ht Hle Hfuel.
  - assert (Hfull : length acc = l).
    { destruct Hfuel as [H | H]; [exact H|].
      destruct (SizeBlock d =? 0); lia. }
    rewrite Read_loop_done by exact Hfull.
    splits; auto. exists []. now rewrite app_nil_r.
  - rewrite Read_loop_unfold.
    destruct (length acc =? l)%nat eqn:Efull.
    { apply Nat.eqb_eq in Efull.
      splits; auto. exists []. now rewrite app_nil_r. }
    apply Nat.eqb_neq in Efull.
    assert (Hlt : (length acc < l)%nat) by lia.
    destruct Hfuel as [Hfuel | Hfuel]; [contradiction|].
    pose proof (Read_turn_spec l acc d HC Ht Hlt) as Hturn.
    destruct (Read_turn l acc d) as [[out e d' | |] | [acc' d']].
    + destruct Hturn as (He & Ht' & Hpre & Hlen).
      splits; auto. intros ->. contradiction.
    + exact I.
    + exact Hturn.
    + destruct Hturn as (Ht' & (out1 & ->) & Hlen & Hprog).
      assert (Hfuel' :
                length (acc ++ out1) = l \/
                (Z.to_nat (NumBlocks d')
                 + (if (SizeBlock d' =? 0)%Z then 1 else 2) <= fuel)%nat).
      { destruct Hprog as [H | (Hb & Hn)]; [left; exact H|].
        right. rewrite Hb. simpl.
        destruct (SizeBlock d =? 0); lia. }
      specialize (IH (acc ++ out1) d' Ht' Hlen Hfuel').
      destruct (Read_loop fuel l (acc ++ out1) d') as [out e d''| |];
        auto.
      destruct IH as (Ht'' & (out2 & ->) & Hlen' & Hnil).
      splits; auto. exists (out1 ++ out2). now rewrite app_assoc.
Qed.

Lemma clamp_le (d : Dec) (lenb : nat) : (clamp d lenb <= lenb)%nat.
Proof.
  unfold clamp.
  destruct (Z.ltb_spec (SizeTotal d) (uint32 (Z.of_nat lenb)));
    [|lia].
  pose proof (Z.mod_le (Z.of_nat lenb) (2 ^ 32)) as Hm.
  unfold uint32 in H. lia.
Qed.

Lemma clamp_min (d : Dec) (lenb : nat) :
  0 <= SizeTotal d -> Z.of_nat lenb < 2 ^ 32 ->
  clamp d lenb = Nat.min lenb (Z.to_nat (SizeTotal d)).
Proof.
  intros Ht Hl. unfold clamp.
  rewrite uint32_small by lia.
  destruct (Z.ltb_spec (SizeTotal d) (Z.of_nat lenb)); lia.
Qed.

(** [Read] always comes back: it returns or it panics on the nil engine
    handle; the loop needs no more turns than [Read_fuel] grants. *)
Theorem Read_total (d : Dec) (lenb : nat) :
  ReadFull_contract E -> typed d -> Read d lenb <> OutOfFuel.
Proof.
  intros HC Ht. unfold W3G.Read.
  destruct (SizeTotal d =? 0); [discriminate|].
  assert (Hfuel :
            length (@nil byte) = clamp d lenb \/
            (Z.to_nat (NumBlocks d)
             + (if (SizeBlock d =? 0)%Z then 1 else 2)
             <= Read_fuel d)%nat).
  { right. unfold Read_fuel. destruct (SizeBlock d =? 0); lia. }
  pose proof (Read_loop_spec (Read_fuel d) (clamp d lenb) HC [] d Ht
                             (Nat.le_0_l _) Hfuel) as H.
  destruct (Read_loop (Read_fuel d) (clamp d lenb) [] d);
    [discriminate | discriminate | contradiction].
Qed.

Lemma Read_typed (d : Dec) (lenb : nat) (out : list byte)
      (e : option error) (d' : Dec) :
  ReadFull_contract E -> typed d ->
  Read d lenb = Ret out e d' -> typed d' /\ (length out <= lenb)%nat.
Proof.
  intros HC Ht. unfold W3G.Read.
  destruct (SizeTotal d =? 0).
  { intros H. inversion H; subst. split; [exact Ht | simpl; lia]. }
  assert (Hfuel :
            length (@nil byte) = clamp d lenb \/
            (Z.to_nat (NumBlocks d)
             + (if (SizeBlock d =? 0)%Z then 1 else 2)
             <= Read_fuel d)%nat).
  { right. unfold Read_fuel. destruct (SizeBlock d =? 0); lia. }
  pose proof (Read_loop_spec (Read_fuel d) (clamp d lenb) HC [] d Ht
                             (Nat.le_0_l _) Hfuel) as H.
  intros Heq. rewrite Heq in H. destruct H as (H1 & _ & H2 & _).
  split; [exact H1|]. pose proof (clamp_le d lenb). lia.
Qed.

(** The loop returns nil only from its test [n != l]. *)
Lemma Read_loop_nil (fuel l : nat) :
  forall (acc : list byte) (d : Dec) (out : list byte) (d' : Dec),
    Read_loop fuel l acc d = Ret out None d' -> length out = l.
Proof.
  induction fuel as [|fuel IH]; intros acc d out d'.
  - cbn [W3G.Read_loop].
    destruct (length acc =? l)%nat eqn:Ef; [|discriminate].
    intros H. inversion H; subst. now apply Nat.eqb_eq.
  - rewrite Read_loop_unfold.
    destruct (length acc =? l)%nat eqn:Ef.
    { intros H. inversion H; subst. now apply Nat.eqb_eq. }
    unfold W3G.Read_turn.
    destruct (if SizeBlock d =? 0 then nextBlock d else (None, d))
      as [[e0|] d1]; [discriminate|].
    destruct (z d1) as [zs|]; [|discriminate].
    destruct (fill zs (l - length acc) d1) as [[o err] d2].
    destruct err as [[| | |c]|]; try discriminate.
    + destruct (closeBlock d2); [discriminate | apply IH].
    + destruct (0 <? SizeBlock _); [apply IH|].
      destruct (closeBlock _); [discriminate | apply IH].
Qed.


(** ** The size of a successful read *)

(** For a buffer shorter than [2^32] bytes: [Read] returns a nil error
    only with exactly [min(len(b), SizeTotal)] bytes, so a shorter count
    always comes with an error. *)
Lemma Read_nil_count (d : Dec) (lenb : nat) (out : list byte)
      (e : option error) (d' : Dec) :
  0 < SizeTotal d -> Z.of_nat lenb < 2 ^ 32 ->
  Read d lenb = Ret out e d' ->
  let m := Nat.min lenb (Z.to_nat (SizeTotal d)) in
  (e = None -> length out = m) /\ ((length out < m)%nat -> e <> None).
Proof.
  intros Ht Hl Hr m.
  assert (Hnil : e = None -> length out = m).
  { intros ->. unfold W3G.Read in Hr.
    destruct (SizeTotal d =? 0); [discriminate|].
    apply Read_loop_nil in Hr. subst m.
    rewrite <- clamp_min by lia. exact Hr. }
  split; [exact Hnil|].
  intros Hlt ->. specialize (Hnil eq_refl). lia.
Qed.

(** A buffer of [2^32] bytes escapes the clamp, because [uint32(l)] is 0:
    with a block open whose engine fills the whole buffer, [Read] returns
    [2^32] bytes and a nil error whatever [SizeTotal] was, and leaves
    [SizeTotal] as it found it. *)
Lemma Read_huge_buffer (d : Dec) (zs : zst E) (out : list byte)
      (d2 : Dec) :
  typed d -> 0 < SizeTotal d -> SizeBlock d <> 0 -> z d = Some zs ->
  fill zs (2 ^ 32) d = (out, None, d2) -> length out = (2 ^ 32)%nat ->
  Read d (2 ^ 32) = Ret out None d2 /\
  SizeTotal d2 = SizeTotal d /\
  (Nat.min (2 ^ 32) (Z.to_nat (SizeTotal d)) < length out)%nat.
Proof.
  intros Ht Hst Hsb Hz Hfill Hlen.
  assert (H32 : Z.of_nat (2 ^ 32) = 2 ^ 32).
  { rewrite Nat2Z.inj_pow. reflexivity. }
  destruct Ht as (_ & _ & Ht & Hb & _).
  destruct (fill_effect _ _ _ _ _ _ Hfill)
    as (k & c & zs' & _ & _ & _ & _ & _ & _ & _ & _ & H1 & H2 & _).
  rewrite Hlen, H32 in H1, H2.
  assert (Hu : uint32 (2 ^ 32) = 0) by reflexivity.
  rewrite Hu, Z.sub_0_r, uint32_small in H1, H2 by lia.
  split; [|split; [exact H1 | lia]].
  unfold W3G.Read.
  destruct (Z.eqb_spec (SizeTotal d) 0) as [H0|_]; [lia|].
  assert (Hc : clamp d (2 ^ 32) = (2 ^ 32)%nat).
  { unfold clamp. rewrite H32, Hu.
    destruct (Z.ltb_spec (SizeTotal d) 0); [lia | reflexivity]. }
  rewrite Hc. unfold Read_fuel. rewrite Read_loop_unfold.
  assert (Hne : (length (@nil byte) =? 2 ^ 32)%nat = false).
  { apply Nat.eqb_neq. change (length (@nil byte)) with O. lia. }
  rewrite Hne. unfold W3G.Read_turn.
  destruct (Z.eqb_spec (SizeBlock d) 0) as [H0|_]; [contradiction|].
  rewrite Hz. change (length (@nil byte)) with O. rewrite Nat.sub_0_r.
  rewrite Hfill. rewrite H1, H2.
  destruct (Z.eqb_spec (SizeTotal d) 0) as [H0|_]; [lia|].
  cbn [andb].
  destruct (Z.ltb_spec 0 (SizeBlock d2)) as [_|H0]; [|lia].
  cbn [app]. apply Read_loop_done. exact Hlen.
Qed.


(** ** Bytes taken through the tee *)

Lemma took_refl (d : Dec) : took O d d.
Proof.
  unfold took. simpl. rewrite update_nil, Z.sub_0_r.
  splits; auto. lia.
Qed.





(** ** The last block declared larger than what is owed *)



(** ** A source that ends inside a block *)

Local Abbreviation ReadAll := (@ReadAll E ReadUInt16 ReadUInt32).

Lemma drain_z (d : Dec) : z d <> None -> z (drain d) <> None.
Proof.
unfold drain. destruct (z d) as [zs|] eqn:Hz; [|congruence].
destruct (zDiscard E zs (window d)) as [[cnt c] zs']. simpl. discriminate.
Qed.

Lemma closeBlock_budget_left (d : Dec) :
  0 < limN d -> closeBlock d = Some ErrUnexpectedEOF.
Proof.
intros H. rewrite closeBlock_cases.
destruct (Z.ltb_spec 0 (limN d)) as [_|H0]; [|lia].
now rewrite orb_true_r.
Qed.

(** A header cut short: [io.ReadFull] on the source reports
[io.ErrUnexpectedEOF]. *)
Lemma nextBlock_short_header (d : Dec) :
  NumBlocks d <> 0 -> closeBlock d = None ->
  (0 < length (r d) < lenHead (GameVersion d))%nat ->
  fst (nextBlock d) = Some ErrUnexpectedEOF.
Proof.
intros Hn Hc Hlen. unfold W3G.nextBlock.
destruct (Z.eqb_spec (NumBlocks d) 0) as [H0|_]; [contradiction|].
rewrite Hc. unfold readHeader. fields.
rewrite firstn_all2 by lia.
destruct (Nat.eqb_spec (length (r d)) (lenHead (GameVersion d)))
  as [H0|_]; [lia|].
destruct (Nat.eqb_spec (length (r d)) 0) as [H0|_]; [lia|].
reflexivity.
Qed.

(** *** What the engine is asked *)

Local Abbreviation no_clean_end := (@W3G.no_clean_end E).
Local Abbreviation quiet := (@W3G.quiet E).
Local Abbreviation calm := (@W3G.calm E).

Lemma window_consume (c : nat) (d : Dec) :
  window (consume c d) = skipn c (window d).
Proof.
unfold consume. set (k := Nat.min c (length (window d))).
assert (Hk : (k <= length (window d))%nat) by (subst k; lia).
assert (Hsk : skipn c (window d) = skipn k (window d)).
{ subst k. destruct (Nat.le_gt_cases c (length (window d))) as [H|H].
  - now rewrite Nat.min_l by exact H.
  - rewrite Nat.min_r by lia. rewrite !skipn_all2 by lia. reflexivity. }
rewrite Hsk. unfold window in *. fields.
rewrite length_firstn in Hk.
replace (Z.to_nat (limN d - Z.of_nat k))
  with (Z.to_nat (limN d) - k)%nat by lia.
rewrite skipn_firstn_comm. reflexivity.
Qed.

Lemma fill_asks (zs : zst E) (want : nat) (d : Dec)
      (out : list byte) (err : option error) (d2 : Dec) :
  fill zs want d = (out, err, d2) ->
  exists (c : nat) (zs' : zst E),
    zReadFull E zs (window d) want = (out, c, err, zs') /\
    z d2 = Some zs' /\ window d2 = skipn c (window d) /\
    SizeBlock d2 = uint32 (SizeBlock d - uint32 (Z.of_nat (length out))).
Proof.
unfold fill.
destruct (zReadFull E zs (window d) want) as [[[o c] e] zs'] eqn:Hrf.
intros H. inversion H; subst o e d2. clear H.
exists c, zs'. splits.
- reflexivity.
- reflexivity.
- rewrite <- (window_consume c d). reflexivity.
- reflexivity.
Qed.

Lemma no_clean_end_next (zs : zst E) (w : list byte) (sb : Z) (n : nat)
      (out : list byte) (c : nat) (zs1 : zst E) :
  no_clean_end zs w sb -> n <> O ->
  zReadFull E zs w n = (out, c, None, zs1) ->
  uint32 (sb - uint32 (Z.of_nat (length out))) <> 0 ->
  no_clean_end zs1 (skipn c w)
               (uint32 (sb - uint32 (Z.of_nat (length out)))).
Proof.
intros Hq Hn Hrf Hsb zs' w' sb' n' out' c' zs'' Hasked Hn'.
apply (Hq zs' w' sb' n' out' c' zs''); [|exact Hn'].
exact (@W3G.asked_later E _ _ _ _ _ _ _ _ _ _ Hn Hrf Hsb Hasked).
Qed.

(** A read from a block whose stream does not end early is not answered
with [io.EOF]; and if it fills the buffer and leaves bytes of the block
expected, the stream still does not end early. *)
Lemma fill_quiet (zs : zst E) (want : nat) (d : Dec)
      (out : list byte) (err : option error) (d2 : Dec) :
  quiet d -> z d = Some zs -> want <> O ->
  fill zs want d = (out, err, d2) ->
  err <> Some EOF /\ (err = None -> SizeBlock d2 <> 0 -> quiet d2).
Proof.
intros (zs0 & Hz0 & Hq) Hz Hwant Hfill.
assert (zs0 = zs) by congruence. subst zs0.
destruct (fill_asks _ _ _ _ _ _ Hfill) as (c & zs' & Hrf & Hz2 & Hw2 & Hsb2).
split.
- intros ->.
  exact (Hq zs (window d) (SizeBlock d) want out c zs'
            (@W3G.asked_now E _ _ _) Hwant Hrf).
- intros -> Hsb. exists zs'. split; [exact Hz2|].
  rewrite Hw2, Hsb2. rewrite Hsb2 in Hsb.
  exact (no_clean_end_next zs (window d) (SizeBlock d) want out c zs'
                           Hq Hwant Hrf Hsb).
Qed.

Lemma Read_cut_short (d : Dec) (lenb : nat) :
  ReadFull_contract E -> own_errors E -> typed d ->
  0 < SizeTotal d -> cut_short d -> calm d -> Z.of_nat lenb < 2 ^ 32 ->
  exists out e d',
    Read d lenb = Ret out e d' /\
    match e with
    | None =>
      typed d' /\ SizeTotal d' = SizeTotal d - Z.of_nat (length out) /\
      0 <= SizeTotal d' /\ (0 < SizeTotal d' -> cut_short d' /\ calm d')
    | Some e => e = ErrUnexpectedEOF \/ engine_error e
    end.
Proof.
intros HC HT Ht Hst Hcut Hcalm Hlenb.
pose proof Ht as (_ & _ & Hst' & Hsb' & _ & Hlim' & _).
unfold W3G.Read.
destruct (Z.eqb_spec (SizeTotal d) 0) as [H0|_]; [lia|].
rewrite clamp_min by lia.
set (l := Nat.min lenb (Z.to_nat (SizeTotal d))).
destruct (Nat.eq_dec l 0) as [Hl0|Hl0].
{ exists [], None, d. rewrite Read_loop_done by (simpl; lia).
  splits; auto; simpl; lia. }
unfold Read_fuel. rewrite Read_loop_unfold.
destruct (Nat.eqb_spec (length (@nil byte)) l) as [H0|_];
  [simpl in H0; lia|].
unfold W3G.Read_turn. change (length (@nil byte)) with O.
rewrite Nat.sub_0_r. cbn [app].
pose proof Hcut as Hcut0.
destruct Hcut as [(Hsb & Hz & Hr) | (Hsb & Hc & Hn & Hr)].
- destruct (Z.eqb_spec (SizeBlock d) 0) as [H0|_]; [lia|].
  destruct (z d) as [zs|] eqn:Ez; [|congruence].
  destruct (fill zs l d) as [[out err] d2] eqn:Hfill.
  pose proof (fill_typed _ _ _ _ _ _ Hfill Ht) as Ht2.
  destruct (fill_effect _ _ _ _ _ _ Hfill)
    as (k & c & zs' & Hrf & Hk & _ & Hr2 & Hl2 & _ & Hz2 & _ & Hst2 & _).
  destruct (HC _ _ _ _ _ _ _ Hrf) as (Hlen & Hnil).
  assert (Hcut2 : Z.of_nat (length (r d2)) < limN d2).
  { rewrite Hr2, Hl2, length_skipn. lia. }
  assert (Hst2' : SizeTotal d2 = SizeTotal d - Z.of_nat (length out)).
  { rewrite Hst2. rewrite (uint32_small (Z.of_nat (length out))) by lia.
    apply uint32_small. lia. }
  assert (Hq : quiet d) by (apply Hcalm; lia).
  destruct (fill_quiet zs l d out err d2 Hq Ez Hl0 Hfill) as (Hne & Hq2).
  destruct err as [e|].
  + assert (He : e = EOF \/ e = ErrUnexpectedEOF \/ engine_error e)
      by exact (HT _ _ _ _ _ _ _ Hrf).
    destruct e.
    * congruence.
    * rewrite closeBlock_budget_left by lia.
      exists out, (Some ErrUnexpectedEOF), d2. auto.
    * destruct He as [He | [He | (code & He)]]; discriminate.
    * exists out, (Some (ErrOther code)), d2. split; [reflexivity|].
      right. exists code. reflexivity.
  + assert (Hfull : length out = l) by (apply Hnil; reflexivity).
    set (d3 := if (SizeTotal d2 =? 0) && (0 <? SizeBlock d2)
               then drain d2 else d2).
    assert (H3 : typed d3 /\ SizeTotal d3 = SizeTotal d2 /\
                 Z.of_nat (length (r d3)) < limN d3 /\ z d3 <> None /\
                 (SizeTotal d2 <> 0 -> d3 = d2)).
    { subst d3. destruct (Z.eqb_spec (SizeTotal d2) 0) as [H0|H0].
      - destruct (0 <? SizeBlock d2); cbn [andb].
        + destruct (drain_effect d2)
            as (k' & Hk' & _ & Hr3 & Hl3 & _ & _ & Hst3 & _).
          splits.
          * now apply drain_typed.
          * exact Hst3.
          * rewrite Hr3, Hl3, length_skipn. lia.
          * apply drain_z. congruence.
          * intros H. contradiction.
        + splits; auto. congruence.
      - cbn [andb]. splits; auto. congruence. }
    destruct H3 as (Ht3 & Hst3 & Hcut3 & Hz3 & Hsame).
    destruct (Z.ltb_spec 0 (SizeBlock d3)) as [Hb3|Hb3].
    * exists out, None, d3.
      rewrite Read_loop_done by exact Hfull.
      splits; auto; try lia.
      intros Hpos. split; [left; auto|].
      rewrite Hsame in * by lia.
      intros _ Hsb2. apply Hq2; [reflexivity | exact Hsb2].
    * rewrite closeBlock_budget_left by lia.
      exists out, (Some ErrUnexpectedEOF), d3. auto.
- destruct (Z.eqb_spec (SizeBlock d) 0) as [_|H0]; [|contradiction].
  pose proof (nextBlock_short_header d Hn Hc Hr) as Hnb.
  destruct (nextBlock d) as [e0 d1]. simpl in Hnb. subst e0.
  exists [], (Some ErrUnexpectedEOF), d1. auto.
Qed.


(** Inside the cut block.  A caller that reads until the first error gets
an answer from every call; the error that stops it is
[io.ErrUnexpectedEOF] or an error of the engine, and it is [io.EOF] only
after all the bytes the container announced have been delivered. *)
Lemma Read_cut_short_errors (ls : list nat) :
  ReadFull_contract E -> own_errors E ->
  Forall (fun l => Z.of_nat l < 2 ^ 32) ls ->
  forall d : Dec,
    typed d -> 0 < SizeTotal d -> cut_short d -> calm d ->
    match ReadAll d ls with
    | Some (out, Some e) =>
      (e = ErrUnexpectedEOF \/ engine_error e) \/
      (e = EOF /\ Z.of_nat (length out) = SizeTotal d)
    | Some (out, None) => Z.of_nat (length out) <= SizeTotal d
    | None => False
    end.
Proof.
intros HC HT Hls.
induction Hls as [|l ls Hl _ IH]; intros d Ht Hst Hcut Hcalm.
- simpl. lia.
- cbn [W3G.ReadAll].
  destruct (Read_cut_short d l HC HT Ht Hst Hcut Hcalm Hl)
    as (out & e & d' & Hread & Hres).
  rewrite Hread. destruct e as [e|]; [left; exact Hres|].
  destruct Hres as (Ht' & Hst' & Hge & Hcut').
  destruct (Z.eq_dec (SizeTotal d') 0) as [H0|H0].
  + destruct ls as [|l' ls'].
    * simpl. rewrite app_nil_r. lia.
    * cbn [W3G.ReadAll]. rewrite Read_at_end by exact H0.
      right. rewrite app_nil_r. split; [reflexivity | lia].
  + assert (Hpos : 0 < SizeTotal d') by lia.
    destruct (Hcut' Hpos) as (Hcut1 & Hcalm1).
    specialize (IH d' Ht' Hpos Hcut1 Hcalm1).
    destruct (ReadAll d' ls) as [[rest [e|]]|]; [| |contradiction].
    * destruct IH as [IH | (He & IH)]; [left; exact IH|].
      right. split; [exact He|]. rewrite length_app. lia.
    * rewrite length_app. lia.
Qed.


(** ** Counting the compressed bytes *)

Local Abbreviation declC := (@declC ReadUInt16 ReadUInt32).
Local Abbreviation declD := (@declD ReadUInt16 ReadUInt32).
Local Abbreviation wf_block := (@wf_block ReadUInt16 ReadUInt32).
Local Abbreviation sumD := (@sumD ReadUInt16 ReadUInt32).
Local Abbreviation sumC := (@sumC ReadUInt16 ReadUInt32).
Local Abbreviation in_session := (@in_session E ReadUInt16 ReadUInt32).
Local Abbreviation unending := (@W3G.unending E ReadUInt16 ReadUInt32).
Local Abbreviation whole := (@W3G.whole E ReadUInt16 ReadUInt32).

Lemma stream_of_cons (b : block) (bs : list block) :
  stream_of (b :: bs) = fst b ++ snd b ++ stream_of bs.
Proof. unfold stream_of. simpl. now rewrite <- app_assoc. Qed.

Lemma stream_of_length (gv : Z) (bs : list block) :
  Forall (wf_block gv) bs ->
  Z.of_nat (length (stream_of bs)) = sumC gv bs.
Proof.
induction 1 as [|b bs (Hh & Hp) _ IH]; [reflexivity|].
rewrite stream_of_cons, !length_app, !Nat2Z.inj_add, IH, Hh.
change (sumC gv (b :: bs))
  with (Z.of_nat (lenHead gv) + declC gv (fst b) + sumC gv bs).
rewrite Hp. lia.
Qed.

(** With the source empty, [nextBlock] cannot open a block. *)
Lemma nextBlock_empty_source (d : Dec) :
  r d = [] -> fst (nextBlock d) <> None.
Proof.
intros Hr. unfold W3G.nextBlock.
destruct (NumBlocks d =? 0); [discriminate|].
destruct (closeBlock d); [discriminate|].
unfold readHeader. fields. rewrite Hr, firstn_nil.
pose proof (lenHead_ge4 (GameVersion d)) as H4.
destruct (Nat.eqb_spec (length (@nil byte)) (lenHead (GameVersion d)))
  as [H0|_]; [simpl in H0; lia|].
simpl. discriminate.
Qed.

(** Bytes taken from the budget of the open block leave the blocks behind
it in place. *)
Lemma aligned_skip (k : nat) (cur tail : list byte) :
  (k <= length cur)%nat ->
  skipn k (cur ++ tail) = skipn k cur ++ tail /\
  Z.of_nat (length cur) - Z.of_nat k = Z.of_nat (length (skipn k cur)).
Proof.
intros Hk. rewrite skipn_app, length_skipn.
replace (k - length cur)%nat with O by lia.
split; [reflexivity | lia].
Qed.


(** Opening a block keeps the session in step with the stream. *)
Lemma open_in_session (gv : Z) (src : list byte) (d d1 : Dec)
      (rest : list block) :
  typed d -> in_session gv src d rest -> Forall (wf_block gv) rest ->
  0 < SizeTotal d ->
  (if SizeBlock d =? 0 then nextBlock d else (None, d)) = (None, d1) ->
  exists rest',
    Forall (wf_block gv) rest' /\ in_session gv src d1 rest' /\
    SizeTotal d1 = SizeTotal d.
Proof.
intros Ht (Hgv & (cur & Hr & Hlim) & Hdisj) Hwf Hst Hopen.
destruct Hdisj as [(H0 & _) | (Hsum & Hacc)]; [lia|].
destruct (open_inv _ _ _ Hopen) as (_ & Hst1 & Hgv1 & Hcase).
destruct (Hcase eq_refl) as [(Hb & ->) | (Hb & Hn & Hc & Hn1)].
{ exists rest. splits; auto. unfold W3G.in_session. splits; eauto. }
destruct (closeBlock_None_typed _ Ht Hc) as (_ & Hlim0).
assert (Hcur : cur = []).
{ destruct cur; [reflexivity|]. simpl in Hlim. lia. }
subst cur. simpl in Hr.
rewrite Hb in Hopen. change (0 =? 0) with true in Hopen. cbv iota in Hopen.
destruct rest as [|[hdr payload] rest'].
{ exfalso. apply (nextBlock_empty_source d Hr). now rewrite Hopen. }
inversion Hwf as [|b bs (Hh & Hp) Hwf' Eb]; subst b bs.
cbn [fst snd] in Hh, Hp.
rewrite stream_of_cons in Hr. cbn [fst snd] in Hr.
rewrite <- Hgv in Hh.
pose proof (nextBlock_header d hdr (payload ++ stream_of rest')
                             Hn Hc Hr Hh) as Hnb.
rewrite Hnb in Hopen. clear Hnb.
unfold W3G.declC in Hp. rewrite <- Hgv in Hp.
assert (HD : declD gv hdr
             = snd (fst (fst (parseHeader (GameVersion d) hdr))))
  by (unfold W3G.declD; now rewrite Hgv).
destruct (parseHeader (GameVersion d) hdr)
  as [[[lenDeflate sizeBlock] crcHead] crcD] eqn:Hparse.
cbn [fst snd] in Hp, HD.
destruct (parseHeader_range _ _ _ _ _ _ Hparse) as (Hld & _).
destruct (afterHeader_fields d hdr (payload ++ stream_of rest')
                             _ _ _ _ Hparse)
  as (HrH & _ & HsbH & _ & HstH & _ & HgvH & HsrH).
destruct (crcHead =? fold16 (CRC32.ChecksumIEEE (zeroed hdr)));
  [|discriminate].
destruct (startEngine_effect lenDeflate
            (afterHeader d hdr (payload ++ stream_of rest')) (proj1 Hld))
  as (k & Hk & _ & Hl1 & Hr1 & _ & Hsr1 & Hgv1' & Hst1' & Hsb1 & _).
rewrite Hopen in Hl1, Hr1, Hsr1, Hgv1', Hst1', Hsb1.
cbn [snd] in Hl1, Hr1, Hsr1, Hgv1', Hst1', Hsb1.
assert (Hkp : (k <= length payload)%nat) by lia.
destruct (aligned_skip k payload (stream_of rest') Hkp) as (Hsk & Hlen).
exists rest'. split; [exact Hwf'|]. split; [|congruence].
unfold W3G.in_session. splits.
- congruence.
- exists (skipn k payload). split.
  + rewrite Hr1, HrH. exact Hsk.
  + rewrite Hl1, Hp. exact Hlen.
- right. split.
  + rewrite Hst1', HstH, Hsb1, HsbH.
    rewrite Hb in Hsum. cbn [W3G.sumD fold_right fst] in Hsum.
    rewrite HD in Hsum.
    replace (SizeTotal d - sizeBlock - sumD gv rest')
      with (SizeTotal d - 0 - (sizeBlock + sumD gv rest')) by lia.
    exact Hsum.
  + rewrite Hsr1, HsrH, Hacc, Hl1.
    rewrite (uint32_small (lenDeflate - Z.of_nat k)) by lia.
    rewrite (uint32_add_r (uint32 _) (Z.of_nat (length hdr))).
    rewrite (uint32_add_l _ (Z.of_nat (length hdr))).
    rewrite uint32_add_r, uint32_add_l.
    f_equal. rewrite Hr1, HrH, Hr, Hsk.
    rewrite !length_app, length_skipn. lia.
Qed.


(** Filling [b] from the open block keeps the session in step. *)
Lemma fill_in_session (gv : Z) (src : list byte) (zs : zst E) (want : nat)
      (d d2 : Dec) (rest : list block) (out : list byte)
      (err : option error) :
  typed d -> in_session gv src d rest -> 0 < SizeTotal d ->
  fill zs want d = (out, err, d2) ->
  Z.of_nat (length out) <= SizeTotal d ->
  in_session gv src d2 rest /\
  SizeTotal d2 = SizeTotal d - Z.of_nat (length out) /\
  ((SizeTotal d2 - SizeBlock d2 - sumD gv rest) mod 2 ^ 32 = 0 /\
   SizeRead d2 =
     uint32 (Z.of_nat (length src) - Z.of_nat (length (r d2)))).
Proof.
intros Ht (Hgv & (cur & Hr & Hlim) & Hdisj) Hst Hfill Hout.
destruct Hdisj as [(H0 & _) | (Hsum & Hacc)]; [lia|].
pose proof Ht as (_ & _ & Hst' & _ & _ & Hlim' & _).
destruct (fill_effect _ _ _ _ _ _ Hfill)
  as (k & c & zs' & _ & _ & Hk & Hr2 & Hl2 & _ & _ & Hsr2 & Hst2 & Hsb2
      & _ & Hgv2 & _).
specialize (Hk Hlim').
assert (Hkc : (k <= length cur)%nat) by lia.
destruct (aligned_skip k cur (stream_of rest) Hkc) as (Hsk & Hlen).
assert (Hst2' : SizeTotal d2 = SizeTotal d - Z.of_nat (length out)).
{ rewrite Hst2, (uint32_small (Z.of_nat (length out))) by lia.
  apply uint32_small. lia. }
assert (Hright :
          (SizeTotal d2 - SizeBlock d2 - sumD gv rest) mod 2 ^ 32 = 0 /\
          SizeRead d2 =
            uint32 (Z.of_nat (length src) - Z.of_nat (length (r d2)))).
{ split.
  - rewrite Hst2', Hsb2.
    rewrite (uint32_small (Z.of_nat (length out))) by lia.
    unfold uint32. rewrite (Z.mod_eq (SizeBlock d - _)) by lia.
    set (q := (SizeBlock d - Z.of_nat (length out)) / 2 ^ 32).
    replace (SizeTotal d - Z.of_nat (length out)
             - (SizeBlock d - Z.of_nat (length out) - 2 ^ 32 * q)
             - sumD gv rest)
      with (SizeTotal d - SizeBlock d - sumD gv rest + q * 2 ^ 32) by ring.
    now rewrite Z_mod_plus_full.
  - rewrite Hsr2, Hacc, Hl2.
    replace (limN d - (limN d - Z.of_nat k)) with (Z.of_nat k) by lia.
    rewrite uint32_add_r, uint32_add_l. f_equal.
    rewrite Hr2, Hr, Hsk, !length_app, length_skipn. lia. }
split; [|split; [exact Hst2' | exact Hright]].
unfold W3G.in_session. splits.
- congruence.
- exists (skipn k cur). split.
  + rewrite Hr2, Hr. exact Hsk.
  + rewrite Hl2, Hlim. exact Hlen.
- right. exact Hright.
Qed.

(** The drain runs only when the blocks not opened yet still declare
bytes; what it takes from the source is counted nowhere. *)
Lemma drain_in_session (gv : Z) (src : list byte) (d : Dec)
      (rest : list block) :
  typed d -> in_session gv src d rest ->
  (SizeTotal d - SizeBlock d - sumD gv rest) mod 2 ^ 32 = 0 ->
  SizeTotal d = 0 -> 0 < SizeBlock d ->
  in_session gv src (drain d) rest.
Proof.
intros Ht (Hgv & (cur & Hr & Hlim) & _) Hsum H0 Hb.
pose proof Ht as (_ & _ & _ & Hsb & _ & Hlim' & _).
destruct (drain_effect d)
  as (k & _ & Hk & Hr3 & Hl3 & _ & _ & Hst3 & _ & Hgv3 & _).
specialize (Hk Hlim').
assert (Hkc : (k <= length cur)%nat) by lia.
destruct (aligned_skip k cur (stream_of rest) Hkc) as (Hsk & Hlen).
unfold W3G.in_session. splits.
- congruence.
- exists (skipn k cur). split.
  + rewrite Hr3, Hr. exact Hsk.
  + rewrite Hl3, Hlim. exact Hlen.
- left. split; [congruence|].
  intros ->. cbn [W3G.sumD fold_right] in Hsum.
  rewrite H0 in Hsum.
  replace (0 - SizeBlock d - 0) with (- SizeBlock d) in Hsum by lia.
  apply mod32_zero in Hsum; lia.
Qed.


(** A turn of the loop that does not return keeps the session in step. *)
Lemma turn_in_session (gv : Z) (src : list byte) (l : nat)
      (acc acc' : list byte) (d d' : Dec) (rest : list block) :
  ReadFull_contract E -> typed d -> in_session gv src d rest ->
  Forall (wf_block gv) rest -> (length acc < l)%nat ->
  Z.of_nat (l - length acc) <= SizeTotal d ->
  Read_turn l acc d = inr (acc', d') ->
  exists rest',
    Forall (wf_block gv) rest' /\ in_session gv src d' rest' /\
    typed d' /\ (length acc' <= l)%nat /\
    Z.of_nat (l - length acc') <= SizeTotal d'.
Proof.
intros HC Ht Hin Hwf Hacc Hwant Hturn.
pose proof (Read_turn_spec l acc d HC Ht Hacc) as Hspec.
rewrite Hturn in Hspec. destruct Hspec as (Ht' & _ & Hle' & _).
unfold W3G.Read_turn in Hturn.
destruct (if SizeBlock d =? 0 then nextBlock d else (None, d))
  as [[e0|] d1] eqn:Hopen; [discriminate|].
assert (Hst : 0 < SizeTotal d) by lia.
destruct (open_in_session gv src d d1 rest Ht Hin Hwf Hst Hopen)
  as (rest1 & Hwf1 & Hin1 & Hst1).
destruct (open_inv _ _ _ Hopen) as (Ht1 & _).
specialize (Ht1 Ht).
destruct (z d1) as [zs|]; [|discriminate].
destruct (fill zs (l - length acc) d1) as [[out err] d2] eqn:Hfill.
destruct (fill_effect _ _ _ _ _ _ Hfill) as (k & c & zs' & Hrf & _).
destruct (HC _ _ _ _ _ _ _ Hrf) as (Hlen & _).
assert (Hout : Z.of_nat (length out) <= SizeTotal d1) by lia.
assert (Hst1' : 0 < SizeTotal d1) by lia.
destruct (fill_in_session gv src zs _ d1 d2 rest1 out err
                          Ht1 Hin1 Hst1' Hfill Hout)
  as (Hin2 & Hst2 & Hsum2 & _).
pose proof (fill_typed _ _ _ _ _ _ Hfill Ht1) as Ht2.
assert (Hwant2 : Z.of_nat (l - length (acc ++ out)) <= SizeTotal d2).
{ rewrite length_app. lia. }
exists rest1.
destruct err as [[| | |code]|]; try discriminate.
- destruct (closeBlock d2); [discriminate|].
  inversion Hturn; subst. splits; auto.
- set (d3 := if (SizeTotal d2 =? 0) && (0 <? SizeBlock d2)
             then drain d2 else d2) in *.
  assert (H3 : in_session gv src d3 rest1 /\ SizeTotal d3 = SizeTotal d2).
  { subst d3.
    destruct (Z.eqb_spec (SizeTotal d2) 0) as [H0|H0];
      [|split; [exact Hin2 | reflexivity]].
    destruct (Z.ltb_spec 0 (SizeBlock d2)) as [Hb|Hb];
      [|split; [exact Hin2 | reflexivity]].
    cbn [andb]. split.
    - now apply drain_in_session.
    - destruct (drain_effect d2) as (k' & _ & _ & _ & _ & _ & _ & H & _).
      exact H. }
  destruct H3 as (Hin3 & Hst3).
  destruct (0 <? SizeBlock d3).
  + inversion Hturn; subst acc' d'. splits; auto. lia.
  + destruct (closeBlock d3); [discriminate|].
    inversion Hturn; subst acc' d'. splits; auto. lia.
Qed.

Lemma loop_in_session (gv : Z) (src : list byte) (fuel l : nat) :
  ReadFull_contract E ->
  forall (acc : list byte) (d : Dec) (rest : list block)
         (out : list byte) (d' : Dec),
    typed d -> in_session gv src d rest -> Forall (wf_block gv) rest ->
    (length acc <= l)%nat -> Z.of_nat (l - length acc) <= SizeTotal d ->
    Read_loop fuel l acc d = Ret out None d' ->
    exists rest',
      Forall (wf_block gv) rest' /\ in_session gv src d' rest' /\ typed d'.
Proof.
intros HC. induction fuel as [|fuel IH];
  intros acc d rest out d' Ht Hin Hwf Hle Hwant Hloop.
- cbn [W3G.Read_loop] in Hloop.
  destruct (length acc =? l)%nat; [|discriminate].
  inversion Hloop; subst. eauto.
- rewrite Read_loop_unfold in Hloop.
  destruct (Nat.eqb_spec (length acc) l) as [Hfull|Hfull].
  { inversion Hloop; subst. eauto. }
  assert (Hlt : (length acc < l)%nat) by lia.
  destruct (Read_turn l acc d) as [res | [acc1 d1]] eqn:Hturn.
  + pose proof (Read_turn_spec l acc d HC Ht Hlt) as Hspec.
    rewrite Hturn in Hspec. subst res.
    destruct Hspec as (He & _). congruence.
  + destruct (turn_in_session gv src l acc acc1 d d1 rest
                              HC Ht Hin Hwf Hlt Hwant Hturn)
      as (rest1 & Hwf1 & Hin1 & Ht1 & Hle1 & Hwant1).
    exact (IH acc1 d1 rest1 out d' Ht1 Hin1 Hwf1 Hle1 Hwant1 Hloop).
Qed.

Lemma Read_in_session (gv : Z) (src : list byte) (d d' : Dec)
      (rest : list block) (lenb : nat) (out : list byte) :
  ReadFull_contract E -> typed d -> in_session gv src d rest ->
  Forall (wf_block gv) rest -> Z.of_nat lenb < 2 ^ 32 ->
  Read d lenb = Ret out None d' ->
  exists rest',
    Forall (wf_block gv) rest' /\ in_session gv src d' rest' /\ typed d'.
Proof.
intros HC Ht Hin Hwf Hlenb Hread.
unfold W3G.Read in Hread.
destruct (SizeTotal d =? 0); [discriminate|].
pose proof Ht as (_ & _ & Hst & _).
apply (loop_in_session gv src _ _ HC [] d rest out d' Ht Hin Hwf)
  in Hread; auto.
- simpl. lia.
- rewrite clamp_min by lia. simpl. lia.
Qed.


Lemma ReadSeq_in_session (gv : Z) (src : list byte) (ls : list nat) :
  ReadFull_contract E ->
  Forall (fun l => Z.of_nat l < 2 ^ 32) ls ->
  forall (d d' : Dec) (rest : list block)
         (log : list (list byte * option error)),
    typed d -> in_session gv src d rest -> Forall (wf_block gv) rest ->
    ReadSeq d ls = (log, Some d') -> all_nil log ->
    exists rest',
      Forall (wf_block gv) rest' /\ in_session gv src d' rest' /\ typed d'.
Proof.
intros HC Hls. induction Hls as [|l ls Hl _ IH];
  intros d d' rest log Ht Hin Hwf Hseq Hnil.
- simpl in Hseq. inversion Hseq; subst. eauto.
- cbn [W3G.ReadSeq] in Hseq.
  destruct (Read d l) as [out e d1| |] eqn:Hread; try discriminate.
  destruct (ReadSeq d1 ls) as [log1 fin] eqn:Hseq1.
  inversion Hseq; subst log fin.
  inversion Hnil as [|x xs He Hnil1]; subst x xs. cbn [snd] in He. subst e.
  destruct (Read_in_session gv src d d1 rest l out HC Ht Hin Hwf Hl Hread)
    as (rest1 & Hwf1 & Hin1 & Ht1).
  exact (IH d1 d' rest1 log1 Ht1 Hin1 Hwf1 Hseq1 Hnil1).
Qed.

(** C2, as the code has it.  Take a stream of blocks whose headers have
the length of the layout and declare the length of their payload, in a
container that announces as many bytes as the blocks declare.  When a
session of calls of [Read], all returning nil, has delivered every byte
owed and used up the source, [SizeRead] is the sum over the blocks of the
header length and the declared compressed length, modulo [2^32]: the
bytes the engine takes when it is started are part of the declared
length. *)
Theorem SizeRead_drained (gv numBlocks total : Z) (bs : list block)
        (ls : list nat) (log : list (list byte * option error))
        (d' : Dec) :
  ReadFull_contract E ->
  0 <= gv < 2 ^ 32 -> 0 <= numBlocks < 2 ^ 32 -> 0 <= total < 2 ^ 32 ->
  Forall (wf_block gv) bs -> sumD gv bs = total ->
  Forall (fun l => Z.of_nat l < 2 ^ 32) ls ->
  ReadSeq (NewDecompressor E (stream_of bs) gv numBlocks total) ls
  = (log, Some d') ->
  all_nil log -> SizeTotal d' = 0 -> r d' = [] ->
  SizeRead d' = uint32 (sumC gv bs).
Proof.
intros HC Hgv Hnb Htot Hwf Hsum Hls Hseq Hnil Hdone Hsrc.
set (d0 := NewDecompressor E (stream_of bs) gv numBlocks total) in *.
assert (Ht0 : typed d0) by (subst d0; unfold NewDecompressor; ranges).
assert (Hin0 : in_session gv (stream_of bs) d0 bs).
{ unfold W3G.in_session. subst d0. unfold NewDecompressor. fields.
  splits.
  - reflexivity.
  - exists []. split; reflexivity.
  - right. split.
    + rewrite Hsum. replace (total - 0 - total) with 0 by lia. reflexivity.
    + now rewrite Z.sub_diag. }
destruct (ReadSeq_in_session gv (stream_of bs) ls HC Hls d0 d' bs log
                             Ht0 Hin0 Hwf Hseq Hnil)
  as (rest' & Hwf' & (_ & (cur & Hr & _) & Hdisj) & _).
rewrite Hsrc in Hr. symmetry in Hr. apply app_eq_nil in Hr.
destruct Hr as (_ & Hrest).
assert (Hnone : rest' = []).
{ destruct rest' as [|b rest']; [reflexivity|].
  rewrite stream_of_cons in Hrest.
  inversion Hwf' as [|x xs (Hh & _) _]; subst x xs.
  pose proof (lenHead_ge4 gv) as H4.
  apply (f_equal (@length byte)) in Hrest.
  rewrite length_app in Hrest. simpl in Hrest. lia. }
destruct Hdisj as [(_ & Hne) | (_ & Hacc)]; [contradiction|].
rewrite Hacc, Hsrc. simpl length. rewrite Z.sub_0_r.
now rewrite (stream_of_length gv bs Hwf).
Qed.


(** ** Bytes delivered and bytes owed *)

Lemma Read_turn_owed (l : nat) (acc acc' : list byte) (d d' : Dec) :
  ReadFull_contract E -> typed d -> (length acc < l)%nat ->
  Z.of_nat (l - length acc) <= SizeTotal d ->
  Read_turn l acc d = inr (acc', d') ->
  SizeTotal d' = SizeTotal d - (Z.of_nat (length acc') - Z.of_nat (length acc))
  /\ Z.of_nat (l - length acc') <= SizeTotal d'.
Proof.
intros HC Ht Hacc Hwant Hturn.
pose proof Ht as (_ & _ & Hst & _).
unfold W3G.Read_turn in Hturn.
destruct (if SizeBlock d =? 0 then nextBlock d else (None, d))
  as [[e0|] d1] eqn:Hopen; [discriminate|].
destruct (open_inv _ _ _ Hopen) as (_ & Hst1 & _).
destruct (z d1) as [zs|]; [|discriminate].
destruct (fill zs (l - length acc) d1) as [[out err] d2] eqn:Hfill.
destruct (fill_effect _ _ _ _ _ _ Hfill)
  as (k & c & zs' & Hrf & _ & _ & _ & _ & _ & _ & _ & Hst2 & _).
destruct (HC _ _ _ _ _ _ _ Hrf) as (Hlen & _).
assert (Hst2' : SizeTotal d2 = SizeTotal d - Z.of_nat (length out)).
{ rewrite Hst2, Hst1.
  rewrite (uint32_small (Z.of_nat (length out))) by lia.
  apply uint32_small. lia. }
assert (Hgoal : forall d3 : Dec, SizeTotal d3 = SizeTotal d2 ->
          SizeTotal d3 = SizeTotal d
            - (Z.of_nat (length (acc ++ out)) - Z.of_nat (length acc))
          /\ Z.of_nat (l - length (acc ++ out)) <= SizeTotal d3).
{ intros d3 H3. rewrite length_app. lia. }
destruct err as [[| | |code]|]; try discriminate.
- destruct (closeBlock d2); [discriminate|].
  inversion Hturn; subst. now apply Hgoal.
- set (d3 := if (SizeTotal d2 =? 0) && (0 <? SizeBlock d2)
             then drain d2 else d2) in *.
  assert (H3 : SizeTotal d3 = SizeTotal d2).
  { subst d3. destruct ((SizeTotal d2 =? 0) && (0 <? SizeBlock d2));
      [|reflexivity].
    destruct (drain_effect d2) as (k' & _ & _ & _ & _ & _ & _ & H & _).
    exact H. }
  destruct (0 <? SizeBlock d3).
  + inversion Hturn; subst acc' d'. now apply Hgoal.
  + destruct (closeBlock d3); [discriminate|].
    inversion Hturn; subst acc' d'. now apply Hgoal.
Qed.

Lemma Read_loop_owed (fuel l : nat) :
  ReadFull_contract E ->
  forall (acc : list byte) (d : Dec) (out : list byte) (d' : Dec),
    typed d -> (length acc <= l)%nat ->
    Z.of_nat (l - length acc) <= SizeTotal d ->
    Read_loop fuel l acc d = Ret out None d' ->
    SizeTotal d' = SizeTotal d - (Z.of_nat (length out) - Z.of_nat (length acc)).
Proof.
intros HC. induction fuel as [|fuel IH];
  intros acc d out d' Ht Hle Hwant Hloop.
- cbn [W3G.Read_loop] in Hloop.
  destruct (length acc =? l)%nat; [|discriminate].
  inversion Hloop; subst. lia.
- rewrite Read_loop_unfold in Hloop.
  destruct (Nat.eqb_spec (length acc) l) as [Hfull|Hfull].
  { inversion Hloop; subst. lia. }
  assert (Hlt : (length acc < l)%nat) by lia.
  pose proof (Read_turn_spec l acc d HC Ht Hlt) as Hspec.
  destruct (Read_turn l acc d) as [res | [acc1 d1]] eqn:Hturn.
  + subst res. destruct Hspec as (He & _). congruence.
  + destruct Hspec as (Ht1 & (out1 & Hacc1) & Hle1 & _).
    destruct (Read_turn_owed l acc acc1 d d1 HC Ht Hlt Hwant Hturn)
      as (Hst1 & Hwant1).
    rewrite (IH acc1 d1 out d' Ht1 Hle1 Hwant1 Hloop), Hst1. lia.
Qed.

(** A call that returns nil with a buffer shorter than [2^32] bytes takes
what it delivers off [SizeTotal]. *)
Lemma Read_owed (d d' : Dec) (lenb : nat) (out : list byte) :
  ReadFull_contract E -> typed d -> Z.of_nat lenb < 2 ^ 32 ->
  Read d lenb = Ret out None d' ->
  SizeTotal d' = SizeTotal d - Z.of_nat (length out).
Proof.
intros HC Ht Hlenb Hread.
pose proof Ht as (_ & _ & Hst & _).
unfold W3G.Read in Hread.
destruct (SizeTotal d =? 0); [discriminate|].
assert (Hle : (length (@nil byte) <= clamp d lenb)%nat) by (simpl; lia).
assert (Hwant : Z.of_nat (clamp d lenb - length (@nil byte))
                <= SizeTotal d).
{ rewrite clamp_min by lia. simpl. lia. }
rewrite (Read_loop_owed _ _ HC [] d out d' Ht Hle Hwant Hread).
simpl. lia.
Qed.


(** ** From the start of a stream that is cut short *)

Lemma startEngine_error (lenDeflate : Z) (d : Dec) (e : error) :
  reset_not_EOF E -> fst (startEngine lenDeflate d) = Some e -> e <> EOF.
Proof.
intros HR. unfold startEngine.
destruct (zReset E (window (set_crc 0 (set_limN lenDeflate d))))
  as [[c err] zs] eqn:Hreset.
cbn [fst]. intros ->. exact (HR _ _ _ _ Hreset).
Qed.

Lemma nextBlock_close_error (d : Dec) (e : error) :
  NumBlocks d <> 0 -> closeBlock d = Some e -> nextBlock d = (Some e, d).
Proof.
intros Hn Hc. unfold W3G.nextBlock.
destruct (Z.eqb_spec (NumBlocks d) 0) as [H0|_]; [contradiction|].
now rewrite Hc.
Qed.

(** The engine as [startEngine] leaves it when it succeeds: started on the
bytes of the budget the source holds, with what it did not take of them
before it. *)
Lemma startEngine_asks (lenDeflate : Z) (d d1 : Dec) :
  startEngine lenDeflate d = (None, d1) ->
  exists (c : nat) (zs : zst E),
    zReset E (firstn (Z.to_nat lenDeflate) (r d)) = (c, None, zs) /\
    z d1 = Some zs /\
    window d1 = skipn c (firstn (Z.to_nat lenDeflate) (r d)) /\
    SizeBlock d1 = SizeBlock d.
Proof.
unfold startEngine.
change (window (set_crc 0 (set_limN lenDeflate d)))
  with (firstn (Z.to_nat lenDeflate) (r d)).
destruct (zReset E (firstn (Z.to_nat lenDeflate) (r d)))
  as [[c err] zs] eqn:Hreset.
intros H. inversion H; subst err d1. clear H.
exists c, zs. splits.
- reflexivity.
- cbn [z set_SizeRead set_z]. destruct (z d); reflexivity.
- change (firstn (Z.to_nat lenDeflate) (r d))
    with (window (set_crc 0 (set_limN lenDeflate d))).
  rewrite <- window_consume. reflexivity.
- destruct (consume_effect c (set_crc 0 (set_limN lenDeflate d)))
    as (k & _ & _ & _ & Hc).
  cbn [SizeBlock set_SizeRead set_z]. rewrite Hc. reflexivity.
Qed.

(** [nextBlock] on a header that is all there, followed by [avail], the
part of its payload the source holds, and then by [after]: it fails with
an error other than [io.EOF], or it opens the block, the engine started on
[avail] and taking its first [k] bytes. *)
Lemma nextBlock_opens (gv : Z) (d : Dec) (hdr avail after : list byte) :
  reset_not_EOF E -> typed d -> GameVersion d = gv ->
  NumBlocks d <> 0 -> closeBlock d = None ->
  length hdr = lenHead gv -> r d = hdr ++ avail ++ after ->
  Z.of_nat (length avail) <= declC gv hdr ->
  Z.of_nat (length avail) = declC gv hdr \/ after = [] ->
  match nextBlock d with
  | (Some e, _) => e <> EOF
  | (None, d1) =>
    typed d1 /\ GameVersion d1 = gv /\
    NumBlocks d1 = NumBlocks d - 1 /\
    (exists k : nat,
        (k <= length avail)%nat /\ r d1 = skipn k avail ++ after /\
        limN d1 = declC gv hdr - Z.of_nat k) /\
    (exists (c : nat) (zs : zst E),
        zReset E avail = (c, None, zs) /\ z d1 = Some zs /\
        window d1 = skipn c avail /\ SizeBlock d1 = declD gv hdr)
  end.
Proof.
intros HR Ht Hgv Hn Hc Hh Hr Hav Hcase.
pose proof Ht as (_ & _ & _ & _ & Hnb & _).
rewrite <- Hgv in Hh.
pose proof (nextBlock_header d hdr (avail ++ after) Hn Hc Hr Hh) as Hnb'.
pose proof (nextBlock_inv d) as Hinv.
unfold W3G.declC, W3G.declD in Hav, Hcase |- *.
rewrite <- Hgv in Hav, Hcase |- *.
destruct (parseHeader (GameVersion d) hdr)
  as [[[lenDeflate sizeBlock] crcHead] crcD] eqn:Hparse.
cbn [fst snd] in Hav, Hcase |- *.
destruct (parseHeader_range _ _ _ _ _ _ Hparse) as (Hld & _).
destruct (afterHeader_fields d hdr (avail ++ after) _ _ _ _ Hparse)
  as (HrH & _ & HsbH & _ & _ & HnH & HgvH & _).
destruct (crcHead =? fold16 (CRC32.ChecksumIEEE (zeroed hdr))).
2:{ rewrite Hnb'. discriminate. }
pose proof (startEngine_error lenDeflate
              (afterHeader d hdr (avail ++ after))) as Herr.
pose proof (startEngine_asks lenDeflate
              (afterHeader d hdr (avail ++ after))) as Hasks.
destruct (startEngine_effect lenDeflate
            (afterHeader d hdr (avail ++ after)) (proj1 Hld))
  as (k & Hk & Hkr & Hl1 & Hr1 & _ & _ & Hgv1 & _ & _ & Hn1 & _).
rewrite <- Hnb' in Herr, Hl1, Hr1, Hgv1, Hn1, Hasks.
assert (Hwin : firstn (Z.to_nat lenDeflate) (avail ++ after) = avail).
{ destruct Hcase as [Hfull | ->].
  - rewrite <- Hfull, Nat2Z.id, firstn_app, Nat.sub_diag, firstn_all.
    cbn [firstn]. apply app_nil_r.
  - rewrite app_nil_r. apply firstn_all2. lia. }
destruct (nextBlock d) as [[e|] d1].
- apply Herr; [exact HR | reflexivity].
- cbn [snd] in Hl1, Hr1, Hgv1, Hn1.
  destruct Hinv as (Hty & _).
  assert (Hka : (k <= length avail)%nat).
  { rewrite HrH, length_app in Hkr.
    destruct Hcase as [Hfull | ->]; [lia|].
    simpl in Hkr. lia. }
  splits.
  + exact (Hty Ht).
  + congruence.
  + rewrite Hn1, HnH. apply uint32_small. lia.
  + exists k. splits; auto.
    rewrite Hr1, HrH.
    destruct (aligned_skip k avail after Hka) as (Hsk & _). exact Hsk.
  + destruct (Hasks d1 eq_refl) as (c & zs & Hreset & Hz1 & Hw1 & Hsb1).
    rewrite HrH, Hwin in Hreset, Hw1.
    exists c, zs. splits; auto. congruence.
Qed.


Section CutStream.

(** The stream ends with the first [n] bytes of the block [hdr], [payload];
the engine keeps the contract of [io.ReadFull], and on what the source holds
of the payload of the cut block its stream does not come to a clean end
while bytes of the block are expected. *)
Variable gv : Z.
Variables hdr payload : list byte.
Variable n : nat.
Hypothesis last_wf : wf_block gv (hdr, payload).
Hypothesis cut_inside : (0 < n < length hdr + length payload)%nat.
Hypothesis HC : ReadFull_contract E.
Hypothesis HR : reset_not_EOF E.
Hypothesis cut_unending :
  (length hdr <= n)%nat ->
  unending gv hdr (firstn (n - length hdr) payload).

Local Abbreviation tail := (firstn n (hdr ++ payload)).
Local Abbreviation ahead_of_cut := (@ahead_of_cut E ReadUInt16 ReadUInt32).
Local Abbreviation amid_cut := (@amid_cut E ReadUInt16 ReadUInt32).
Local Abbreviation before_cut := (@before_cut E).

Lemma tail_length : length tail = n.
Proof. rewrite length_firstn, length_app. lia. Qed.

Lemma open_cut (d d1 : Dec) (e0 : option error) :
  typed d -> ahead_of_cut gv tail d -> (SizeBlock d <> 0 -> quiet d) ->
  (if SizeBlock d =? 0 then nextBlock d else (None, d)) = (e0, d1) ->
  match e0 with
  | Some e => e <> EOF
  | None => typed d1 /\ amid_cut gv tail d1 /\ quiet d1
  end.
Proof.
intros Ht Hahead Hquiet Hopen.
destruct (Z.eqb_spec (SizeBlock d) 0) as [Hb|Hb].
2:{ inversion Hopen; subst. split; [exact Ht|]. split; [|auto].
    destruct Hahead as [H | (H & _)]; [left | right]; exact H. }
destruct Hahead as [(rest & Hwf & Hgv & (cur & Hr & Hlim) & Hnum)
                   | (_ & H)]; [|lia].
assert (Hn : NumBlocks d <> 0) by lia.
destruct (closeBlock d) as [e|] eqn:Hc.
{ rewrite (nextBlock_close_error d e Hn Hc) in Hopen.
  inversion Hopen; subst.
  destruct (closeBlock_Some _ _ Hc) as [-> | ->]; discriminate. }
destruct (closeBlock_None_typed _ Ht Hc) as (_ & Hlim0).
assert (Hcur : cur = []).
{ destruct cur; [reflexivity|]. simpl in Hlim. lia. }
subst cur. cbn [app] in Hr.
destruct last_wf as (Hlh & Hlp). cbn [fst snd] in Hlh, Hlp.
destruct rest as [|[h p] rest'].
- cbn [stream_of map concat app] in Hr.
  destruct (lt_dec n (lenHead gv)) as [Hshort|Hlong].
  + assert (Hlen : (0 < length (r d) < lenHead (GameVersion d))%nat).
    { rewrite Hr, tail_length, Hgv. lia. }
    pose proof (nextBlock_short_header d Hn Hc Hlen) as Hnb.
    rewrite Hopen in Hnb. cbn [fst] in Hnb. subst e0. discriminate.
  + assert (Htail : tail = hdr ++ firstn (n - lenHead gv) payload ++ []).
    { rewrite app_nil_r, firstn_app, Hlh.
      rewrite firstn_all2 by lia. reflexivity. }
    rewrite Htail in Hr.
    assert (Hav : Z.of_nat (length (firstn (n - lenHead gv) payload))
                  <= declC gv hdr).
    { rewrite Hlp, length_firstn. lia. }
    pose proof (nextBlock_opens gv d hdr _ [] HR Ht Hgv Hn Hc Hlh Hr Hav
                                (or_intror eq_refl)) as Hnb.
    rewrite Hopen in Hnb. destruct e0 as [e|]; [exact Hnb|].
    destruct Hnb as (Ht1 & _ & _ & (k & Hk & Hr1 & Hl1)
                     & (c & zs & Hreset & Hz1 & Hw1 & Hsb1)).
    split; [exact Ht1|]. split.
    * right. unfold in_cut.
      rewrite Hr1, Hl1, Hlp, app_nil_r, length_skipn.
      rewrite length_firstn in *. lia.
    * exists zs. split; [exact Hz1|]. rewrite Hw1, Hsb1.
      rewrite <- Hlh in Hreset |- *.
      apply (cut_unending ltac:(lia) c zs Hreset).
- inversion Hwf as [|b bs ((Hh & Hp) & Hun) Hwf' Eb]; subst b bs.
  cbn [fst snd] in Hh, Hp, Hun.
  rewrite stream_of_cons in Hr. cbn [fst snd] in Hr.
  rewrite <- !app_assoc in Hr.
  assert (Hav : Z.of_nat (length p) <= declC gv h) by lia.
  pose proof (nextBlock_opens gv d h p (stream_of rest' ++ tail)
                              HR Ht Hgv Hn Hc Hh Hr Hav
                              (or_introl (eq_sym Hp))) as Hnb.
  rewrite Hopen in Hnb. destruct e0 as [e|]; [exact Hnb|].
  destruct Hnb as (Ht1 & Hgv1 & Hn1 & (k & Hk & Hr1 & Hl1)
                   & (c & zs & Hreset & Hz1 & Hw1 & Hsb1)).
  split; [exact Ht1|]. split.
  + left. exists rest'. split; [exact Hwf'|].
    unfold W3G.before_cut. splits.
    * exact Hgv1.
    * exists (skipn k p). split; [exact Hr1|].
      rewrite Hl1, Hp, length_skipn. lia.
    * rewrite Hn1. cbn [length] in Hnum. lia.
  + exists zs. split; [exact Hz1|]. rewrite Hw1, Hsb1.
    exact (Hun c zs Hreset).
Qed.

(** Bytes taken by the engine leave the session where it stands. *)
Lemma amid_cut_took (d d' : Dec) (k : nat) :
  typed d -> amid_cut gv tail d ->
  (k <= length (r d))%nat -> Z.of_nat k <= limN d ->
  r d' = skipn k (r d) -> limN d' = limN d - Z.of_nat k ->
  GameVersion d' = GameVersion d -> NumBlocks d' = NumBlocks d ->
  amid_cut gv tail d'.
Proof.
intros Ht Hamid Hkr Hkl Hr' Hl' Hgv' Hn'.
destruct Hamid as [(rest & Hwf & Hgv & (cur & Hr & Hlim) & Hnum) | Hin].
- left. exists rest. split; [exact Hwf|].
  assert (Hkc : (k <= length cur)%nat) by lia.
  destruct (aligned_skip k cur (stream_of rest ++ tail) Hkc) as (Hsk & Hlen).
  unfold W3G.before_cut. splits.
  + congruence.
  + exists (skipn k cur). split.
    * rewrite Hr', Hr. exact Hsk.
    * rewrite Hl', Hlim. exact Hlen.
  + congruence.
- right. unfold in_cut in *. rewrite Hr', Hl', length_skipn. lia.
Qed.

(** With the budget used up, the session is ahead of the cut block. *)
Lemma amid_cut_closed (d : Dec) :
  amid_cut gv tail d -> limN d = 0 -> ahead_of_cut gv tail d.
Proof.
intros [H | H] Hlim; [left; exact H|].
unfold in_cut in H. lia.
Qed.

Lemma amid_cut_open (d : Dec) :
  amid_cut gv tail d -> 0 < SizeBlock d -> ahead_of_cut gv tail d.
Proof. intros [H | H] Hb; [left; exact H | right; auto]. Qed.

(** A turn of the loop never returns [io.EOF], and leaves the session
ahead of the cut or inside it when the loop goes round again. *)
Lemma turn_cut (l : nat) (acc : list byte) (d : Dec) :
  typed d -> ahead_of_cut gv tail d -> (SizeBlock d <> 0 -> quiet d) ->
  (length acc < l)%nat ->
  match Read_turn l acc d with
  | inl (Ret _ e _) => e <> Some EOF
  | inl _ => True
  | inr (_, d') => typed d' /\ ahead_of_cut gv tail d' /\ calm d'
  end.
Proof.
intros Ht Hahead Hquiet Hacc. unfold W3G.Read_turn.
destruct (if SizeBlock d =? 0 then nextBlock d else (None, d))
  as [e0 d1] eqn:Hopen.
pose proof (open_cut d d1 e0 Ht Hahead Hquiet Hopen) as Hopened.
destruct e0 as [e|]; [congruence|].
destruct Hopened as (Ht1 & Hamid1 & Hq1).
destruct (z d1) as [zs|] eqn:Hz1; [|exact I].
destruct (fill zs (l - length acc) d1) as [[out err] d2] eqn:Hfill.
pose proof (fill_typed _ _ _ _ _ _ Hfill Ht1) as Ht2.
pose proof Ht1 as (_ & _ & _ & _ & _ & Hlim1 & _).
destruct (fill_quiet zs (l - length acc) d1 out err d2 Hq1 Hz1
                     ltac:(lia) Hfill) as (Hne & Hq2).
destruct (fill_effect _ _ _ _ _ _ Hfill)
  as (k & c & zs' & Hrf & Hkr & Hkl & Hr2 & Hl2 & _ & _ & _ & _ & _
      & Hn2 & Hgv2 & _).
pose proof (amid_cut_took d1 d2 k Ht1 Hamid1 Hkr (Hkl Hlim1) Hr2 Hl2
                          Hgv2 Hn2) as Hamid2.
destruct err as [e|].
- destruct e as [| | |code]; try discriminate.
  + congruence.
  + destruct (closeBlock d2) as [e|] eqn:Hc.
    * destruct (closeBlock_Some _ _ Hc) as [-> | ->]; discriminate.
    * destruct (closeBlock_None_typed _ Ht2 Hc) as (Hb2 & Hlim2).
      split; [exact Ht2|]. split; [now apply amid_cut_closed|].
      intros _ H. contradiction.
- set (d3 := if (SizeTotal d2 =? 0) && (0 <? SizeBlock d2)
             then drain d2 else d2).
  assert (H3 : typed d3 /\ amid_cut gv tail d3 /\ calm d3).
  { subst d3. destruct (Z.eqb_spec (SizeTotal d2) 0) as [H0|H0].
    - destruct (0 <? SizeBlock d2); cbn [andb].
      + pose proof Ht2 as (_ & _ & _ & _ & _ & Hlim2 & _).
        destruct (drain_effect d2)
          as (k' & Hkr' & Hkl' & Hr3 & Hl3 & _ & _ & Hst3 & Hn3 & Hgv3 & _).
        split; [now apply drain_typed|]. split.
        * exact (amid_cut_took d2 (drain d2) k' Ht2 Hamid2 Hkr'
                               (Hkl' Hlim2) Hr3 Hl3 Hgv3 Hn3).
        * intros H. rewrite Hst3 in H. contradiction.
      + splits; auto. intros H. contradiction.
    - cbn [andb]. splits; auto. intros _ Hsb. now apply Hq2. }
  destruct H3 as (Ht3 & Hamid3 & Hcalm3).
  destruct (Z.ltb_spec 0 (SizeBlock d3)) as [Hb3|Hb3].
  + split; [exact Ht3|]. split; [now apply amid_cut_open | exact Hcalm3].
  + destruct (closeBlock d3) as [e|] eqn:Hc.
    * destruct (closeBlock_Some _ _ Hc) as [-> | ->]; discriminate.
    * destruct (closeBlock_None_typed _ Ht3 Hc) as (_ & Hlim3).
      split; [exact Ht3|]. split; [now apply amid_cut_closed|].
      exact Hcalm3.
Qed.

Lemma loop_cut (fuel l : nat) :
  forall (acc : list byte) (d : Dec),
    typed d -> ahead_of_cut gv tail d -> calm d ->
    (length acc <= l)%nat -> Z.of_nat (l - length acc) <= SizeTotal d ->
    match Read_loop fuel l acc d with
    | Ret _ (Some e) _ => e <> EOF
    | Ret _ None d' => typed d' /\ ahead_of_cut gv tail d' /\ calm d'
    | _ => True
    end.
Proof.
induction fuel as [|fuel IH]; intros acc d Ht Hahead Hcalm Hle Hwant.
- cbn [W3G.Read_loop]. destruct (length acc =? l)%nat; auto.
- rewrite Read_loop_unfold.
  destruct (Nat.eqb_spec (length acc) l) as [Hfull|Hfull]; [auto|].
  assert (Hlt : (length acc < l)%nat) by lia.
  assert (Hquiet : SizeBlock d <> 0 -> quiet d).
  { intros Hsb. apply Hcalm; [lia | exact Hsb]. }
  pose proof (turn_cut l acc d Ht Hahead Hquiet Hlt) as Hturn.
  pose proof (Read_turn_spec l acc d HC Ht Hlt) as Hspec.
  destruct (Read_turn l acc d) as [[out e d'| |] | [acc1 d1]] eqn:Hrt;
    auto.
  + destruct Hspec as (He & _).
    destruct e as [e|]; [congruence | contradiction].
  + destruct Hturn as (Ht1 & Hahead1 & Hcalm1).
    destruct Hspec as (_ & _ & Hle1 & _).
    destruct (Read_turn_owed l acc acc1 d d1 HC Ht Hlt Hwant Hrt)
      as (_ & Hwant1).
    exact (IH acc1 d1 Ht1 Hahead1 Hcalm1 Hle1 Hwant1).
Qed.

Lemma Read_cut (d : Dec) (lenb : nat) :
  typed d -> ahead_of_cut gv tail d -> calm d -> 0 < SizeTotal d ->
  Z.of_nat lenb < 2 ^ 32 ->
  match Read d lenb with
  | Ret _ (Some e) _ => e <> EOF
  | Ret _ None d' => typed d' /\ ahead_of_cut gv tail d' /\ calm d'
  | _ => True
  end.
Proof.
intros Ht Hahead Hcalm Hst Hl. unfold W3G.Read.
destruct (Z.eqb_spec (SizeTotal d) 0) as [H0|_]; [lia|].
apply loop_cut; auto.
- simpl. lia.
- rewrite clamp_min by lia. simpl. lia.
Qed.


Lemma ReadAll_cut (ls : list nat) :
  Forall (fun l => Z.of_nat l < 2 ^ 32) ls ->
  forall (d : Dec) (out : list byte),
    typed d -> ahead_of_cut gv tail d -> calm d ->
    ReadAll d ls = Some (out, Some EOF) ->
    Z.of_nat (length out) = SizeTotal d.
Proof.
induction 1 as [|l ls Hl _ IH]; intros d out Ht Hahead Hcalm Hall.
- discriminate.
- cbn [W3G.ReadAll] in Hall.
  pose proof Ht as (_ & _ & Hst & _).
  destruct (Z.eq_dec (SizeTotal d) 0) as [H0|H0].
  { rewrite Read_at_end in Hall by exact H0.
    inversion Hall; subst. simpl. lia. }
  pose proof (Read_cut d l Ht Hahead Hcalm ltac:(lia) Hl) as Hcut.
  destruct (Read d l) as [o [e|] d1| |] eqn:Hread; try discriminate.
  + inversion Hall; subst. contradiction.
  + destruct Hcut as (Ht1 & Hahead1 & Hcalm1).
    pose proof (Read_owed d d1 l o HC Ht Hl Hread) as Howed.
    destruct (ReadAll d1 ls) as [[rest e]|] eqn:Hrest; [|discriminate].
    inversion Hall; subst.
    rewrite length_app, Nat2Z.inj_add,
      (IH d1 rest Ht1 Hahead1 Hcalm1 Hrest).
    lia.
Qed.

(** C7, as the code has it.  Take a stream of whole blocks followed by a
block that is cut short, in a container that counts that block too, and
blocks whose compressed stream does not come to a clean end while [Read]
expects bytes of them, so that the engine does not answer [io.EOF] there.
A caller that reads from the start until the first error is never stopped
by [io.EOF] before all the bytes the container announced have been
delivered.  And once the session is inside the cut block, with bytes still
owed, the error that stops the caller is [io.ErrUnexpectedEOF] or an error
of the engine, unless all the bytes announced are delivered first. *)
Theorem cut_stream_session (bs : list block) (numBlocks total : Z)
        (ls : list nat) :
  Forall (whole gv) bs ->
  0 <= gv < 2 ^ 32 -> 0 <= total < 2 ^ 32 ->
  Z.of_nat (length bs) < numBlocks < 2 ^ 32 ->
  Forall (fun l => Z.of_nat l < 2 ^ 32) ls ->
  (forall out,
      ReadAll (NewDecompressor E (stream_of bs ++ tail) gv numBlocks total)
              ls = Some (out, Some EOF) ->
      Z.of_nat (length out) = total) /\
  (own_errors E ->
   forall d : Dec,
     typed d -> 0 < SizeTotal d -> cut_short d -> calm d ->
     match ReadAll d ls with
     | Some (out, Some e) =>
       (e = ErrUnexpectedEOF \/ engine_error e) \/
       (e = EOF /\ Z.of_nat (length out) = SizeTotal d)
     | Some (out, None) => Z.of_nat (length out) <= SizeTotal d
     | None => False
     end).
Proof.
intros Hwf Hgv Htot Hnum Hls. split.
- intros out Hall.
  set (d0 := NewDecompressor E (stream_of bs ++ tail) gv numBlocks total)
    in *.
  assert (Ht0 : typed d0) by (subst d0; unfold NewDecompressor; ranges).
  assert (Hahead : ahead_of_cut gv tail d0).
  { left. exists bs. split; [exact Hwf|].
    unfold W3G.before_cut. subst d0. unfold NewDecompressor. fields.
    splits; [reflexivity | | lia].
    exists []. split; reflexivity. }
  assert (Hcalm : calm d0).
  { intros _ Hsb. subst d0. unfold NewDecompressor in Hsb. fields.
    contradiction. }
  exact (ReadAll_cut ls Hls d0 out Ht0 Hahead Hcalm Hall).
- intros HE d Ht Hst Hcut Hcalm.
  exact (Read_cut_short_errors ls HC HE Hls d Ht Hst Hcut Hcalm).
Qed.


End CutStream.


(** * Further properties of the decompressor *)

(** ** Bytes owed, in every call *)

Lemma Read_turn_owed_return (l : nat) (acc out : list byte)
      (e : option error) (d d' : Dec) :
  ReadFull_contract E -> typed d -> (length acc < l)%nat ->
  Z.of_nat (l - length acc) <= SizeTotal d ->
  Read_turn l acc d = inl (Ret out e d') ->
  SizeTotal d' = SizeTotal d - (Z.of_nat (length out) - Z.of_nat (length acc)).
Proof.
intros HC Ht Hacc Hwant Hturn.
pose proof Ht as (_ & _ & Hst & _).
unfold W3G.Read_turn in Hturn.
destruct (if SizeBlock d =? 0 then nextBlock d else (None, d))
  as [[e0|] d1] eqn:Hopen.
{ destruct (open_inv _ _ _ Hopen) as (_ & Hst1 & _).
  inversion Hturn; subst. lia. }
destruct (open_inv _ _ _ Hopen) as (_ & Hst1 & _).
destruct (z d1) as [zs|]; [|discriminate].
destruct (fill zs (l - length acc) d1) as [[o err] d2] eqn:Hfill.
destruct (fill_effect _ _ _ _ _ _ Hfill)
  as (k & c & zs' & Hrf & _ & _ & _ & _ & _ & _ & _ & Hst2 & _).
destruct (HC _ _ _ _ _ _ _ Hrf) as (Hlen & _).
assert (Hst2' : SizeTotal d2 = SizeTotal d - Z.of_nat (length o)).
{ rewrite Hst2, Hst1.
  rewrite (uint32_small (Z.of_nat (length o))) by lia.
  apply uint32_small. lia. }
assert (Hgoal : forall d3 : Dec, SizeTotal d3 = SizeTotal d2 ->
          SizeTotal d3 = SizeTotal d
            - (Z.of_nat (length (acc ++ o)) - Z.of_nat (length acc))).
{ intros d3 H3. rewrite length_app. lia. }
destruct err as [[| | |code]|].
- inversion Hturn; subst. now apply Hgoal.
- destruct (closeBlock d2); [|discriminate].
  inversion Hturn; subst. now apply Hgoal.
- inversion Hturn; subst. now apply Hgoal.
- inversion Hturn; subst. now apply Hgoal.
- set (d3 := if (SizeTotal d2 =? 0) && (0 <? SizeBlock d2)
             then drain d2 else d2) in *.
  assert (H3 : SizeTotal d3 = SizeTotal d2).
  { subst d3. destruct ((SizeTotal d2 =? 0) && (0 <? SizeBlock d2));
      [|reflexivity].
    destruct (drain_effect d2) as (k' & _ & _ & _ & _ & _ & _ & H & _).
    exact H. }
  destruct (0 <? SizeBlock d3); [discriminate|].
  destruct (closeBlock d3); [|discriminate].
  inversion Hturn; subst out e d'. now apply Hgoal.
Qed.

Lemma Read_loop_owed_any (fuel l : nat) :
  ReadFull_contract E ->
  forall (acc : list byte) (d : Dec) (out : list byte) (e : option error)
         (d' : Dec),
    typed d -> (length acc <= l)%nat ->
    Z.of_nat (l - length acc) <= SizeTotal d ->
    Read_loop fuel l acc d = Ret out e d' ->
    SizeTotal d' = SizeTotal d - (Z.of_nat (length out) - Z.of_nat (length acc)).
Proof.
intros HC. induction fuel as [|fuel IH];
  intros acc d out e d' Ht Hle Hwant Hloop.
- cbn [W3G.Read_loop] in Hloop.
  destruct (length acc =? l)%nat; [|discriminate].
  inversion Hloop; subst. lia.
- rewrite Read_loop_unfold in Hloop.
  destruct (Nat.eqb_spec (length acc) l) as [Hfull|Hfull].
  { inversion Hloop; subst. lia. }
  assert (Hlt : (length acc < l)%nat) by lia.
  pose proof (Read_turn_spec l acc d HC Ht Hlt) as Hspec.
  destruct (Read_turn l acc d) as [res | [acc1 d1]] eqn:Hturn.
  + subst res.
    exact (Read_turn_owed_return l acc out e d d' HC Ht Hlt Hwant Hturn).
  + destruct Hspec as (Ht1 & _ & Hle1 & _).
    destruct (Read_turn_owed l acc acc1 d d1 HC Ht Hlt Hwant Hturn)
      as (Hst1 & Hwant1).
    rewrite (IH acc1 d1 out e d' Ht1 Hle1 Hwant1 Hloop), Hst1. lia.
Qed.

Lemma Read_owed_any (d d' : Dec) (lenb : nat) (out : list byte)
      (e : option error) :
  ReadFull_contract E -> typed d -> Z.of_nat lenb < 2 ^ 32 ->
  Read d lenb = Ret out e d' ->
  SizeTotal d' = SizeTotal d - Z.of_nat (length out).
Proof.
intros HC Ht Hlenb Hread.
pose proof Ht as (_ & _ & Hst & _).
unfold W3G.Read in Hread.
destruct (SizeTotal d =? 0).
{ inversion Hread; subst. simpl. lia. }
assert (Hle : (length (@nil byte) <= clamp d lenb)%nat) by (simpl; lia).
assert (Hwant : Z.of_nat (clamp d lenb - length (@nil byte))
                <= SizeTotal d).
{ rewrite clamp_min by lia. simpl. lia. }
rewrite (Read_loop_owed_any _ _ HC [] d out e d' Ht Hle Hwant Hread).
simpl. lia.
Qed.

Local Abbreviation delivered := W3G.delivered.

(** X1.  Over a whole session of calls with buffers shorter than [2^32]
bytes, whatever the calls return, the bytes delivered and the bytes still
owed add up to the bytes owed at the start: a session never delivers more
than the container announced, and [SizeTotal] is what is left even after a
call that failed. *)
Theorem session_delivers_total (ls : list nat) :
  ReadFull_contract E ->
  Forall (fun l => Z.of_nat l < 2 ^ 32) ls ->
  forall (d d' : Dec) (log : list (list byte * option error)),
    typed d -> ReadSeq d ls = (log, Some d') ->
    typed d' /\
    Z.of_nat (length (delivered log)) + SizeTotal d' = SizeTotal d.
Proof.
intros HC Hls. induction Hls as [|l ls Hl _ IH]; intros d d' log Ht Hseq.
- simpl in Hseq. inversion Hseq; subst. split; [exact Ht|]. simpl. lia.
- cbn [W3G.ReadSeq] in Hseq.
  destruct (Read d l) as [out e d1| |] eqn:Hread; try discriminate.
  destruct (ReadSeq d1 ls) as [log1 fin] eqn:Hseq1.
  inversion Hseq; subst log fin.
  destruct (Read_typed d l out e d1 HC Ht Hread) as (Ht1 & _).
  pose proof (Read_owed_any d d1 l out e HC Ht Hl Hread) as Howed.
  destruct (IH d1 d' log1 Ht1 Hseq1) as (Ht' & Hsum).
  split; [exact Ht'|].
  unfold W3G.delivered in *. cbn [map concat fst].
  rewrite length_app, Nat2Z.inj_add. lia.
Qed.


(** ** SizeRead and the position in the source *)

Local Abbreviation counted := (@W3G.counted E).

Lemma uint32_idem (x : Z) : uint32 (uint32 x) = uint32 x.
Proof. unfold uint32. apply Z.mod_mod. lia. Qed.

Lemma counted_refl (d : Dec) : counted d d.
Proof.
unfold W3G.counted. split; [lia|]. f_equal. lia.
Qed.

Lemma counted_trans (d1 d2 d3 : Dec) :
  counted d1 d2 -> counted d2 d3 -> counted d1 d3.
Proof.
intros (Hl1 & H1) (Hl2 & H2). unfold W3G.counted. split; [lia|].
rewrite H2, <- uint32_add_l, H1, uint32_add_l. f_equal. lia.
Qed.

(** A step that takes [k] bytes from the source and adds [k] to
[SizeRead]. *)
Lemma counted_step (d d' : Dec) (k : nat) :
  (k <= length (r d))%nat -> r d' = skipn k (r d) ->
  uint32 (SizeRead d') = uint32 (SizeRead d + Z.of_nat k) ->
  counted d d'.
Proof.
intros Hk Hr Hs. unfold W3G.counted.
rewrite Hr, length_skipn. split; [lia|].
rewrite Hs. f_equal. lia.
Qed.

Lemma startEngine_counted (lenDeflate : Z) (d : Dec) :
  0 <= lenDeflate < 2 ^ 32 ->
  counted d (snd (startEngine lenDeflate d)).
Proof.
intros Hl.
destruct (startEngine_effect lenDeflate d (proj1 Hl))
  as (k & Hk & Hkr & Hl1 & Hr1 & _ & Hsr & _).
apply (counted_step _ _ k Hkr Hr1).
rewrite Hsr, Hl1.
rewrite (uint32_small (lenDeflate - Z.of_nat k)) by lia.
rewrite uint32_idem, uint32_add_r. f_equal. lia.
Qed.

(** Whatever [nextBlock] returns, it has added to [SizeRead] the bytes it
took from the source: the header, whole or not, and the first bytes of the
engine. *)
Lemma nextBlock_counted (d : Dec) : counted d (snd (nextBlock d)).
Proof.
unfold W3G.nextBlock.
destruct (NumBlocks d =? 0); [apply counted_refl|].
destruct (closeBlock d); [apply counted_refl|].
unfold readHeader.
set (d0 := set_NumBlocks (uint32 (NumBlocks d - 1)) d).
set (lh := lenHead (GameVersion d0)).
set (got := firstn lh (r d0)).
set (dR := set_SizeRead (uint32 (SizeRead d0 + uint32 (Z.of_nat (length got))))
             (set_buf (got ++ skipn (length got) (buf d0))
                (set_r (skipn lh (r d0)) d0))).
assert (HR : counted d dR).
{ unfold W3G.counted. subst dR d0 got. fields.
  rewrite length_skipn, length_firstn. split; [lia|].
  rewrite uint32_idem, uint32_add_r. f_equal. lia. }
destruct (length got =? lh)%nat.
2:{ destruct (length got =? 0)%nat; exact HR. }
match goal with
| |- context [W3G.parseHeader _ _ ?g ?h] =>
  destruct (W3G.parseHeader ReadUInt16 ReadUInt32 g h)
    as [[[lenDeflate sizeBlock] crcHead] crcD] eqn:Hp
end.
destruct (parseHeader_range _ _ _ _ _ _ Hp) as (Ha & _).
match goal with
| |- context [if negb ?b then _ else _] => destruct b
end; simpl negb; cbv iota.
- match goal with
  | |- context [startEngine ?l ?x] =>
    apply (counted_trans d x); [|apply startEngine_counted; exact Ha]
  end.
  exact HR.
- exact HR.
Qed.

Lemma fill_counted (zs : zst E) (want : nat) (d d2 : Dec)
      (out : list byte) (err : option error) :
  fill zs want d = (out, err, d2) -> counted d d2.
Proof.
intros Hfill.
destruct (fill_effect _ _ _ _ _ _ Hfill)
  as (k & c & zs' & _ & Hkr & _ & Hr2 & Hl2 & _ & _ & Hsr & _).
apply (counted_step _ _ k Hkr Hr2).
rewrite Hsr, Hl2.
rewrite uint32_idem, uint32_add_r. f_equal. lia.
Qed.


Lemma turn_counted (l : nat) (acc : list byte) (d : Dec) :
  ReadFull_contract E -> (length acc < l)%nat ->
  match Read_turn l acc d with
  | inl (Ret _ _ d') => SizeTotal d' <> 0 -> counted d d'
  | inl _ => True
  | inr (acc', d') =>
    (length acc' <= l)%nat /\
    (counted d d' \/ (SizeTotal d' = 0 /\ length acc' = l))
  end.
Proof.
intros HC Hacc. unfold W3G.Read_turn.
destruct (if SizeBlock d =? 0 then nextBlock d else (None, d))
  as [e0 d1] eqn:Hopen.
assert (H1 : counted d d1).
{ destruct (SizeBlock d =? 0).
  - pose proof (nextBlock_counted d) as H. now rewrite Hopen in H.
  - inversion Hopen; subst. apply counted_refl. }
destruct e0 as [e|]; [intros _; exact H1|].
destruct (z d1) as [zs|]; [|exact I].
destruct (fill zs (l - length acc) d1) as [[out err] d2] eqn:Hfill.
pose proof (counted_trans _ _ _ H1 (fill_counted _ _ _ _ _ _ Hfill)) as H2.
destruct (fill_effect _ _ _ _ _ _ Hfill) as (k & c & zs' & Hrf & _).
destruct (HC _ _ _ _ _ _ _ Hrf) as (Hlen & Hnil).
assert (Hle : (length (acc ++ out) <= l)%nat) by (rewrite length_app; lia).
destruct err as [[| | |code]|]; try (intros _; exact H2).
- destruct (closeBlock d2); [intros _; exact H2 | auto].
- assert (Hfull : length (acc ++ out) = l).
  { rewrite length_app, (proj1 Hnil eq_refl). lia. }
  set (d3 := if (SizeTotal d2 =? 0) && (0 <? SizeBlock d2)
             then drain d2 else d2).
  assert (H3 : counted d d3 \/ SizeTotal d3 = 0).
  { subst d3. destruct ((SizeTotal d2 =? 0) && (0 <? SizeBlock d2)) eqn:Ec;
      [|left; exact H2].
    right. apply andb_true_iff in Ec. destruct Ec as (Ec & _).
    apply Z.eqb_eq in Ec.
    destruct (drain_effect d2) as (k' & _ & _ & _ & _ & _ & _ & H & _).
    congruence. }
  destruct (0 <? SizeBlock d3).
  + split; [exact Hle|]. destruct H3 as [H3 | H3]; [left | right]; auto.
  + destruct (closeBlock d3).
    * intros Hne. destruct H3 as [H3 | H3]; [exact H3 | contradiction].
    * split; [exact Hle|].
      destruct H3 as [H3 | H3]; [left | right]; auto.
Qed.

Lemma loop_counted (fuel l : nat) :
  ReadFull_contract E ->
  forall (acc : list byte) (d : Dec) (out : list byte) (e : option error)
         (d' : Dec),
    (length acc <= l)%nat ->
    Read_loop fuel l acc d = Ret out e d' ->
    SizeTotal d' <> 0 -> counted d d'.
Proof.
intros HC. induction fuel as [|fuel IH];
  intros acc d out e d' Hle Hloop Hne.
- cbn [W3G.Read_loop] in Hloop.
  destruct (length acc =? l)%nat; [|discriminate].
  inversion Hloop; subst. apply counted_refl.
- rewrite Read_loop_unfold in Hloop.
  destruct (Nat.eqb_spec (length acc) l) as [Hfull|Hfull].
  { inversion Hloop; subst. apply counted_refl. }
  assert (Hlt : (length acc < l)%nat) by lia.
  pose proof (turn_counted l acc d HC Hlt) as Hturn.
  destruct (Read_turn l acc d) as [res | [acc1 d1]].
  + subst res. now apply Hturn.
  + destruct Hturn as (Hle1 & [H1 | (H0 & Hfull1)]).
    * exact (counted_trans _ _ _ H1
               (IH acc1 d1 out e d' Hle1 Hloop Hne)).
    * rewrite Read_loop_done in Hloop by exact Hfull1.
      inversion Hloop; subst. contradiction.
Qed.

Lemma ReadSeq_at_end (d : Dec) (ls : list nat) :
  SizeTotal d = 0 -> snd (ReadSeq d ls) = Some d.
Proof.
intros H0. induction ls as [|l ls IH]; [reflexivity|].
cbn [W3G.ReadSeq]. rewrite Read_at_end by exact H0.
destruct (ReadSeq d ls) as [log fin]. exact IH.
Qed.

Lemma ReadSeq_typed (ls : list nat) :
  ReadFull_contract E ->
  forall (d d' : Dec) (log : list (list byte * option error)),
    typed d -> ReadSeq d ls = (log, Some d') -> typed d'.
Proof.
intros HC. induction ls as [|l ls IH]; intros d d' log Ht Hseq.
- simpl in Hseq. inversion Hseq; subst. exact Ht.
- cbn [W3G.ReadSeq] in Hseq.
  destruct (Read d l) as [out e d1| |] eqn:Hread; try discriminate.
  destruct (ReadSeq d1 ls) as [log1 fin] eqn:Hseq1.
  inversion Hseq; subst log fin.
  destruct (Read_typed d l out e d1 HC Ht Hread) as (Ht1 & _).
  exact (IH d1 d' log1 Ht1 Hseq1).
Qed.

Lemma Read_counted (d d' : Dec) (lenb : nat) (out : list byte)
      (e : option error) :
  ReadFull_contract E -> Read d lenb = Ret out e d' ->
  SizeTotal d' <> 0 -> counted d d'.
Proof.
intros HC Hread Hne. unfold W3G.Read in Hread.
destruct (SizeTotal d =? 0).
- inversion Hread; subst. apply counted_refl.
- apply (loop_counted _ _ HC [] d out e d' (Nat.le_0_l _) Hread Hne).
Qed.

(** X2.  As long as bytes are owed at the end of a session, [SizeRead]
has advanced, modulo [2^32], by exactly the number of bytes the session
took from the source, whatever the calls returned: header bytes, also of a
header cut short or refused, and every byte the engine took. *)
Theorem SizeRead_is_source_position (ls : list nat) :
  ReadFull_contract E ->
  forall (d d' : Dec) (log : list (list byte * option error)),
    typed d -> ReadSeq d ls = (log, Some d') -> SizeTotal d' <> 0 ->
    (length (r d') <= length (r d))%nat /\
    SizeRead d' =
    uint32 (SizeRead d
            + (Z.of_nat (length (r d)) - Z.of_nat (length (r d')))).
Proof.
intros HC d d' log Ht Hseq Hne.
pose proof (ReadSeq_typed ls HC d d' log Ht Hseq) as Ht'.
assert (H : counted d d').
{ clear Ht Ht'. revert d log Hseq.
  induction ls as [|l ls IH]; intros d log Hseq.
  - simpl in Hseq. inversion Hseq; subst. apply counted_refl.
  - cbn [W3G.ReadSeq] in Hseq.
    destruct (Read d l) as [out e d1| |] eqn:Hread; try discriminate.
    destruct (ReadSeq d1 ls) as [log1 fin] eqn:Hseq1.
    inversion Hseq; subst log fin.
    assert (Hne1 : SizeTotal d1 <> 0).
    { intros H0.
      pose proof (ReadSeq_at_end d1 ls H0) as Hstay.
      rewrite Hseq1 in Hstay. cbn [snd] in Hstay.
      inversion Hstay; subst. contradiction. }
    exact (counted_trans _ _ _ (Read_counted d d1 l out e HC Hread Hne1)
                         (IH d1 log1 Hseq1)). }
destruct H as (Hlen & Hs). split; [exact Hlen|].
rewrite <- Hs. symmetry. apply uint32_small.
destruct Ht' as (_ & Hsr & _). exact Hsr.
Qed.

(** ** What a session keeps *)

Local Abbreviation later := (@W3G.later E).

Lemma later_refl (d : Dec) : 0 <= NumBlocks d -> later d d.
Proof.
intros H. unfold later. splits; try lia. exists O. reflexivity.
Qed.

Lemma later_trans (d1 d2 d3 : Dec) : later d1 d2 -> later d2 d3 -> later d1 d3.
Proof.
intros (Hg1 & Hn1 & k1 & Hr1) (Hg2 & Hn2 & k2 & Hr2).
unfold later. splits; try congruence; try lia.
exists (k2 + k1)%nat. now rewrite Hr2, Hr1, skipn_skipn.
Qed.

Lemma nextBlock_source (d : Dec) :
  exists k : nat, r (snd (nextBlock d)) = skipn k (r d).
Proof.
unfold W3G.nextBlock.
destruct (NumBlocks d =? 0); [exists O; reflexivity|].
destruct (closeBlock d); [exists O; reflexivity|].
unfold readHeader.
set (d0 := set_NumBlocks (uint32 (NumBlocks d - 1)) d).
set (lh := lenHead (GameVersion d0)).
set (got := firstn lh (r d0)).
destruct (length got =? lh)%nat.
2:{ destruct (length got =? 0)%nat; exists lh; reflexivity. }
match goal with
| |- context [W3G.parseHeader _ _ ?g ?h] =>
  destruct (W3G.parseHeader ReadUInt16 ReadUInt32 g h)
    as [[[lenDeflate sizeBlock] crcHead] crcD] eqn:Hp
end.
destruct (parseHeader_range _ _ _ _ _ _ Hp) as (Ha & _).
match goal with
| |- context [if negb ?b then _ else _] => destruct b
end; simpl negb; cbv iota.
- match goal with
  | |- context [startEngine ?l ?x] =>
    destruct (startEngine_effect l x (proj1 Ha))
      as (k & _ & _ & _ & Hr1 & _)
  end.
  exists (k + lh)%nat. rewrite Hr1. fields. now rewrite skipn_skipn.
- exists lh. reflexivity.
Qed.

Lemma turn_later (l : nat) (acc : list byte) (d : Dec) :
  typed d ->
  match Read_turn l acc d with
  | inl (Ret _ _ d') => later d d'
  | inl _ => True
  | inr (_, d') => later d d'
  end.
Proof.
intros Ht. pose proof Ht as (_ & _ & _ & _ & Hnb & _).
unfold W3G.Read_turn.
destruct (if SizeBlock d =? 0 then nextBlock d else (None, d))
  as [e0 d1] eqn:Hopen.
assert (H1 : later d d1).
{ destruct (SizeBlock d =? 0).
  - pose proof (nextBlock_inv d) as Hinv.
    pose proof (nextBlock_source d) as Hsrc.
    rewrite Hopen in Hinv, Hsrc. cbn [snd] in Hsrc.
    destruct Hinv as (_ & _ & Hgv & Hcase).
    unfold later. splits; auto.
    + destruct Hcase as [(-> & _) | (Hn & _ & ->)]; [lia|].
      apply uint32_range.
    + destruct Hcase as [(-> & _) | (Hn & _ & ->)]; [lia|].
      rewrite uint32_small by lia. lia.
  - inversion Hopen; subst. apply later_refl. lia. }
destruct e0 as [e|]; [exact H1|].
destruct (z d1) as [zs|]; [|exact I].
destruct (fill zs (l - length acc) d1) as [[out err] d2] eqn:Hfill.
destruct (fill_effect _ _ _ _ _ _ Hfill)
  as (k & c & zs' & _ & _ & _ & Hr2 & _ & _ & _ & _ & _ & _ & Hn2 & Hg2 & _).
assert (H2 : later d d2).
{ apply (later_trans _ _ _ H1). destruct H1 as (_ & Hn1 & _).
  unfold later. splits; try congruence; try lia. exists k. exact Hr2. }
assert (H3 : later d (drain d2)).
{ apply (later_trans _ _ _ H2). destruct H2 as (_ & Hn2' & _).
  destruct (drain_effect d2)
    as (k' & _ & _ & Hr3 & _ & _ & _ & _ & Hn3 & Hg3 & _).
  unfold later. splits; try congruence; try lia. exists k'. exact Hr3. }
destruct err as [[| | |code]|]; try exact H2.
- destruct (closeBlock d2); exact H2.
- destruct ((SizeTotal d2 =? 0) && (0 <? SizeBlock d2)).
  + destruct (0 <? SizeBlock (drain d2)); [exact H3|].
    destruct (closeBlock (drain d2)); exact H3.
  + destruct (0 <? SizeBlock d2); [exact H2|].
    destruct (closeBlock d2); exact H2.
Qed.

Lemma loop_later (fuel l : nat) :
  ReadFull_contract E ->
  forall (acc : list byte) (d : Dec) (out : list byte) (e : option error)
         (d' : Dec),
    typed d -> (length acc <= l)%nat ->
    Read_loop fuel l acc d = Ret out e d' -> later d d'.
Proof.
intros HC. induction fuel as [|fuel IH];
  intros acc d out e d' Ht Hle Hloop;
  pose proof Ht as (_ & _ & _ & _ & Hnb & _).
- cbn [W3G.Read_loop] in Hloop.
  destruct (length acc =? l)%nat; [|discriminate].
  inversion Hloop; subst. apply later_refl. lia.
- rewrite Read_loop_unfold in Hloop.
  destruct (Nat.eqb_spec (length acc) l) as [Hfull|Hfull].
  { inversion Hloop; subst. apply later_refl. lia. }
  assert (Hlt : (length acc < l)%nat) by lia.
  pose proof (turn_later l acc d Ht) as Hturn.
  pose proof (Read_turn_spec l acc d HC Ht Hlt) as Hspec.
  destruct (Read_turn l acc d) as [res | [acc1 d1]].
  + subst res. exact Hturn.
  + destruct Hspec as (Ht1 & _ & Hle1 & _).
    exact (later_trans _ _ _ Hturn (IH acc1 d1 out e d' Ht1 Hle1 Hloop)).
Qed.

(** X3.  Every receiver a session reaches from one whose fields are
within their types (a fresh one is) keeps them so, with [lim.N] not
negative; it has the version tag it started with, no more blocks left than
before, and a source that only moved forward. *)
Theorem session_keeps (ls : list nat) :
  ReadFull_contract E ->
  forall (d d' : Dec) (log : list (list byte * option error)),
    typed d -> ReadSeq d ls = (log, Some d') ->
    typed d' /\ GameVersion d' = GameVersion d /\
    0 <= NumBlocks d' <= NumBlocks d /\
    exists k : nat, r d' = skipn k (r d).
Proof.
intros HC. induction ls as [|l ls IH]; intros d d' log Ht Hseq.
- simpl in Hseq. inversion Hseq; subst.
  pose proof Ht as (_ & _ & _ & _ & Hnb & _).
  split; [exact Ht|]. apply later_refl. lia.
- cbn [W3G.ReadSeq] in Hseq.
  destruct (Read d l) as [out e d1| |] eqn:Hread; try discriminate.
  destruct (ReadSeq d1 ls) as [log1 fin] eqn:Hseq1.
  inversion Hseq; subst log fin.
  destruct (Read_typed d l out e d1 HC Ht Hread) as (Ht1 & _).
  assert (H1 : later d d1).
  { pose proof Ht as (_ & _ & _ & _ & Hnb & _).
    unfold W3G.Read in Hread. destruct (SizeTotal d =? 0).
    - inversion Hread; subst. apply later_refl. lia.
    - exact (loop_later _ _ HC [] d out e d1 Ht (Nat.le_0_l _) Hread). }
  destruct (IH d1 d' log1 Ht1 Hseq1) as (Ht' & H2).
  split; [exact Ht'|]. exact (later_trans _ _ _ H1 H2).
Qed.


(** ** A source that ends where a header is due *)

(** X4.  Bytes are owed, the last block is closed, the container counts
another block, and the source has less than a header left.  A call with a
buffer that is not empty delivers nothing.  It returns [io.EOF] when the
source is empty, so a stream that stops between two blocks ends like a
stream read to its end, and [io.ErrUnexpectedEOF] when a part of the header
is there.  Either way the block is counted off, the bytes read are added to
[SizeRead] and the source is used up. *)
Theorem Read_header_missing (d : Dec) (lenb : nat) :
  0 < SizeTotal d -> SizeBlock d = 0 -> closeBlock d = None ->
  NumBlocks d <> 0 -> lenb <> O ->
  (length (r d) < lenHead (GameVersion d))%nat ->
  exists d',
    Read d lenb
    = Ret [] (Some (if (length (r d) =? 0)%nat then EOF
                    else ErrUnexpectedEOF)) d' /\
    r d' = [] /\ NumBlocks d' = uint32 (NumBlocks d - 1) /\
    SizeRead d' = uint32 (SizeRead d + uint32 (Z.of_nat (length (r d)))) /\
    SizeTotal d' = SizeTotal d /\ SizeBlock d' = 0 /\ z d' = z d.
Proof.
intros Hst Hb Hc Hn Hl Hshort.
pose proof (clamp_pos d lenb Hst Hl) as Hcl.
unfold W3G.Read.
destruct (Z.eqb_spec (SizeTotal d) 0) as [H0|_]; [lia|].
unfold Read_fuel. rewrite Read_loop_unfold.
destruct (Nat.eqb_spec (length (@nil byte)) (clamp d lenb)) as [H0|_];
  [simpl in H0; congruence|].
unfold W3G.Read_turn. rewrite Hb. change (0 =? 0) with true. cbv iota.
unfold W3G.nextBlock.
destruct (Z.eqb_spec (NumBlocks d) 0) as [H0|_]; [contradiction|].
rewrite Hc. unfold readHeader. fields.
rewrite firstn_all2 by lia.
destruct (Nat.eqb_spec (length (r d)) (lenHead (GameVersion d)))
  as [H0|_]; [lia|].
rewrite (@skipn_all2 _ (lenHead (GameVersion d)) (r d)) by lia.
destruct (length (r d) =? 0)%nat; eexists; (split; [reflexivity|]);
  fields; splits; auto.
Qed.


(** ** Calling again after the first block failed to open *)

Lemma startEngine_no_handle (lenDeflate : Z) (d : Dec) :
  z d = None -> fst (startEngine lenDeflate d) <> None ->
  z (snd (startEngine lenDeflate d)) = None.
Proof.
intros Hz. unfold startEngine.
destruct (zReset E (window (set_crc 0 (set_limN lenDeflate d))))
  as [[c err] zs].
destruct (consume_effect c (set_crc 0 (set_limN lenDeflate d)))
  as (k & _ & _ & _ & ->).
fields. rewrite Hz. destruct err; [reflexivity | congruence].
Qed.

Lemma Read_first_turn (d : Dec) (lenb : nat) :
  0 < SizeTotal d -> lenb <> O ->
  Read d lenb =
  match Read_turn (clamp d lenb) [] d with
  | inl res => res
  | inr (acc', d') => Read_loop (S (Z.to_nat (NumBlocks d))) (clamp d lenb) acc' d'
  end.
Proof.
intros Hst Hl.
pose proof (clamp_pos d lenb Hst Hl) as Hcl.
unfold W3G.Read.
destruct (Z.eqb_spec (SizeTotal d) 0) as [H0|_]; [lia|].
unfold Read_fuel. rewrite Read_loop_unfold.
destruct (Nat.eqb_spec (length (@nil byte)) (clamp d lenb)) as [H0|_];
  [simpl in H0; congruence | reflexivity].
Qed.

(** X5.  No engine has been created yet and the first block fails to open
after its header was read, for a header checksum that disagrees or because
[zlib.NewReader] fails, with a header that declares a size other than 0.
[Read] returns the error with nothing delivered; but [SizeBlock] already
holds the declared size while the engine handle is still nil, so the next
call with a buffer that is not empty reads from the nil handle and
panics. *)
Theorem Read_again_panics (d : Dec) (hdr rest : list byte)
        (lenb lenb' : nat) :
  0 < SizeTotal d -> SizeBlock d = 0 -> closeBlock d = None ->
  NumBlocks d <> 0 -> z d = None -> lenb <> O -> lenb' <> O ->
  r d = hdr ++ rest -> length hdr = lenHead (GameVersion d) ->
  declD (GameVersion d) hdr <> 0 ->
  fst (nextBlock d) <> None ->
  exists e d1,
    Read d lenb = Ret [] (Some e) d1 /\ Read d1 lenb' = Panic.
Proof.
intros Hst Hb Hc Hn Hz Hl Hl' Hr Hh Hdecl Hfail.
pose proof (nextBlock_header d hdr rest Hn Hc Hr Hh) as Hnb.
unfold W3G.declD in Hdecl.
destruct (parseHeader (GameVersion d) hdr)
  as [[[lenDeflate sizeBlock] crcHead] crcD] eqn:Hparse.
cbn [fst snd] in Hdecl.
destruct (parseHeader_range _ _ _ _ _ _ Hparse) as (Hld & _).
destruct (afterHeader_fields d hdr rest _ _ _ _ Hparse)
  as (_ & HzH & HsbH & _ & HstH & _).
assert (Hstate : exists e d1,
           nextBlock d = (Some e, d1) /\ z d1 = None /\
           SizeBlock d1 = sizeBlock /\ SizeTotal d1 = SizeTotal d).
{ destruct (crcHead =? fold16 (CRC32.ChecksumIEEE (zeroed hdr))).
  - rewrite Hnb in Hfail.
    pose proof (startEngine_no_handle lenDeflate (afterHeader d hdr rest)
                  ltac:(congruence) Hfail) as Hz1.
    destruct (startEngine_effect lenDeflate (afterHeader d hdr rest)
                                 (proj1 Hld))
      as (k & _ & _ & _ & _ & _ & _ & _ & Hst1 & Hsb1 & _).
    destruct (startEngine lenDeflate (afterHeader d hdr rest))
      as [[e|] d1]; [|contradiction].
    exists e, d1. cbn [snd] in *. splits; congruence.
  - exists ErrInvalidChecksum, (afterHeader d hdr rest).
    splits; congruence. }
destruct Hstate as (e & d1 & Hnb1 & Hz1 & Hsb1 & Hst1).
exists e, d1. split.
- rewrite Read_first_turn by assumption.
  unfold W3G.Read_turn. rewrite Hb. change (0 =? 0) with true. cbv iota.
  now rewrite Hnb1.
- rewrite Read_first_turn by (try assumption; lia).
  unfold W3G.Read_turn.
  destruct (Z.eqb_spec (SizeBlock d1) 0) as [H0|_]; [congruence|].
  now rewrite Hz1.
Qed.


(** ** When the nil engine handle is read *)

Lemma startEngine_handle (lenDeflate : Z) (d : Dec) :
  let '(e, d1) := startEngine lenDeflate d in
  (e = None \/ z d <> None) -> z d1 <> None.
Proof.
unfold startEngine.
destruct (zReset E (window (set_crc 0 (set_limN lenDeflate d))))
  as [[c err] zs].
destruct (consume_effect c (set_crc 0 (set_limN lenDeflate d)))
  as (k & _ & _ & _ & ->).
fields. intros [-> | Hz].
- destruct (z d); discriminate.
- destruct (z d); [|congruence]. destruct err; discriminate.
Qed.

Lemma nextBlock_handle (d : Dec) :
  let '(e, d1) := nextBlock d in
  (z d <> None -> z d1 <> None) /\ (e = None -> z d1 <> None).
Proof.
unfold W3G.nextBlock.
destruct (NumBlocks d =? 0); [split; [auto | discriminate]|].
destruct (closeBlock d); [split; [auto | discriminate]|].
unfold readHeader.
set (d0 := set_NumBlocks (uint32 (NumBlocks d - 1)) d).
set (lh := lenHead (GameVersion d0)).
set (got := firstn lh (r d0)).
destruct (length got =? lh)%nat.
2:{ destruct (length got =? 0)%nat; (split; [auto | discriminate]). }
match goal with
| |- context [W3G.parseHeader _ _ ?g ?h] =>
  destruct (W3G.parseHeader ReadUInt16 ReadUInt32 g h)
    as [[[lenDeflate sizeBlock] crcHead] crcD]
end.
match goal with
| |- context [if negb ?b then _ else _] => destruct b
end; simpl negb; cbv iota.
- match goal with
  | |- context [startEngine ?l ?x] =>
    pose proof (startEngine_handle l x) as Hs;
    destruct (startEngine l x) as [e d1]
  end.
  fields. split; intros H; apply Hs; auto.
- split; [auto | discriminate].
Qed.

(** A turn that reads from the engine leaves a handle behind; a turn
returns with an error only; and it panics only when it begins with a block
open and no handle. *)
Lemma turn_handle (l : nat) (acc : list byte) (d : Dec) :
  match Read_turn l acc d with
  | inl (Ret _ e d') => e <> None /\ (z d <> None -> z d' <> None)
  | inl Panic => z d = None /\ SizeBlock d <> 0
  | inl OutOfFuel => False
  | inr (_, d') => z d' <> None
  end.
Proof.
unfold W3G.Read_turn.
assert (Hfill : forall zs d1,
  (z d <> None -> z d1 <> None) ->
  match
    (let '(out, err, d2) := fill zs (l - length acc) d1 in
     match err with
     | None =>
       if 0 <? SizeBlock (if (SizeTotal d2 =? 0) && (0 <? SizeBlock d2)
                          then drain d2 else d2)
       then inr (acc ++ out, if (SizeTotal d2 =? 0) && (0 <? SizeBlock d2)
                             then drain d2 else d2)
       else
         match closeBlock (if (SizeTotal d2 =? 0) && (0 <? SizeBlock d2)
                           then drain d2 else d2) with
         | Some e => inl (Ret (acc ++ out) (Some e)
                              (if (SizeTotal d2 =? 0) && (0 <? SizeBlock d2)
                               then drain d2 else d2))
         | None => inr (acc ++ out,
                        if (SizeTotal d2 =? 0) && (0 <? SizeBlock d2)
                        then drain d2 else d2)
         end
     | Some ErrUnexpectedEOF =>
       match closeBlock d2 with
       | Some e => inl (Ret (acc ++ out) (Some e) d2)
       | None => inr (acc ++ out, d2)
       end
     | Some e => inl (Ret (acc ++ out) (Some e) d2)
     end : result E + list byte * Dec)
  with
  | inl (Ret _ e d') => e <> None /\ (z d <> None -> z d' <> None)
  | inl Panic => z d = None /\ SizeBlock d <> 0
  | inl OutOfFuel => False
  | inr (_, d') => z d' <> None
  end).
{ intros zs d1 _.
  destruct (fill zs (l - length acc) d1) as [[out err] d2] eqn:Hfill.
  destruct (fill_effect _ _ _ _ _ _ Hfill)
    as (k & c & zs' & _ & _ & _ & _ & _ & _ & Hz2 & _).
  assert (Hz : z d2 <> None) by congruence.
  destruct err as [[| | |c']|].
  - split; [discriminate | auto].
  - destruct (closeBlock d2); [|exact Hz].
    split; [discriminate | auto].
  - split; [discriminate | auto].
  - split; [discriminate | auto].
  - set (d3 := if (SizeTotal d2 =? 0) && (0 <? SizeBlock d2)
               then drain d2 else d2).
    assert (Hz3 : z d3 <> None).
    { subst d3. destruct ((SizeTotal d2 =? 0) && (0 <? SizeBlock d2));
        [now apply drain_z | exact Hz]. }
    destruct (0 <? SizeBlock d3); [exact Hz3|].
    destruct (closeBlock d3); [|exact Hz3].
    split; [discriminate | auto]. }
destruct (SizeBlock d =? 0) eqn:Eb.
- pose proof (nextBlock_handle d) as Hn.
  destruct (nextBlock d) as [[e|] d1].
  + destruct Hn as (Hn & _). split; [discriminate | exact Hn].
  + destruct Hn as (Hn & Hn'). specialize (Hn' eq_refl).
    destruct (z d1) as [zs|] eqn:Hz1; [|congruence].
    apply Hfill. intros _. congruence.
- apply Z.eqb_neq in Eb.
  destruct (z d) as [zs|] eqn:Hzd; [|split; [reflexivity | exact Eb]].
  apply Hfill. intros _. congruence.
Qed.

Lemma loop_handle (fuel l : nat) :
  forall (acc : list byte) (d : Dec),
    match Read_loop fuel l acc d with
    | Ret _ e d' =>
      (z d <> None -> z d' <> None) /\
      (e = None -> (z d = None -> SizeBlock d = 0) ->
       z d' = None -> SizeBlock d' = 0)
    | Panic => z d = None /\ SizeBlock d <> 0
    | OutOfFuel => True
    end.
Proof.
induction fuel as [|fuel IH]; intros acc d.
- cbn [W3G.Read_loop]. destruct (length acc =? l)%nat; [|exact I].
  split; auto.
- rewrite Read_loop_unfold.
  destruct (length acc =? l)%nat; [split; auto|].
  pose proof (turn_handle l acc d) as Ht.
  destruct (Read_turn l acc d) as [[out e d' | |] | [acc' d']].
  + destruct Ht as (He & Hz). split; [exact Hz|].
    intros ->. congruence.
  + exact Ht.
  + exact I.
  + specialize (IH acc' d').
    destruct (Read_loop fuel l acc' d') as [out e d''| |].
    * destruct IH as (Hz & _). split; [auto|].
      intros _ _ H. exfalso. exact (Hz Ht H).
    * destruct IH as (Hz & _). contradiction.
    * exact I.
Qed.

(** X6.  [Read] dereferences the nil engine handle in one situation only:
bytes are owed, the buffer is not empty, [SizeBlock] is not 0 and no engine
was ever created.  With a handle, or with no block open, it returns. *)
Theorem Read_panics_iff (d : Dec) (lenb : nat) :
  typed d ->
  (Read d lenb = Panic <->
   SizeTotal d <> 0 /\ lenb <> O /\ SizeBlock d <> 0 /\ z d = None).
Proof.
intros Ht. split.
- intros HP. unfold W3G.Read in HP.
  destruct (Z.eqb_spec (SizeTotal d) 0) as [|Hst]; [discriminate|].
  pose proof (loop_handle (Read_fuel d) (clamp d lenb) [] d) as Hl.
  rewrite HP in Hl. destruct Hl as (Hz & Hb).
  splits; auto. intros ->.
  unfold Read_fuel in HP. rewrite Read_loop_unfold in HP.
  assert (Hc : clamp d O = O).
  { unfold clamp. change (uint32 (Z.of_nat 0)) with 0.
    destruct Ht as (_ & _ & Hr & _).
    destruct (Z.ltb_spec (SizeTotal d) 0); [lia | reflexivity]. }
  rewrite Hc in HP. discriminate.
- intros (Hst & Hl & Hb & Hz).
  destruct Ht as (_ & _ & Hr & _).
  rewrite Read_first_turn by (try assumption; lia).
  unfold W3G.Read_turn.
  destruct (Z.eqb_spec (SizeBlock d) 0) as [|_]; [contradiction|].
  now rewrite Hz.
Qed.

(** X7.  A session that starts with no block open, or with an engine, and
in which every call so far returned a nil error, does not panic: whatever
the buffer lengths, every call returns. *)
Theorem session_without_error_returns (ls : list nat) :
  ReadFull_contract E ->
  forall (d : Dec) (log : list (list byte * option error))
         (fin : option Dec),
    typed d -> (z d = None -> SizeBlock d = 0) ->
    ReadSeq d ls = (log, fin) -> Forall (fun oe => snd oe = None) log ->
    length log = length ls /\
    exists d', fin = Some d' /\ (z d' = None -> SizeBlock d' = 0).
Proof.
intros HC. induction ls as [|l ls IH]; intros d log fin Ht HJ Hseq Hnil.
- cbn in Hseq. inversion Hseq; subst. split; [reflexivity|]. eauto.
- cbn [W3G.ReadSeq] in Hseq.
  pose proof (Read_total d l HC Ht) as Htot.
  destruct (Read d l) as [out e d1| |] eqn:HR.
  + destruct (Read_typed d l out e d1 HC Ht HR) as (Ht1 & _).
    destruct (ReadSeq d1 ls) as [log1 fin1] eqn:Hseq1.
    inversion Hseq; subst. inversion Hnil as [|x xs He Hnil1]; subst.
    cbn [snd] in He. subst e.
    assert (HJ1 : z d1 = None -> SizeBlock d1 = 0).
    { unfold W3G.Read in HR.
      destruct (SizeTotal d =? 0); [discriminate|].
      pose proof (loop_handle (Read_fuel d) (clamp d l) [] d) as Hl.
      rewrite HR in Hl. destruct Hl as (_ & Hl). now apply Hl. }
    destruct (IH d1 log1 fin Ht1 HJ1 Hseq1 Hnil1) as (Hlen & Hfin).
    split; [cbn; now rewrite Hlen | exact Hfin].
  + exfalso.
    pose proof (loop_handle (Read_fuel d) (clamp d l) [] d) as Hl.
    unfold W3G.Read in HR.
    destruct (SizeTotal d =? 0); [discriminate|].
    rewrite HR in Hl. destruct Hl as (Hz & Hb). auto.
  + contradiction.
Qed.

(** ** The byte reader of the engine *)

Lemma consume_nothing (c : nat) (d : Dec) : window d = [] -> consume c d = d.
Proof.
intros Hw. unfold consume. rewrite Hw. cbn [length].
rewrite Nat.min_0_r. cbn [firstn skipn]. rewrite update_nil, Z.sub_0_r.
destruct d. reflexivity.
Qed.

Lemma window_cons (d : Dec) (x : byte) (w : list byte) :
  window d = x :: w ->
  0 < limN d /\ exists r', r d = x :: r' /\
                           w = firstn (Z.to_nat (limN d - 1)) r'.
Proof.
unfold window. intros Hw.
destruct (Z.to_nat (limN d)) as [|n] eqn:Hn; [discriminate|].
split; [lia|].
destruct (r d) as [|y r']; [discriminate|].
cbn [firstn] in Hw. inversion Hw; subst.
exists r'. split; [reflexivity|].
replace (Z.to_nat (limN d - 1)) with n by lia. reflexivity.
Qed.

Lemma consume_succ (k : nat) (d : Dec) (x : byte) (r' : list byte) :
  0 < limN d -> r d = x :: r' ->
  consume k (set_crc (CRC32.update (crc d) [x])
               (set_limN (limN d - 1) (set_r r' d)))
  = consume (S k) d.
Proof.
intros Hl Hr. unfold consume, window. fields. rewrite Hr.
replace (Z.to_nat (limN d)) with (S (Z.to_nat (limN d - 1))) by lia.
cbn [firstn length].
rewrite <- Nat.succ_min_distr.
set (m := Nat.min k (length (firstn (Z.to_nat (limN d - 1)) r'))).
cbn [firstn skipn].
rewrite update_app. cbn [app].
replace (limN d - 1 - Z.of_nat m) with (limN d - Z.of_nat (S m)) by lia.
reflexivity.
Qed.

Lemma last_cons_default (A : Type) (l : list A) (x b : A) :
  last (x :: l) b = last l x.
Proof.
revert x b. induction l as [|y l IH]; intros x b; [reflexivity|].
change (last (x :: y :: l) b) with (last (y :: l) b).
now rewrite (IH y b), (IH y x).
Qed.

(** X10.  The byte reader handed to the engine reads through the limited
reader and the tee: [k] calls of [ReadByte] deliver the first [k] bytes of
the window, which leave the source, are charged to [lim.N] and enter the
digest, exactly as one transfer of [k] bytes does.  A call beyond the end of
the window returns [io.EOF] with the byte of the call before and takes
nothing from the source, whatever bytes follow the block's budget. *)
Theorem ReadBytes_consume (k : nat) :
  forall (b : byte) (d : Dec),
    ReadBytes k b d =
    (firstn k (window d),
     if (k <=? length (window d))%nat then None else Some EOF,
     (last (firstn k (window d)) b, consume k d)).
Proof.
induction k as [|k IH]; intros b d.
- cbn [W3G.ReadBytes firstn last Nat.leb].
  unfold consume. cbn [Nat.min firstn skipn].
  rewrite update_nil, Z.sub_0_r. destruct d. reflexivity.
- cbn [W3G.ReadBytes]. unfold ReadByte.
  destruct (window d) as [|x w] eqn:Hw.
  + rewrite (consume_nothing (S k) d Hw).
    cbn [firstn last length Nat.leb].
    unfold window in Hw.
    destruct (Z.leb_spec (limN d) 0) as [|Hl]; [reflexivity|].
    destruct (r d) as [|y r']; [reflexivity|].
    destruct (Z.to_nat (limN d)) eqn:Hn; [lia | discriminate].
  + destruct (window_cons d x w Hw) as (Hl & r' & Hr & Hw').
    destruct (Z.leb_spec (limN d) 0) as [|_]; [lia|].
    rewrite Hr. rewrite IH.
    rewrite (consume_succ k d x r' Hl Hr).
    assert (Hwin : window (set_crc (CRC32.update (crc d) [x])
                             (set_limN (limN d - 1) (set_r r' d))) = w).
    { unfold window. fields. symmetry. exact Hw'. }
    rewrite Hwin. cbn [firstn length Nat.leb].
    rewrite last_cons_default. reflexivity.
Qed.


(** ** Every block a session passes is verified *)

Local Abbreviation sealed := (@W3G.sealed ReadUInt16 ReadUInt32).
Local Abbreviation header_sealed := (@W3G.header_sealed ReadUInt16 ReadUInt32).
Local Abbreviation in_block := (@W3G.in_block E ReadUInt16 ReadUInt32).
Local Abbreviation verifying := (@W3G.verifying E ReadUInt16 ReadUInt32).

(** With the open block closed, the session stands between two blocks, and
every block before that point has both checksums right. *)
Lemma verifying_boundary (gv : Z) (bs : list block) (d : Dec) :
  verifying gv bs d -> closeBlock d = None ->
  exists done rest : list block,
    bs = done ++ rest /\ r d = stream_of rest /\ Forall (sealed gv) done.
Proof.
intros (Hgv & [(Hb & Hr) | Hcur]) Hc.
- exists [], bs. splits; auto.
- destruct Hcur as (done & b & rest & k & Hbs & Hdone & Hh & Hcd & Hk & Hr
                    & Hl & Hcrc).
  destruct (closeBlock_None d Hc) as (_ & Hl0 & Hsum).
  assert (Hk' : k = length (snd b)) by lia. subst k.
  exists (done ++ [b]), rest. splits.
  + rewrite <- app_assoc. exact Hbs.
  + rewrite Hr, skipn_all. reflexivity.
  + apply Forall_app. split; [exact Hdone|].
    constructor; [|constructor]. split; [exact Hh|].
    rewrite <- Hcd, Hsum, Hcrc, firstn_all. reflexivity.
Qed.

(** Opening the next block from between two blocks. *)
Lemma verifying_open (gv : Z) (bs : list block) (d d1 : Dec) :
  Forall (wf_block gv) bs ->
  verifying gv bs d -> nextBlock d = (None, d1) ->
  GameVersion d1 = gv /\ in_block gv bs d1.
Proof.
intros Hwf Hv Hnb.
pose proof (nextBlock_inv d) as Hinv. rewrite Hnb in Hinv.
destruct Hinv as (_ & _ & Hgv1 & [(_ & Hne) | (Hn & Hc & _)]);
  [congruence|].
destruct (verifying_boundary gv bs d Hv Hc)
  as (done & rest & Hbs & Hr & Hdone).
destruct Hv as (Hgv & _).
destruct rest as [|b rest].
{ pose proof (nextBlock_empty_source d Hr) as H. rewrite Hnb in H.
  now contradiction H. }
assert (Hwfb : wf_block gv b).
{ rewrite Hbs in Hwf. apply Forall_app in Hwf. destruct Hwf as (_ & Hwf).
  now inversion Hwf. }
destruct Hwfb as (Hh & Hp).
rewrite stream_of_cons in Hr. rewrite <- Hgv in Hh.
pose proof (nextBlock_header d (fst b) (snd b ++ stream_of rest)
              Hn Hc Hr Hh) as Hnb'.
unfold W3G.declC in Hp. rewrite <- Hgv in Hp.
destruct (parseHeader (GameVersion d) (fst b))
  as [[[lenDeflate sizeBlock] crcHead] crcD] eqn:Hparse.
cbn [fst] in Hp.
destruct (parseHeader_range _ _ _ _ _ _ Hparse) as (Hld & _).
destruct (afterHeader_fields d (fst b) (snd b ++ stream_of rest)
                             _ _ _ _ Hparse)
  as (HrH & _ & _ & HcdH & _ & _ & HgvH & _).
destruct (Z.eqb_spec crcHead (fold16 (CRC32.ChecksumIEEE (zeroed (fst b)))))
  as [Hhead|_].
2:{ rewrite Hnb' in Hnb. discriminate. }
destruct (startEngine_effect lenDeflate
            (afterHeader d (fst b) (snd b ++ stream_of rest)) (proj1 Hld))
  as (k & Hk & Hkr & Hl1 & Hr1 & Hcrc1 & _ & Hgv1' & _ & _ & _ & Hcd1).
rewrite <- Hnb', Hnb in Hl1, Hr1, Hcrc1, Hgv1', Hcd1.
cbn [snd] in Hl1, Hr1, Hcrc1, Hgv1', Hcd1.
assert (Hka : (k <= length (snd b))%nat) by lia.
split; [congruence|].
exists done, b, rest, k. splits; auto.
- unfold W3G.header_sealed, W3G.declHead. rewrite <- Hgv, Hparse. exact Hhead.
- unfold W3G.declData. rewrite <- Hgv, Hparse. cbn [snd]. congruence.
- rewrite Hr1, HrH.
  destruct (aligned_skip k (snd b) (stream_of rest) Hka) as (Hsk & _).
  exact Hsk.
- lia.
- rewrite Hcrc1, HrH, firstn_app.
  replace (k - length (snd b))%nat with O by lia.
  cbn [firstn]. now rewrite app_nil_r.
Qed.

(** Bytes the engine takes from the open block go through the digest. *)
Lemma in_block_took (gv : Z) (bs : list block) (d d2 : Dec) (k' : nat) :
  in_block gv bs d -> crcData d2 = crcData d ->
  (0 <= limN d -> Z.of_nat k' <= limN d) ->
  r d2 = skipn k' (r d) -> limN d2 = limN d - Z.of_nat k' ->
  crc d2 = CRC32.update (crc d) (firstn k' (r d)) ->
  in_block gv bs d2.
Proof.
intros Hcur Hcd2 Hk' Hr2 Hl2 Hcrc2.
destruct Hcur as (done & b & rest & k & Hbs & Hdone & Hh & Hcd & Hk & Hr
                  & Hl & Hcrc).
assert (Hle : (k' <= length (skipn k (snd b)))%nat).
{ rewrite length_skipn. lia. }
exists done, b, rest, (k + k')%nat. splits; auto.
- congruence.
- rewrite length_skipn in Hle. lia.
- rewrite Hr2, Hr.
  destruct (aligned_skip k' (skipn k (snd b)) (stream_of rest) Hle)
    as (Hsk & _).
  rewrite Hsk, skipn_skipn. f_equal. f_equal. lia.
- lia.
- rewrite Hcrc2, Hcrc, Hr, update_app, firstn_app.
  replace (k' - length (skipn k (snd b)))%nat with O by lia.
  cbn [firstn]. rewrite app_nil_r, <- firstn_add. reflexivity.
Qed.


Lemma turn_verifying (gv : Z) (bs : list block) (l : nat)
      (acc : list byte) (d : Dec) :
  Forall (wf_block gv) bs -> verifying gv bs d ->
  match Read_turn l acc d with
  | inr (_, d') => verifying gv bs d'
  | inl _ => True
  end.
Proof.
intros Hwf Hv. unfold W3G.Read_turn.
destruct (if SizeBlock d =? 0 then nextBlock d else (None, d))
  as [[e|] d1] eqn:Hopen; [exact I|].
assert (Hop : GameVersion d1 = gv /\ in_block gv bs d1).
{ destruct (Z.eqb_spec (SizeBlock d) 0) as [Hb|Hb].
  - exact (verifying_open gv bs d d1 Hwf Hv Hopen).
  - inversion Hopen; subst d1.
    destruct Hv as (Hgv & [(Hb0 & _) | Hcur]); [contradiction | auto]. }
destruct Hop as (Hgv1 & Hop).
destruct (z d1) as [zs|]; [|exact I].
destruct (fill zs (l - length acc) d1) as [[out err] d2] eqn:Hfill.
destruct (fill_effect _ _ _ _ _ _ Hfill)
  as (k & c & zs' & _ & _ & Hk & Hr2 & Hl2 & Hcrc2 & _ & _ & _ & _ & _
      & Hgv2 & Hcd2).
pose proof (in_block_took gv bs d1 d2 k Hop Hcd2 Hk Hr2 Hl2 Hcrc2) as Hop2.
assert (Hv2 : verifying gv bs d2) by (split; [congruence | now right]).
destruct err as [[| | |c']|]; try exact I.
- destruct (closeBlock d2); [exact I | exact Hv2].
- set (d3 := if (SizeTotal d2 =? 0) && (0 <? SizeBlock d2)
             then drain d2 else d2).
  assert (Hv3 : verifying gv bs d3).
  { subst d3. destruct ((SizeTotal d2 =? 0) && (0 <? SizeBlock d2));
      [|exact Hv2].
    destruct (drain_effect d2)
      as (k3 & _ & Hk3 & Hr3 & Hl3 & Hcrc3 & _ & _ & _ & Hgv3 & Hcd3 & _).
    split; [congruence|]. right.
    exact (in_block_took gv bs d2 (drain d2) k3 Hop2 Hcd3 Hk3 Hr3 Hl3 Hcrc3). }
  destruct (0 <? SizeBlock d3); [exact Hv3|].
  destruct (closeBlock d3); [exact I | exact Hv3].
Qed.

Lemma loop_verifying (gv : Z) (bs : list block) (fuel l : nat) :
  Forall (wf_block gv) bs ->
  forall (acc : list byte) (d : Dec),
    verifying gv bs d ->
    match Read_loop fuel l acc d with
    | Ret _ None d' => verifying gv bs d'
    | _ => True
    end.
Proof.
intros Hwf. induction fuel as [|fuel IH]; intros acc d Hv.
- cbn [W3G.Read_loop]. destruct (length acc =? l)%nat; [exact Hv | exact I].
- rewrite Read_loop_unfold.
  destruct (length acc =? l)%nat; [exact Hv|].
  pose proof (turn_verifying gv bs l acc d Hwf Hv) as Ht.
  pose proof (turn_handle l acc d) as Hh.
  destruct (Read_turn l acc d) as [[out e d' | |] | [acc' d']].
  + destruct Hh as (He & _). destruct e; [exact I | congruence].
  + exact I.
  + exact I.
  + exact (IH acc' d' Ht).
Qed.

(** X11.  A session over a stream of blocks in which every call returned a
nil error, and which ends with the open block closed: the session stands
between two blocks of the stream, and every block it has passed was
verified, its header checksum being the folded CRC-32 of the header with
the checksum fields zeroed and its payload checksum the folded CRC-32 of
its compressed bytes.  So no byte of a block with a wrong checksum is
passed over without an error. *)
Theorem session_verifies_blocks (gv : Z) (bs : list block) (ls : list nat) :
  Forall (wf_block gv) bs ->
  forall (d d' : Dec) (log : list (list byte * option error)),
    GameVersion d = gv -> SizeBlock d = 0 -> r d = stream_of bs ->
    ReadSeq d ls = (log, Some d') ->
    Forall (fun oe => snd oe = None) log ->
    closeBlock d' = None ->
    exists done rest : list block,
      bs = done ++ rest /\ r d' = stream_of rest /\
      Forall (sealed gv) done.
Proof.
intros Hwf d d' log Hgv Hb Hr Hseq Hnil Hc.
apply (verifying_boundary gv bs d'); [|exact Hc].
assert (Hv : verifying gv bs d) by (split; [exact Hgv | left; auto]).
clear Hgv Hb Hr Hc.
revert d log Hv Hseq Hnil.
induction ls as [|l ls IH]; intros d log Hv Hseq Hnil.
- cbn in Hseq. inversion Hseq; subst. exact Hv.
- cbn [W3G.ReadSeq] in Hseq.
  destruct (Read d l) as [out e d1| |] eqn:HR; try discriminate.
  destruct (ReadSeq d1 ls) as [log1 fin1] eqn:Hseq1.
  inversion Hseq; subst. inversion Hnil as [|x xs He Hnil1]; subst.
  cbn [snd] in He. subst e.
  apply (IH d1 log1); auto.
  unfold W3G.Read in HR.
  destruct (SizeTotal d =? 0); [discriminate|].
  pose proof (loop_verifying gv bs (Read_fuel d) (clamp d l) Hwf [] d Hv)
    as Hl.
  now rewrite HR in Hl.
Qed.


(** ** The loop ends *)

Lemma Read_loop_more_fuel (fuel l : nat) :
  forall (acc : list byte) (d : Dec) (n : nat),
    Read_loop fuel l acc d <> OutOfFuel ->
    Read_loop (fuel + n) l acc d = Read_loop fuel l acc d.
Proof.
induction fuel as [|fuel IH]; intros acc d n.
- cbn [W3G.Read_loop Nat.add].
  destruct (length acc =? l)%nat eqn:Ef; [|congruence].
  intros _. destruct n as [|n]; [cbn [W3G.Read_loop]; now rewrite Ef|].
  rewrite Read_loop_unfold. now rewrite Ef.
- cbn [Nat.add]. rewrite !Read_loop_unfold.
  destruct (length acc =? l)%nat; [reflexivity|].
  destruct (Read_turn l acc d) as [res | [acc' d']]; [reflexivity|].
  apply IH.
Qed.

(** X12.  With bytes owed, the loop of [Read] ends within
[NumBlocks + 2] turns: the call returns, or it panics on the nil engine
handle, and granting the loop more turns does not change what it does. *)
Theorem Read_turns_bounded (d : Dec) (lenb : nat) :
  ReadFull_contract E -> typed d -> SizeTotal d <> 0 ->
  exists res : result E,
    (res = Panic \/ exists out e d', res = Ret out e d') /\
    Read d lenb = res /\
    forall n : nat,
      Read_loop (S (S (Z.to_nat (NumBlocks d))) + n) (clamp d lenb) [] d
      = res.
Proof.
intros HC Ht Hst.
pose proof (Read_total d lenb HC Ht) as Htot.
unfold W3G.Read in *.
destruct (Z.eqb_spec (SizeTotal d) 0) as [|_]; [contradiction|].
unfold Read_fuel in *.
exists (Read_loop (S (S (Z.to_nat (NumBlocks d)))) (clamp d lenb) [] d).
splits.
- destruct (Read_loop (S (S (Z.to_nat (NumBlocks d)))) (clamp d lenb) [] d)
    as [out e d'| |]; [right; eauto | left; reflexivity | contradiction].
- reflexivity.
- intros n. now apply Read_loop_more_fuel.
Qed.

(** ** After a block failed to close *)

(** X13.  A block that failed to close stays so.  With no decompressed
byte of the block left to deliver, blocks left in the container and bytes
owed, a call with a buffer that is not empty returns the error of
[closeBlock] again, [io.ErrUnexpectedEOF] for compressed bytes left over
or [ErrInvalidChecksum], delivers nothing and leaves the receiver as it
was; so does every call after it. *)
Theorem close_error_persists (ls : list nat) :
  forall (d : Dec) (e : error),
    closeBlock d = Some e -> SizeBlock d = 0 -> NumBlocks d <> 0 ->
    0 < SizeTotal d -> Forall (fun l => l <> O) ls ->
    ReadSeq d ls = (map (fun _ => ([], Some e)) ls, Some d).
Proof.
intros d e Hc Hb Hn Hst Hls.
induction Hls as [|l ls Hl _ IH]; [reflexivity|].
cbn [W3G.ReadSeq map].
rewrite Read_first_turn by assumption.
unfold W3G.Read_turn. rewrite Hb. change (0 =? 0) with true. cbv iota.
unfold W3G.nextBlock.
destruct (Z.eqb_spec (NumBlocks d) 0) as [|_]; [contradiction|].
rewrite Hc. rewrite IH. reflexivity.
Qed.


(** ** A block that holds more than it declares *)

(** X14.  The decompressed size a header declares does not bound what
[Read] takes from the block.  With a block open that declares [SizeBlock]
bytes more, a buffer longer than that and shorter than what is owed, and an
engine that fills the buffer, [Read] delivers the whole buffer with a nil
error, more bytes than the block declared; [SizeBlock] wraps around to
[2^32 + SizeBlock - len(b)], so the block stays open and is not closed. *)
Theorem Read_past_declared_size (d : Dec) (zs : zst E) (lenb : nat)
        (out : list byte) (d2 : Dec) :
  ReadFull_contract E -> typed d ->
  0 < SizeBlock d -> z d = Some zs ->
  SizeBlock d < Z.of_nat lenb -> Z.of_nat lenb < SizeTotal d ->
  fill zs lenb d = (out, None, d2) ->
  Read d lenb = Ret out None d2 /\
  SizeBlock d < Z.of_nat (length out) /\
  SizeBlock d2 = 2 ^ 32 + SizeBlock d - Z.of_nat lenb /\
  SizeTotal d2 = SizeTotal d - Z.of_nat lenb.
Proof.
intros HC Ht Hsb Hz Hlt Hst Hfill.
destruct Ht as (_ & _ & Ht & Hb & _).
destruct (fill_effect _ _ _ _ _ _ Hfill)
  as (k & c & zs' & Hrf & _ & _ & _ & _ & _ & _ & _ & H1 & H2 & _).
destruct (HC _ _ _ _ _ _ _ Hrf) as (_ & Hnil).
assert (Hlen : length out = lenb) by (now apply Hnil).
rewrite Hlen in H1, H2.
rewrite (uint32_small (Z.of_nat lenb)) in H1, H2 by lia.
rewrite uint32_small in H1 by lia.
assert (H2' : SizeBlock d2 = 2 ^ 32 + SizeBlock d - Z.of_nat lenb).
{ rewrite H2. unfold uint32.
  replace (SizeBlock d - Z.of_nat lenb)
    with (2 ^ 32 + SizeBlock d - Z.of_nat lenb + (-1) * 2 ^ 32) by lia.
  rewrite Z.mod_add by lia. apply Z.mod_small. lia. }
split; [|splits; [lia | exact H2' | exact H1]].
rewrite Read_first_turn by lia.
assert (Hc : clamp d lenb = lenb).
{ unfold clamp. rewrite uint32_small by lia.
  destruct (Z.ltb_spec (SizeTotal d) (Z.of_nat lenb)); [lia | reflexivity]. }
rewrite Hc. unfold W3G.Read_turn.
destruct (Z.eqb_spec (SizeBlock d) 0) as [H0|_]; [lia|].
rewrite Hz. change (length (@nil byte)) with O. rewrite Nat.sub_0_r.
rewrite Hfill.
destruct (Z.eqb_spec (SizeTotal d2) 0) as [H0|_]; [lia|].
cbn [andb].
destruct (Z.ltb_spec 0 (SizeBlock d2)) as [_|H0]; [|lia].
cbn [app]. apply Read_loop_done. exact Hlen.
Qed.


End Properties.

(** ** ForEach *)

Section ForEachProps.

Variable Rec : Type.
Variable St : Type.
Variable decode : St -> (Rec + error) * St.
Variable A : Type.
Variable f : A -> Rec -> option error * A.

Local Abbreviation run := (ForEach decode (journal f)).

Lemma ForEach_all (s : St) (recs : list Rec) (s' : St) :
  decodes decode s recs s' ->
  forall (a a' : A) (log : list Rec) (fuel : nat),
    accepts f a recs = Some a' -> (length recs < fuel)%nat ->
    run fuel s (a, log) = Done None s' (a', log ++ recs).
Proof.
  induction 1 as [s s' Hd | s rec s1 recs s' Hd _ IH];
    intros a a' log fuel Hacc Hfuel.
  - destruct fuel as [|fuel]; [simpl in Hfuel; lia|].
    simpl in Hacc. inversion Hacc; subst.
    simpl. rewrite Hd, app_nil_r. reflexivity.
  - destruct fuel as [|fuel]; [simpl in Hfuel; lia|].
    simpl in Hacc, Hfuel.
    destruct (f a rec) as [[e|] a1] eqn:Hf; [discriminate|].
    simpl. rewrite Hd. unfold journal at 1. simpl. rewrite Hf.
    rewrite (IH a1 a' (log ++ [rec]) fuel Hacc) by lia.
    now rewrite <- app_assoc.
Qed.

Lemma ForEach_stop (s : St) (recs : list Rec) (s1 : St) :
  yields decode s recs s1 ->
  forall (rec : Rec) (s2 : St) (a a1 a2 : A) (e : error)
         (log : list Rec) (fuel : nat),
    decode s1 = (inl rec, s2) ->
    accepts f a recs = Some a1 -> f a1 rec = (Some e, a2) ->
    (length recs < fuel)%nat ->
    run fuel s (a, log) = Done (Some e) s2 (a2, log ++ recs ++ [rec]).
Proof.
  induction 1 as [s | s r0 s1 recs s' Hd _ IH];
    intros rec s2 a a1 a2 e log fuel Hd2 Hacc Hf Hfuel.
  - destruct fuel as [|fuel]; [simpl in Hfuel; lia|].
    simpl in Hacc. inversion Hacc; subst.
    simpl. rewrite Hd2. unfold journal. simpl. now rewrite Hf.
  - destruct fuel as [|fuel]; [simpl in Hfuel; lia|].
    simpl in Hacc, Hfuel.
    destruct (f a r0) as [[e0|] a0] eqn:Hf0; [discriminate|].
    simpl. rewrite Hd. unfold journal at 1. simpl. rewrite Hf0.
    rewrite (IH rec s2 a0 a1 a2 e (log ++ [r0]) fuel Hd2 Hacc Hf) by lia.
    now rewrite <- app_assoc.
Qed.

(** C8.  When the decoder yields the records [recs] and then [io.EOF],
    and the callback returns nil on each of them, [ForEach] returns nil
    and the callback has been called on exactly the records of [recs], in
    their order.  When the callback returns an error [e] on the record
    that follows [recs], having returned nil on [recs], [ForEach] returns
    [e] at once: the callback has been called on [recs] and on that
    record, [length recs + 1] times in all, and not again. *)
Theorem ForEach_spec :
  (forall (s s' : St) (recs : list Rec) (a a' : A) (fuel : nat),
      decodes decode s recs s' ->
      accepts f a recs = Some a' -> (length recs < fuel)%nat ->
      run fuel s (a, []) = Done None s' (a', recs)) /\
  (forall (s s1 s2 : St) (recs : list Rec) (rec : Rec) (a a1 a2 : A)
          (e : error) (fuel : nat),
      yields decode s recs s1 -> decode s1 = (inl rec, s2) ->
      accepts f a recs = Some a1 -> f a1 rec = (Some e, a2) ->
      (length recs < fuel)%nat ->
      run fuel s (a, []) = Done (Some e) s2 (a2, recs ++ [rec]) /\
      length (recs ++ [rec]) = S (length recs)).
Proof.
  split.
  - intros s s' recs a a' fuel Hd Hacc Hfuel.
    exact (ForEach_all s recs s' Hd a a' [] fuel Hacc Hfuel).
  - intros s s1 s2 recs rec a a1 a2 e fuel Hy Hd Hacc Hf Hfuel.
    split.
    + exact (ForEach_stop s recs s1 Hy rec s2 a a1 a2 e [] fuel
                          Hd Hacc Hf Hfuel).
    + rewrite length_app. simpl. lia.
Qed.

(** X8.  When the decoder yields the records [recs] and then an error
    other than [io.EOF], and the callback returned nil on each of them,
    [ForEach] returns that error: the callback has been called on exactly
    the records of [recs] and is not called again. *)
Theorem ForEach_decoder_error (s : St) (recs : list Rec) (s1 : St) :
  yields decode s recs s1 ->
  forall (s2 : St) (a a1 : A) (e : error) (log : list Rec) (fuel : nat),
    decode s1 = (inr e, s2) -> e <> EOF ->
    accepts f a recs = Some a1 -> (length recs < fuel)%nat ->
    run fuel s (a, log) = Done (Some e) s2 (a1, log ++ recs).
Proof.
  induction 1 as [s | s r0 s1 recs s' Hd _ IH];
    intros s2 a a1 e log fuel Hd2 He Hacc Hfuel.
  - destruct fuel as [|fuel]; [simpl in Hfuel; lia|].
    simpl in Hacc. inversion Hacc; subst.
    simpl. rewrite Hd2, app_nil_r.
    destruct e; [congruence | reflexivity | reflexivity | reflexivity].
  - destruct fuel as [|fuel]; [simpl in Hfuel; lia|].
    simpl in Hacc, Hfuel.
    destruct (f a r0) as [[e0|] a0] eqn:Hf0; [discriminate|].
    simpl. rewrite Hd. unfold journal at 1. simpl. rewrite Hf0.
    rewrite (IH s2 a0 a1 e (log ++ [r0]) fuel Hd2 He Hacc) by lia.
    now rewrite <- app_assoc.
Qed.

(** X9.  [ForEach] returns nil in one way only: the decoder has reported
    [io.EOF], and the callback was called on every record the decoder
    yielded before it, in their order, and returned nil each time.  A
    callback that returns [io.EOF] itself does not end the loop with nil. *)
Theorem ForEach_nil_only_at_EOF (fuel : nat) :
  forall (s s' : St) (a a' : A) (log log' : list Rec),
    run fuel s (a, log) = Done None s' (a', log') ->
    exists recs : list Rec,
      decodes decode s recs s' /\ accepts f a recs = Some a' /\
      log' = log ++ recs.
Proof.
  induction fuel as [|fuel IH]; intros s s' a a' log log' Hrun.
  - discriminate.
  - simpl in Hrun.
    destruct (decode s) as [[rec | e] s1] eqn:Hd.
    + unfold journal at 1 in Hrun. simpl in Hrun.
      destruct (f a rec) as [[e|] a1] eqn:Hf; [discriminate|].
      destruct (IH _ _ _ _ _ _ Hrun) as (recs & Hdec & Hacc & ->).
      exists (rec :: recs). split; [|split].
      * eapply decodes_rec; eassumption.
      * simpl. now rewrite Hf.
      * now rewrite <- app_assoc.
    + destruct e; try discriminate.
      inversion Hrun; subst.
      exists []. split; [|split].
      * now apply decodes_eof.
      * reflexivity.
      * now rewrite app_nil_r.
Qed.


End ForEachProps.

(** * The properties on a replay *)

Module OnReplay.

Import Replay.

Abbreviation E := Literal.engine.

Lemma start_typed : typed start.
Proof. unfold start, NewDecompressor. ranges. Qed.

Lemma literal_contract : ReadFull_contract E.
Proof.
intros zs w n out c e zs'.
cbn [zReadFull Literal.engine]. unfold Literal.readFull.
destruct n as [|n].
- intros H. inversion H; subst. simpl. split; [lia|]. tauto.
- remember (S n) as m eqn:Hm.
  pose proof (length_firstn m w) as Hlen.
  destruct zs; cbn [Literal.stuck];
    try (intros H; inversion H; subst; simpl; split; [lia|];
         split; [discriminate | lia]).
  destruct (Nat.eqb_spec (length (firstn m w)) m) as [Hl|Hl];
    intros H; inversion H; subst out c e zs'.
  + split; [lia|]. tauto.
  + split; [lia|]. split; [discriminate | lia].
Qed.

(** Reading the ten bytes the container announces: both blocks are
opened, the four bytes the second block holds beyond the total are
drained, the source is used up and the second block closes without
complaint.  [SizeRead] stops at 38 of the 42 bytes of the stream: what the
drain takes from the source is not added to it. *)
Example read_ten :
  match LRead start 10 with
  | Ret out e d' =>
    out = bytes [1; 2; 3; 4; 5; 6; 7; 8; 9; 10] /\ e = None /\
    SizeTotal d' = 0 /\ SizeBlock d' = 0 /\ r d' = [] /\
    closeBlock d' = None /\
    SizeRead d' = 38 /\ length stream = 42%nat
  | _ => False
  end.
Proof. vm_compute. repeat split. Qed.

(** The same bytes come out whatever the buffers of the caller. *)
Example read_in_chunks :
  ReadAll le le start [10; 1]%nat
  = Some (bytes [1; 2; 3; 4; 5; 6; 7; 8; 9; 10], Some EOF) /\
  ReadAll le le start [1; 2; 3; 4; 1]%nat
  = Some (bytes [1; 2; 3; 4; 5; 6; 7; 8; 9; 10], Some EOF) /\
  ReadAll le le start [6; 100; 1]%nat
  = Some (bytes [1; 2; 3; 4; 5; 6; 7; 8; 9; 10], Some EOF).
Proof. vm_compute. repeat split. Qed.

(** C6 at the fresh receiver. *)
Lemma closeBlock_spec_witness :
  typed start /\ closeBlock start = None.
Proof.
  split; [exact start_typed|].
  destruct (closeBlock_spec E start start_typed) as (_ & H).
  destruct (H eq_refl eq_refl) as (_ & H'). apply H'. reflexivity.
Defined.

(** C9 at a receiver with nothing owed. *)
Lemma Read_terminal_witness :
  ReadSeq le le (NewDecompressor E stream 0 2 0) [3; 0; 7]%nat =
  ([([], Some EOF); ([], Some EOF); ([], Some EOF)],
   Some (NewDecompressor E stream 0 2 0)).
Proof.
  exact (proj2 (Read_terminal E le le (NewDecompressor E stream 0 2 0)
                              1%nat [3; 0; 7]%nat eq_refl)).
Defined.

(** C1 as stated fails on [no_blocks]: five bytes are owed, no block is
    left, and [nextBlock] answers with [io.EOF]. *)
Lemma nextBlock_end_of_blocks_is_EOF :
  0 < SizeTotal no_blocks /\ NumBlocks no_blocks = 0 /\
  ~ (fst (LnextBlock no_blocks) <> Some EOF).
Proof.
  split; [reflexivity|]. split; [reflexivity|].
  intros H. apply H. reflexivity.
Qed.

Lemma Read_no_blocks_witness :
  LRead no_blocks 4 = Ret [] (Some EOF) no_blocks.
Proof.
  refine (proj2 (Read_no_blocks E le le no_blocks 4%nat _ _ _ _));
    [reflexivity | reflexivity | reflexivity | discriminate].
Defined.



(** *** The blocks of the replay *)

Lemma blocks_stream : stream_of blocks = stream.
Proof. vm_compute. reflexivity. Qed.

Lemma blocks_wf : Forall (wf_block le le 0) blocks.
Proof. repeat constructor; vm_compute; reflexivity. Qed.

(** C2 as stated fails on the replay read in full: [SizeRead] ends at 42,
the 12 header bytes and the declared compressed length of each block, and
not at 22, the declared compressed lengths and the 2 bytes the engine takes
when it is started on a block. *)
Lemma SizeRead_is_not_length_plus_framing :
  (forall a b w, fst (fst (Literal.reset (a :: b :: w))) = 2%nat) /\
  match ReadSeq le le full_start [14%nat] with
  | (log, Some d') =>
    all_nil log /\ SizeTotal d' = 0 /\ r d' = [] /\
    SizeRead d' = 42 /\
    SizeRead d' <> uint32 (sumC_framing le le 0 2 blocks)
  | _ => False
  end.
Proof.
split.
- intros a b w. unfold Literal.reset. now destruct (Byte.eqb a Byte.x78).
- vm_compute. splits; try reflexivity.
  + repeat constructor.
  + discriminate.
Qed.

Lemma SizeRead_drained_witness :
  match ReadSeq le le full_start [14%nat] with
  | (_, Some d') => SizeRead d' = uint32 (sumC le le 0 blocks)
  | _ => False
  end.
Proof.
destruct (ReadSeq le le full_start [14%nat]) as [log [d'|]] eqn:Hseq.
- refine (SizeRead_drained E le le 0 2 14 blocks [14%nat] log d'
            literal_contract _ _ _ blocks_wf _ _ Hseq _ _ _).
  + lia.
  + lia.
  + lia.
  + vm_compute. reflexivity.
  + repeat constructor.
  + vm_compute in Hseq. inversion Hseq. repeat constructor.
  + vm_compute in Hseq. inversion Hseq. reflexivity.
  + vm_compute in Hseq. inversion Hseq. reflexivity.
- vm_compute in Hseq. discriminate.
Defined.


(** *** The header of the first block *)

Abbreviation hdr1 := (firstn 12 stream).
Abbreviation rest1 := (skipn 12 stream).

(** C4 on the replay with one bit of its first header flipped: no byte is
delivered. *)
Lemma header_checksum_witness :
  LRead (NewDecompressor E bad_header 0 2 10) 10
  = Ret [] (Some ErrInvalidChecksum)
        (afterHeader le le (NewDecompressor E bad_header 0 2 10)
                     (firstn 12 bad_header) (skipn 12 bad_header)).
Proof.
set (d := NewDecompressor E bad_header 0 2 10).
set (p := parseHeader le le (GameVersion d) (firstn 12 bad_header)).
destruct (header_checksum E le le d (firstn 12 bad_header)
            (skipn 12 bad_header)
            (fst (fst (fst p))) (snd (fst (fst p))) (snd (fst p)) (snd p))
  as (Hbad & _).
- vm_compute. discriminate.
- vm_compute. reflexivity.
- vm_compute. reflexivity.
- vm_compute. reflexivity.
- vm_compute. reflexivity.
- destruct Hbad as (_ & _ & _ & Hloop).
  + vm_compute. discriminate.
  + exact (Hloop 3%nat 10%nat [] eq_refl ltac:(discriminate)).
Defined.

(** C5 on the replay in both layouts: 12 header bytes for version 0, 8
for version 10031, and the second field lands in [SizeBlock]. *)
Lemma header_layout_witness :
  (length hdr1 = 12%nat /\ SizeBlock (snd (LnextBlock start)) = 6) /\
  (length (firstn 8 old_stream) = 8%nat /\
   SizeBlock (snd (LnextBlock old_start)) = 6).
Proof.
split.
- destruct (header_layout E le le start hdr1 rest1) as (_ & Hnew & Huse).
  + exact start_typed.
  + vm_compute. discriminate.
  + vm_compute. reflexivity.
  + vm_compute. reflexivity.
  + vm_compute. reflexivity.
  + destruct (Hnew (or_introl eq_refl)) as (Hlen & Hparse).
    split; [exact Hlen|].
    destruct (Huse _ _ _ _ Hparse) as (Hsb & _).
    refine (eq_trans Hsb _). vm_compute. reflexivity.
- destruct (header_layout E le le old_start (firstn 8 old_stream)
                          (skipn 8 old_stream)) as (Hold & _ & Huse).
  + unfold old_start, NewDecompressor. ranges.
  + vm_compute. discriminate.
  + vm_compute. reflexivity.
  + vm_compute. reflexivity.
  + vm_compute. reflexivity.
  + assert (Hgv : 0 < GameVersion old_start < 10032)
      by (vm_compute; split; reflexivity).
    destruct (Hold Hgv) as (Hlen & Hparse).
    split; [exact Hlen|].
    destruct (Huse _ _ _ _ Hparse) as (Hsb & _).
    refine (eq_trans Hsb _). vm_compute. reflexivity.
Defined.

(** *** The last block *)



(** *** Sources cut short *)

(** C7 as stated fails in two ways.  On the replay cut after 40 of its 42
bytes, two bytes short of the end of the second block, the caller receives
all ten bytes and then [io.EOF], and no error before it.  And with an engine
that answers [io.EOF] at the clean end of a stream, on a first block whose
stream ends after 6 bytes under a header that declares 8, followed by a
block cut short: a caller with buffers of 6 and 2 bytes is stopped by
[io.EOF] with 6 of the 14 bytes announced, where a caller with a buffer of
14 bytes is stopped by [io.ErrUnexpectedEOF]. *)
Lemma cut_stream_reads_clean :
  ((length block1 < 40 < length stream)%nat /\
   ReadAll le le cut40 [10; 10]%nat
   = Some (bytes [1; 2; 3; 4; 5; 6; 7; 8; 9; 10], Some EOF) /\
   ReadSeq le le cut40 [4; 6; 1]%nat
   = ([(bytes [1; 2; 3; 4], None); (bytes [5; 6; 7; 8; 9; 10], None);
       ([], Some EOF)],
      snd (ReadSeq le le cut40 [4; 6; 1]%nat))) /\
  ((length (mkBlock 0 (Counted.deflate data1) 8) < length (r early_end)
    < length (mkBlock 0 (Counted.deflate data1) 8)
      + length (mkBlock 0 (Counted.deflate data2) 8))%nat /\
   SizeTotal early_end = 14 /\
   ReadAll le le early_end [6; 2; 6]%nat
   = Some (bytes [1; 2; 3; 4; 5; 6], Some EOF) /\
   ReadAll le le early_end [14; 14]%nat
   = Some (bytes [1; 2; 3; 4; 5; 6], Some ErrUnexpectedEOF)).
Proof. vm_compute. repeat split; repeat constructor. Qed.

(** The engine [Counted] keeps the contract of [io.ReadFull], does not
answer [io.EOF] when it is started, and its errors are [io.EOF],
[io.ErrUnexpectedEOF] and its own. *)
Lemma counted_contract : ReadFull_contract Counted.engine.
Proof.
intros zs w n out c e zs'.
cbn [zReadFull Counted.engine]. unfold Counted.readFull.
destruct n as [|n].
- intros H. inversion H; subst. simpl. split; [lia|]. tauto.
- destruct zs as [[|m]| |];
    try (intros H; inversion H; subst; simpl; split; [lia|];
         split; [discriminate | lia]).
  remember (S n) as n1 eqn:Hn1. remember (S m) as m1 eqn:Hm1.
  pose proof (length_firstn (Nat.min n1 m1) w) as Hlen.
  remember (firstn (Nat.min n1 m1) w) as o eqn:Ho.
  destruct (Nat.ltb_spec (length o) (Nat.min n1 m1)) as [Hl|Hl].
  + intros H. inversion H; subst out c e zs'.
    split; [lia|]. split; [discriminate | lia].
  + destruct (Nat.leb_spec n1 m1) as [Hn|Hn];
      intros H; inversion H; subst out c e zs'.
    * split; [lia|]. split; [lia | reflexivity].
    * split; [lia|]. split; [discriminate | lia].
Qed.

Lemma counted_reset : reset_not_EOF Counted.engine.
Proof.
intros w c e zs. cbn [zReset Counted.engine]. unfold Counted.reset.
destruct w as [|a [|b w]]; try (intros H; inversion H; discriminate).
destruct (Byte.eqb a Byte.x78); intros H; inversion H; discriminate.
Qed.

Lemma counted_own_errors : own_errors Counted.engine.
Proof.
intros zs w n out c e zs'.
cbn [zReadFull Counted.engine]. unfold Counted.readFull.
destruct n as [|n]; [discriminate|].
destruct zs as [[|m]| |].
- intros H. inversion H; subst. auto.
- destruct (length (firstn (Nat.min (S n) (S m)) w)
            <? Nat.min (S n) (S m))%nat.
  + intros H. inversion H; subst. auto.
  + destruct (S n <=? S m)%nat; intros H; inversion H; subst. auto.
- intros H. inversion H; subst. auto.
- intros H. inversion H; subst. right. right. exists 1%nat. reflexivity.
Qed.

(** With [m] data bytes to go and as many expected of the block, the
engine has data to give whenever [Read] asks it. *)
Lemma counted_asked (zs : Counted.state) (w : list byte) (sb : Z)
      (zs' : Counted.state) (w' : list byte) (sb' : Z) :
  asked Counted.engine zs w sb zs' w' sb' ->
  forall m : nat,
    zs = Counted.Live m -> sb = Z.of_nat m -> (0 < m)%nat ->
    Z.of_nat m < 2 ^ 32 ->
    exists m' : nat, zs' = Counted.Live m' /\ (0 < m')%nat.
Proof.
induction 1 as [zs w sb | zs w sb n out c zs1 zs' w' sb' Hn Hrf Hsb _ IH];
  intros m Hzs Hm Hpos Hlt.
- exists m. auto.
- subst zs sb. cbn [zReadFull Counted.engine] in Hrf.
  unfold Counted.readFull in Hrf.
  destruct n as [|n]; [contradiction|].
  destruct m as [|m]; [lia|].
  remember (S n) as n1 eqn:Hn1. remember (S m) as m1 eqn:Hm1.
  pose proof (length_firstn (Nat.min n1 m1) w) as Hlen.
  remember (firstn (Nat.min n1 m1) w) as o eqn:Ho.
  destruct (Nat.ltb_spec (length o) (Nat.min n1 m1)) as [Hl|Hl];
    [discriminate|].
  destruct (Nat.leb_spec n1 m1) as [Hle|Hle]; [|discriminate].
  inversion Hrf; subst out c zs1.
  assert (Hout : length o = n1) by lia.
  rewrite Hout in Hsb, IH.
  assert (Hu : uint32 (Z.of_nat m1 - uint32 (Z.of_nat n1))
               = Z.of_nat (m1 - n1)).
  { rewrite (uint32_small (Z.of_nat n1)) by lia.
    rewrite uint32_small by lia. lia. }
  rewrite Hu in Hsb. apply (IH (m1 - n1)%nat); auto; lia.
Qed.

Lemma counted_no_clean_end (m : nat) (w : list byte) :
  (0 < m)%nat -> Z.of_nat m < 2 ^ 32 ->
  no_clean_end Counted.engine (Counted.Live m) w (Z.of_nat m).
Proof.
intros Hpos Hlt zs' w' sb' n out c zs'' Hasked Hn.
destruct (counted_asked _ _ _ _ _ _ Hasked m eq_refl eq_refl Hpos Hlt)
  as (m' & -> & Hpos').
cbn [zReadFull Counted.engine]. unfold Counted.readFull.
destruct n as [|n]; [contradiction|].
destruct m' as [|m']; [lia|].
destruct (length (firstn (Nat.min (S n) (S m')) w')
          <? Nat.min (S n) (S m'))%nat; [discriminate|].
destruct (S n <=? S m')%nat; discriminate.
Qed.

(** The blocks of the replay for [Counted], which declare the bytes their
streams hold: whatever the source holds of their payload, the stream does
not end while bytes are expected. *)
Lemma counted_unending (data : list byte) (declared : Z) (k : nat) :
  (0 < length data < 256)%nat -> declared = Z.of_nat (length data) ->
  unending Counted.engine le le 0
           (mkHeader 0 (Counted.deflate data) declared)
           (firstn k (Counted.deflate data)).
Proof.
intros Hlen Hdecl c zs Hreset.
assert (HD : declD le le 0 (mkHeader 0 (Counted.deflate data) declared)
             = Z.of_nat (length data)).
{ subst declared. clear Hreset.
  assert (Hd : exists v, (0 < v < 256)%nat /\ length data = v)
    by (exists (length data); auto).
  destruct Hd as (v & Hv & ->).
  unfold W3G.declD, parseHeader, mkHeader. cbn [wide Z.eqb orb fst snd].
  unfold put32.
  do 256 (destruct v as [|v]; [try lia; vm_compute; reflexivity|]).
  lia. }
rewrite HD.
cbn [zReset Counted.engine] in Hreset. unfold Counted.reset in Hreset.
unfold Counted.deflate in Hreset. cbn [app] in Hreset.
destruct k as [|[|k]]; try discriminate.
cbn [firstn] in Hreset.
change (Byte.eqb Byte.x78 Byte.x78) with true in Hreset. cbv iota in Hreset.
inversion Hreset; subst c zs.
assert (Hb : Z.to_nat (byte_val (byte_of (Z.of_nat (length data))))
             = length data).
{ assert (Hd : exists v, (0 < v < 256)%nat /\ length data = v)
    by (exists (length data); auto).
  destruct Hd as (v & Hv & ->).
  do 256 (destruct v as [|v]; [try lia; vm_compute; reflexivity|]).
  lia. }
rewrite Hb. apply counted_no_clean_end; lia.
Qed.

Lemma counted_cut17_cut_short :
  typed counted_cut17 /\ 0 < SizeTotal counted_cut17 /\
  cut_short counted_cut17 /\ calm counted_cut17.
Proof.
splits.
- unfold typed. vm_compute. intuition discriminate.
- vm_compute. reflexivity.
- left. vm_compute. intuition discriminate.
- intros _ _. exists (Counted.Live 3). split; [vm_compute; reflexivity|].
  change (SizeBlock counted_cut17) with (Z.of_nat 3).
  apply counted_no_clean_end; [lia | vm_compute; reflexivity].
Qed.

(** C7 on the replay for [Counted], an engine that answers [io.EOF] at the
clean end of a stream: cut two bytes short of the end of the second block
and read from the start, the caller is stopped by [io.EOF] only with all ten
bytes; cut after 17 bytes, with three bytes delivered, it is stopped by
[io.ErrUnexpectedEOF]. *)
Lemma cut_stream_session_witness :
  (forall out,
      ReadAll le le (NewDecompressor Counted.engine (counted_cut 20) 0 2 10)
              [10; 10]%nat = Some (out, Some EOF) ->
      Z.of_nat (length out) = 10) /\
  ReadAll le le counted_cut17 [7; 3; 10]%nat
  = Some ([], Some ErrUnexpectedEOF).
Proof.
destruct counted_cut17_cut_short as (Ht & Hst & Hcut & Hcalm).
assert (Hwf : wf_block le le 0 (mkHeader 0 (Counted.deflate data2) 8,
                                Counted.deflate data2))
  by (split; vm_compute; reflexivity).
assert (Hin : (0 < 20 < length (mkHeader 0 (Counted.deflate data2) 8)
                     + length (Counted.deflate data2))%nat)
  by (vm_compute; lia).
assert (Hun : (length (mkHeader 0 (Counted.deflate data2) 8) <= 20)%nat ->
              unending Counted.engine le le 0
                (mkHeader 0 (Counted.deflate data2) 8)
                (firstn (20 - length (mkHeader 0 (Counted.deflate data2) 8))
                        (Counted.deflate data2))).
{ intros _. apply counted_unending; [vm_compute; lia | reflexivity]. }
assert (Hwhole : Forall (whole Counted.engine le le 0)
                        [(mkHeader 0 (Counted.deflate data1) 6,
                          Counted.deflate data1)]).
{ constructor; [|constructor]. split.
  - split; vm_compute; reflexivity.
  - cbn [fst snd].
    rewrite <- (firstn_all (Counted.deflate data1)) at 2.
    apply counted_unending; [vm_compute; lia | reflexivity]. }
split.
- destruct (cut_stream_session Counted.engine le le 0
              (mkHeader 0 (Counted.deflate data2) 8)
              (Counted.deflate data2) 20%nat Hwf Hin
              counted_contract counted_reset Hun
              [(mkHeader 0 (Counted.deflate data1) 6,
                Counted.deflate data1)]
              2 10 [10; 10]%nat Hwhole
              ltac:(lia) ltac:(lia) ltac:(simpl; lia)
              ltac:(repeat constructor)) as (Hstart & _).
  exact Hstart.
- destruct (cut_stream_session Counted.engine le le 0
              (mkHeader 0 (Counted.deflate data2) 8)
              (Counted.deflate data2) 20%nat Hwf Hin
              counted_contract counted_reset Hun
              [(mkHeader 0 (Counted.deflate data1) 6,
                Counted.deflate data1)]
              2 10 [7; 3; 10]%nat Hwhole
              ltac:(lia) ltac:(lia) ltac:(simpl; lia)
              ltac:(repeat constructor)) as (_ & Hinside).
  specialize (Hinside counted_own_errors counted_cut17 Ht Hst Hcut Hcalm).
  destruct (ReadAll le le counted_cut17 [7; 3; 10]%nat)
    as [[out [e|]]|] eqn:Hall;
    vm_compute in Hall; inversion Hall; subst; reflexivity.
Defined.

(** *** Records *)

(** C8 on a stream of three records, and on one whose third record the
callback refuses. *)
Lemma ForEach_spec_witness :
  ForEach decode (journal add) 4 [1; 2; 3]%nat (O, [])
  = Done None [] (6%nat, [1; 2; 3]%nat) /\
  ForEach decode (journal add) 3 [1; 2; 0; 5]%nat (O, [])
  = Done (Some refused) [5%nat] (3%nat, [1; 2; 0]%nat).
Proof.
destruct (ForEach_spec nat (list nat) decode nat add) as (Hall & Hstop).
split.
- apply (Hall [1; 2; 3]%nat [] [1; 2; 3]%nat O 6%nat 4%nat).
  + do 3 (eapply decodes_rec; [reflexivity|]).
    apply decodes_eof. reflexivity.
  + reflexivity.
  + simpl. lia.
- apply (Hstop [1; 2; 0; 5]%nat [0; 5]%nat [5%nat] [1; 2]%nat O
               O 3%nat 3%nat refused 3%nat).
  + do 2 (eapply yields_cons; [reflexivity|]).
    apply yields_nil.
  + reflexivity.
  + reflexivity.
  + reflexivity.
  + simpl. lia.
Defined.


(** *** Further properties on the replay *)

(** X1 on the replay read with buffers of 3, 4 and 5 bytes: ten bytes come
out and nothing is owed. *)
Lemma session_delivers_total_witness :
  match ReadSeq le le start [3; 4; 5]%nat with
  | (log, Some d') =>
    typed d' /\
    Z.of_nat (length (delivered log)) + SizeTotal d' = SizeTotal start
  | _ => False
  end.
Proof.
destruct (ReadSeq le le start [3; 4; 5]%nat) as [log [d'|]] eqn:Hseq.
- refine (session_delivers_total E le le [3; 4; 5]%nat literal_contract _
            start d' log start_typed Hseq).
  repeat constructor.
- vm_compute in Hseq. discriminate.
Defined.

(** X2 on the replay after calls for 3 and 4 bytes: the second block is
open and [SizeRead] is the position in the source. *)
Lemma SizeRead_is_source_position_witness :
  match ReadSeq le le start [3; 4]%nat with
  | (_, Some d') =>
    (length (r d') <= length (r start))%nat /\
    SizeRead d' =
    uint32 (SizeRead start
            + (Z.of_nat (length (r start)) - Z.of_nat (length (r d'))))
  | _ => False
  end.
Proof.
destruct (ReadSeq le le start [3; 4]%nat) as [log [d'|]] eqn:Hseq.
- refine (SizeRead_is_source_position E le le [3; 4]%nat literal_contract
            start d' log start_typed Hseq _).
  vm_compute in Hseq. inversion Hseq. discriminate.
- vm_compute in Hseq. discriminate.
Defined.

(** X3 on the replay after calls for 3 and 4 bytes. *)
Lemma session_keeps_witness :
  match ReadSeq le le start [3; 4]%nat with
  | (_, Some d') =>
    typed d' /\ GameVersion d' = GameVersion start /\
    0 <= NumBlocks d' <= NumBlocks start /\
    exists k : nat, r d' = skipn k (r start)
  | _ => False
  end.
Proof.
destruct (ReadSeq le le start [3; 4]%nat) as [log [d'|]] eqn:Hseq.
- exact (session_keeps E le le [3; 4]%nat literal_contract
           start d' log start_typed Hseq).
- vm_compute in Hseq. discriminate.
Defined.

(** X4 on the replay cut five bytes into its second header. *)
Lemma Read_header_missing_witness :
  exists d',
    LRead cut25 4 = Ret [] (Some ErrUnexpectedEOF) d' /\ r d' = [] /\
    NumBlocks d' = uint32 (NumBlocks cut25 - 1) /\
    SizeRead d' =
      uint32 (SizeRead cut25 + uint32 (Z.of_nat (length (r cut25)))) /\
    SizeTotal d' = SizeTotal cut25 /\ SizeBlock d' = 0 /\ z d' = z cut25.
Proof.
refine (Read_header_missing E le le cut25 4%nat _ _ _ _ _ _).
- vm_compute. reflexivity.
- vm_compute. reflexivity.
- vm_compute. reflexivity.
- vm_compute. discriminate.
- discriminate.
- vm_compute. lia.
Defined.

(** X5 on the replay with one bit of its first header flipped. *)
Lemma Read_again_panics_witness :
  exists e d1,
    LRead (NewDecompressor E bad_header 0 2 10) 10 = Ret [] (Some e) d1 /\
    LRead d1 1 = Panic.
Proof.
refine (Read_again_panics E le le (NewDecompressor E bad_header 0 2 10)
          (firstn 12 bad_header) (skipn 12 bad_header) 10%nat 1%nat
          _ _ _ _ _ _ _ _ _ _ _).
- vm_compute. reflexivity.
- vm_compute. reflexivity.
- vm_compute. reflexivity.
- vm_compute. discriminate.
- reflexivity.
- discriminate.
- discriminate.
- vm_compute. reflexivity.
- vm_compute. reflexivity.
- vm_compute. discriminate.
- vm_compute. discriminate.
Defined.

Lemma failed_start_typed : typed failed_start.
Proof. unfold typed. vm_compute. intuition discriminate. Qed.

(** X6 at the receiver the failed first call leaves. *)
Lemma Read_panics_iff_witness : LRead failed_start 1 = Panic.
Proof.
refine (proj2 (Read_panics_iff E le le failed_start 1%nat
                 failed_start_typed) _).
split; [vm_compute; discriminate|].
split; [discriminate|].
split; [vm_compute; discriminate | vm_compute; reflexivity].
Defined.

(** X7 on the replay read with buffers of 3, 4 and 3 bytes. *)
Lemma session_without_error_returns_witness :
  length (fst (ReadSeq le le start [3; 4; 3]%nat)) = 3%nat /\
  exists d', snd (ReadSeq le le start [3; 4; 3]%nat) = Some d' /\
             (z d' = None -> SizeBlock d' = 0).
Proof.
destruct (ReadSeq le le start [3; 4; 3]%nat) as [log fin] eqn:Hseq.
refine (session_without_error_returns E le le [3; 4; 3]%nat
          literal_contract start log fin start_typed _ Hseq _).
- reflexivity.
- vm_compute in Hseq. inversion Hseq. repeat constructor.
Defined.

(** X11 on the replay read in full: both blocks have their checksums
right. *)
Lemma session_verifies_blocks_witness :
  match ReadSeq le le full_start [14%nat] with
  | (_, Some d') =>
    exists done rest : list block,
      blocks = done ++ rest /\ r d' = stream_of rest /\
      Forall (sealed le le 0) done
  | _ => False
  end.
Proof.
destruct (ReadSeq le le full_start [14%nat]) as [log [d'|]] eqn:Hseq.
- refine (session_verifies_blocks E le le 0 blocks [14%nat] blocks_wf
            full_start d' log _ _ _ Hseq _ _).
  + reflexivity.
  + reflexivity.
  + reflexivity.
  + vm_compute in Hseq. inversion Hseq. repeat constructor.
  + vm_compute in Hseq. inversion Hseq. vm_compute. reflexivity.
- vm_compute in Hseq. discriminate.
Defined.

(** X12 at the fresh receiver with a buffer of 10 bytes. *)
Lemma Read_turns_bounded_witness :
  exists res : result E,
    (res = Panic \/ exists out e d', res = Ret out e d') /\
    LRead start 10 = res /\
    forall n : nat,
      Read_loop le le (S (S (Z.to_nat (NumBlocks start))) + n)
                (clamp start 10) [] start = res.
Proof.
refine (Read_turns_bounded E le le start 10%nat literal_contract
          start_typed _).
vm_compute. discriminate.
Defined.

(** X13 on the replay with a payload byte of its first block changed: the
first call delivers the six bytes with [ErrInvalidChecksum], and so the
calls after it return. *)
Lemma close_error_persists_witness :
  ReadSeq le le after_bad_payload [4; 1]%nat
  = ([([], Some ErrInvalidChecksum); ([], Some ErrInvalidChecksum)],
     Some after_bad_payload).
Proof.
refine (close_error_persists E le le [4; 1]%nat after_bad_payload
          ErrInvalidChecksum _ _ _ _ _).
- vm_compute. reflexivity.
- vm_compute. reflexivity.
- vm_compute. discriminate.
- vm_compute. reflexivity.
- repeat constructor; discriminate.
Defined.

(** X8 on a decoder that meets a record cut short after two records. *)
Lemma ForEach_decoder_error_witness :
  ForEach decode_pairs (journal add) 3 [0; 4; 0; 5; 9]%nat (O, [])
  = Done (Some ErrUnexpectedEOF) [] (9%nat, [4; 5]%nat).
Proof.
refine (ForEach_decoder_error nat (list nat) decode_pairs nat add
          [0; 4; 0; 5; 9]%nat [4; 5]%nat [9%nat] _
          [] O 9%nat ErrUnexpectedEOF [] 3%nat _ _ _ _).
- do 2 (eapply yields_cons; [reflexivity|]). apply yields_nil.
- reflexivity.
- discriminate.
- reflexivity.
- simpl. lia.
Defined.

(** X9 on a run that returned nil. *)
Lemma ForEach_nil_only_at_EOF_witness :
  exists recs : list nat,
    decodes decode [1; 2; 3]%nat recs [] /\
    accepts add O recs = Some 6%nat /\ [1; 2; 3]%nat = [] ++ recs.
Proof.
refine (ForEach_nil_only_at_EOF nat (list nat) decode nat add 4%nat
          [1; 2; 3]%nat [] O 6%nat [] [1; 2; 3]%nat _).
reflexivity.
Defined.


(** X14 on a block that holds 6 bytes and declares 4: with one byte read
and 3 more declared, a call for 5 bytes gets 5. *)
Lemma Read_past_declared_size_witness :
  let d2 := snd (fill (E := E) Literal.Live 5 understated) in
  LRead understated 5 = Ret (bytes [2; 3; 4; 5; 6]) None d2 /\
  SizeBlock understated < Z.of_nat (length (bytes [2; 3; 4; 5; 6])) /\
  SizeBlock d2 = 2 ^ 32 + SizeBlock understated - Z.of_nat 5 /\
  SizeTotal d2 = SizeTotal understated - Z.of_nat 5.
Proof.
intros d2.
refine (Read_past_declared_size E le le understated Literal.Live 5%nat
          (bytes [2; 3; 4; 5; 6]) d2 literal_contract _ _ _ _ _ _).
- unfold typed. vm_compute. intuition discriminate.
- vm_compute. reflexivity.
- vm_compute. reflexivity.
- vm_compute. reflexivity.
- vm_compute. reflexivity.
- vm_compute. reflexivity.
Defined.


End OnReplay.

(** * A buffer of [2^32] bytes *)

Module OnZeros.

Import Zeros.

Lemma opened_state :
  typed opened /\ SizeTotal opened = 1 /\ SizeBlock opened <> 0 /\
  z opened = Some tt.
Proof.
splits.
- unfold typed. vm_compute. intuition discriminate.
- vm_compute. reflexivity.
- vm_compute. discriminate.
- vm_compute. reflexivity.
Qed.

(** C10 at a buffer of [2^32] bytes.  The receiver owes one byte and has a
block open; the engine can fill the buffer.  [Read] returns a nil error
with [2^32] bytes, not with [min(2^32, 1)], and still owes one byte. *)
Theorem Read_beyond_total :
  exists out d2,
    Read le le opened (2 ^ 32) = Ret out None d2 /\
    length out = (2 ^ 32)%nat /\
    SizeTotal opened = 1 /\ SizeTotal d2 = 1 /\
    (Nat.min (2 ^ 32) (Z.to_nat (SizeTotal opened)) < length out)%nat.
Proof.
destruct opened_state as (Ht & Hst & Hsb & Hz).
assert (Hpos : 0 < SizeTotal opened) by (rewrite Hst; reflexivity).
assert (Hfill : exists d2,
           fill (E := engine) tt (2 ^ 32) opened
           = (repeat Byte.x00 (2 ^ 32), None, d2)).
{ unfold fill. cbn [zReadFull engine readFull]. eexists. reflexivity. }
destruct Hfill as (d2 & Hfill).
destruct (Read_huge_buffer engine le le opened tt _ d2
                           Ht Hpos Hsb Hz Hfill
                           (repeat_length Byte.x00 (2 ^ 32)))
  as (Hread & Hst2 & Hmin).
exists (repeat Byte.x00 (2 ^ 32)), d2.
split; [exact Hread|].
split; [apply repeat_length|].
split; [exact Hst|].
split; [rewrite Hst2; exact Hst | exact Hmin].
Qed.

End OnZeros.
